(** * ast_decompiler: the decompiler class, embedded in Rocq

    A shallow embedding of [ast_decompiler/decompiler.py] (Python 2): the
    [Decompiler] visitor that turns an [ast] tree back into source text.

    - Python objects of the [ast] module are values of one inductive type
      [AST]; the visitor's mutable fields are a record [Decompiler] that is
      threaded through a small state-and-exception monad [M].
    - Every [visit_X] method is a definition [visit_X] that receives the
      recursive [visit] as its first argument; [visit] ties the knot by
      recursion on a recursion budget.
    - The theorems at the end of the file are about these definitions. *)

From Stdlib Require Import ZArith List String Ascii Bool Lia Arith DecimalString.
Import ListNotations.

Local Open Scope string_scope.
Local Open Scope Z_scope.
Local Open Scope list_scope.

Set Implicit Arguments.

(* ================================================================== *)
(** * Python values used by the visitor *)
(* ================================================================== *)

Module Py.

(** [s * n] for a string [s] and an integer [n]: empty when [n <= 0]. *)
Fixpoint repeat_nat (s : string) (n : nat) : string :=
  match n with
  | O => ""
  | S n' => (s ++ repeat_nat s n')%string
  end.

Definition str_mul (s : string) (n : Z) : string := repeat_nat s (Z.to_nat n).

(** The string ['\n']. *)
Definition newline : string := String (ascii_of_nat 10) EmptyString.

(** [''.join(l)]. *)
Definition join (l : list string) : string := String.concat "" l.

(** [sum(map(len, l))]. *)
Definition total_len (l : list string) : Z :=
  fold_right (fun s acc => Z.of_nat (String.length s) + acc) 0 l.

(** Whitespace as [str.rstrip()] understands it. *)
Definition is_space (c : ascii) : bool :=
  let n := nat_of_ascii c in
  (Nat.eqb n 32 || (Nat.leb 9 n && Nat.leb n 13))%bool.

Fixpoint rstrip (s : string) : string :=
  match s with
  | EmptyString => EmptyString
  | String c rest =>
      match rstrip rest with
      | EmptyString => if is_space c then EmptyString else String c EmptyString
      | r => String c r
      end
  end.

(** Truth value of a string and of an optional string ([None] and ['']
    are false). *)
Definition truthy_str (s : string) : bool :=
  match s with EmptyString => false | _ => true end.

Definition truthy_opt_str (o : option string) : bool :=
  match o with Some s => truthy_str s | None => false end.

(** ** [repr] of numbers *)

(** The value held by a [Num] node.  Integers are exact; a float or a
    complex number is carried with the text [repr] gives for it, as
    floating-point arithmetic plays no part in the visitor. *)
Inductive number : Type :=
| PyInt (z : Z)
| PyLong (z : Z)
| PyFloat (text : string)
| PyComplex (text : string).

Definition repr_Z (z : Z) : string := NilZero.string_of_int (Z.to_int z).

Definition repr_number (n : number) : string :=
  match n with
  | PyInt z => repr_Z z
  | PyLong z => (repr_Z z ++ "L")%string
  | PyFloat t => t
  | PyComplex t => t
  end.

(** ** [repr] of strings *)

(** The value held by a [Str] node: a [str] (a byte string in Python 2)
    or a [unicode] (a sequence of code points). *)
Inductive text : Type :=
| PyStr (bytes : string)
| PyUnicode (code_points : list N).

Definition hex_digit (n : N) : ascii :=
  match n with
  | 0%N => "0" | 1%N => "1" | 2%N => "2" | 3%N => "3" | 4%N => "4"
  | 5%N => "5" | 6%N => "6" | 7%N => "7" | 8%N => "8" | 9%N => "9"
  | 10%N => "a" | 11%N => "b" | 12%N => "c" | 13%N => "d" | 14%N => "e"
  | _ => "f"
  end%char.

(** [digits] lowercase hexadecimal digits of [n], most significant first. *)
Fixpoint hex (digits : nat) (n : N) : string :=
  match digits with
  | O => ""
  | S d => (hex d (N.div n 16) ++ String (hex_digit (N.modulo n 16)) "")%string
  end.

Definition quote_for (has_single has_double : bool) : ascii :=
  if (has_single && negb has_double)%bool then ascii_of_nat 34 else ascii_of_nat 39.

Definition escape_code_point (quote : ascii) (wide : bool) (c : N) : string :=
  if (N.eqb c (N_of_ascii quote) || N.eqb c 92)%bool then
    String "\" (String (ascii_of_N c) "")
  else if (wide && N.leb 65536 c)%bool then ("\U" ++ hex 8 c)%string
  else if (wide && N.leb 256 c)%bool then ("\u" ++ hex 4 c)%string
  else if N.eqb c 9 then "\t"
  else if N.eqb c 10 then "\n"
  else if N.eqb c 13 then "\r"
  else if (N.ltb c 32 || N.leb 127 c)%bool then ("\x" ++ hex 2 c)%string
  else String (ascii_of_N c) "".

Definition code_points_of (s : string) : list N :=
  map N_of_ascii (list_ascii_of_string s).

Definition repr_code_points (wide : bool) (l : list N) : string :=
  let quote := quote_for (existsb (N.eqb 39) l) (existsb (N.eqb 34) l) in
  (String quote (String.concat "" (map (escape_code_point quote wide) l))
     ++ String quote "")%string.

Definition repr_text (t : text) : string :=
  match t with
  | PyStr s => repr_code_points false (code_points_of s)
  | PyUnicode l => ("u" ++ repr_code_points true l)%string
  end.

(** [isinstance(s, str)]. *)
Definition isinstance_str (t : text) : bool :=
  match t with PyStr _ => true | PyUnicode _ => false end.

End Py.


(** ** Facts about concatenation *)

Lemma append_nil_r (s : string) : (s ++ "")%string = s.
Proof. induction s; simpl; congruence. Qed.

Lemma append_assoc (a b c : string) :
  ((a ++ b) ++ c)%string = (a ++ (b ++ c))%string.
Proof. induction a; simpl; congruence. Qed.

Lemma join_cons (x : string) (l : list string) :
  Py.join (x :: l) = (x ++ Py.join l)%string.
Proof.
  unfold Py.join. destruct l; simpl; [symmetry; apply append_nil_r|reflexivity].
Qed.

Lemma join_app (l1 l2 : list string) :
  Py.join (l1 ++ l2) = (Py.join l1 ++ Py.join l2)%string.
Proof.
  induction l1 as [|x l1 IH]; [reflexivity|].
  rewrite <- app_comm_cons, !join_cons, IH. symmetry. apply append_assoc.
Qed.

Lemma join_snoc (l : list string) (x : string) :
  Py.join (l ++ [x]) = (Py.join l ++ x)%string.
Proof. rewrite join_app, join_cons. simpl. rewrite append_nil_r. reflexivity. Qed.

(* ================================================================== *)
(** * The tree: objects of the [ast] module *)
(* ================================================================== *)

(** The operator classes of [_OP_TO_STR] ([ast.Add], [ast.Sub], ...).  The
    classes [ast.And], [ast.Or], [ast.In] and [ast.Eq], [ast.Lt], [ast.Gt]
    carry a prefix here, as their names are taken in Rocq. *)
Inductive operator_class : Type :=
| Add | Sub | Mult | Div | Mod | Pow | LShift | RShift
| BitOr | BitXor | BitAnd | FloorDiv
| Invert | Not | UAdd | USub
| CmpEq | NotEq | CmpLt | LtE | CmpGt | GtE | Is | IsNot | CmpIn | NotIn
| BoolAnd | BoolOr.

(** The expression contexts ([ast.Load], [ast.Store], ...). *)
Inductive expr_context : Type :=
| Load | Store | Del | AugLoad | AugStore | Param.

#[local] Unset Elimination Schemes.

(** One constructor per class of object the visitor can be handed: the
    classes of Python 2.7's [ast] and the four helper classes at the end of
    the module.  A field holds a node, a list of nodes, an optional node or
    a terminal value, as the grammar of [ast] types it; the class of a child
    is not constrained, as Python does not constrain it.  The [ctx] field
    of [Attribute], [Subscript], [Name], [List] and [Tuple], and the
    [lineno] and [col_offset] attributes, which no method reads, are left
    out.

    [BinOp] and [IfExp] carry the identity of the object ([obj]), since
    [visit_BinOp] and [visit_IfExp] compare nodes by identity
    ([node == parent_node.left], [node is parent_node.test]): two nodes are
    the same object exactly when they carry the same [obj]. *)
Inductive AST : Type :=
(* mod *)
| Module (body : list AST)
| Interactive (body : list AST)
| Expression (body : AST)
| Suite (body : list AST)
(* stmt *)
| FunctionDef (name : string) (args : AST) (body : list AST)
    (decorator_list : list AST)
| ClassDef (name : string) (bases : list AST) (body : list AST)
    (decorator_list : list AST)
| Return (value : option AST)
| Delete (targets : list AST)
| Assign (targets : list AST) (value : AST)
| AugAssign (target : AST) (op : AST) (value : AST)
| Print (dest : option AST) (values : list AST) (nl : bool)
| For (target : AST) (iter : AST) (body : list AST) (orelse : list AST)
| While (test : AST) (body : list AST) (orelse : list AST)
| If (test : AST) (body : list AST) (orelse : list AST)
| With (context_expr : AST) (optional_vars : option AST) (body : list AST)
| Raise (type : option AST) (inst : option AST) (tback : option AST)
| TryExcept (body : list AST) (handlers : list AST) (orelse : list AST)
| TryFinally (body : list AST) (finalbody : list AST)
| Assert (test : AST) (msg : option AST)
| Import (names : list AST)
| ImportFrom (module : option string) (names : list AST) (level : option Z)
| Exec (body : AST) (globals : option AST) (locals : option AST)
| Global (names : list string)
| Expr (value : AST)
| Pass
| Break
| Continue
(* expr *)
| BoolOp (op : AST) (values : list AST)
| BinOp (obj : nat) (left : AST) (op : AST) (right : AST)
| UnaryOp (op : AST) (operand : AST)
| Lambda (args : AST) (body : AST)
| IfExp (obj : nat) (test : AST) (body : AST) (orelse : AST)
| Dict (keys : list AST) (values : list AST)
| Set_ (elts : list AST)
| ListComp (elt : AST) (generators : list AST)
| SetComp (elt : AST) (generators : list AST)
| DictComp (key : AST) (value : AST) (generators : list AST)
| GeneratorExp (elt : AST) (generators : list AST)
| Yield (value : option AST)
| Compare (left : AST) (ops : list AST) (comparators : list AST)
| Call (func : AST) (args : list AST) (keywords : list AST)
    (starargs : option AST) (kwargs : option AST)
| Repr (value : AST)
| Num (n : Py.number)
| Str (s : Py.text)
| Attribute (value : AST) (attr : string)
| Subscript (value : AST) (slice : AST)
| Name (id : string)
| List (elts : list AST)
| Tuple (elts : list AST)
(* expr_context *)
| Context (c : expr_context)
(* slice *)
| Ellipsis
| Slice (lower : option AST) (upper : option AST) (step : option AST)
| ExtSlice (dims : list AST)
| Index (value : AST)
(* boolop, operator, unaryop, cmpop *)
| Operator (o : operator_class)
(* others *)
| comprehension (target : AST) (iter : AST) (ifs : list AST)
| ExceptHandler (type : option AST) (name : option AST) (body : list AST)
| arguments (args : list AST) (vararg : option string)
    (kwarg : option string) (defaults : list AST)
| keyword (arg : string) (value : AST)
| alias (name : string) (asname : option string)
(* helper ast nodes to make decompilation easier *)
| KeyValuePair (key : AST) (value : AST)
| StarArg (arg : AST)
| DoubleStarArg (arg : AST)
| KeywordArg (arg : AST) (value : AST).

#[local] Set Elimination Schemes.

(** What [node_stack] holds: a node, or the instance of [_CallArgs] that
    [visit_Call] pushes while it writes the arguments. *)
Inductive entry : Type :=
| ENode (n : AST)
| CallArgs.

(** The exceptions the visitor can raise.  [RecursionLimit] is the model's
    counterpart of Python's bound on the depth of recursion. *)
Inductive exn : Type :=
| NotImplementedError (n : AST)
| KeyError
| AttributeError
| RecursionLimit.

(* ================================================================== *)
(** * The visitor's state *)
(* ================================================================== *)

(** The fields [Decompiler.__init__] sets, in its order. *)
Record Decompiler : Type := mkDecompiler {
  lines : list string;
  current_line : list string;
  current_indentation : Z;
  node_stack : list entry;
  indentation : Z;
  max_line_length : Z;
  has_unicode_literals : bool
}.

(** [Decompiler(indentation=indentation, line_length=line_length)]. *)
Definition Decompiler_init (indentation line_length : Z) : Decompiler :=
  {| lines := [];
     current_line := [];
     current_indentation := 0;
     node_stack := [];
     indentation := indentation;
     max_line_length := line_length;
     has_unicode_literals := false |}.

Definition set_lines (l : list string) (self : Decompiler) : Decompiler :=
  {| lines := l;
     current_line := current_line self;
     current_indentation := current_indentation self;
     node_stack := node_stack self;
     indentation := indentation self;
     max_line_length := max_line_length self;
     has_unicode_literals := has_unicode_literals self |}.

Definition set_current_line (l : list string) (self : Decompiler) : Decompiler :=
  {| lines := lines self;
     current_line := l;
     current_indentation := current_indentation self;
     node_stack := node_stack self;
     indentation := indentation self;
     max_line_length := max_line_length self;
     has_unicode_literals := has_unicode_literals self |}.

Definition set_current_indentation (i : Z) (self : Decompiler) : Decompiler :=
  {| lines := lines self;
     current_line := current_line self;
     current_indentation := i;
     node_stack := node_stack self;
     indentation := indentation self;
     max_line_length := max_line_length self;
     has_unicode_literals := has_unicode_literals self |}.

Definition set_node_stack (stack : list entry) (self : Decompiler) : Decompiler :=
  {| lines := lines self;
     current_line := current_line self;
     current_indentation := current_indentation self;
     node_stack := stack;
     indentation := indentation self;
     max_line_length := max_line_length self;
     has_unicode_literals := has_unicode_literals self |}.

Definition set_has_unicode_literals (b : bool) (self : Decompiler) : Decompiler :=
  {| lines := lines self;
     current_line := current_line self;
     current_indentation := current_indentation self;
     node_stack := node_stack self;
     indentation := indentation self;
     max_line_length := max_line_length self;
     has_unicode_literals := b |}.

(** ** The run: the decompiler and a record of what happened

    The methods run on a [Decompiler] object.  To state what holds "at
    every point" of a traversal, a run also keeps two ghost components that
    no method reads: [depth], the number of calls of [visit] that have not
    returned yet, and [log], one entry for each change of the ancestry
    stack, with the decompiler and the depth right after it. *)
Inductive event : Type :=
| Enter (n : AST)     (* [visit(n)] was called and has pushed [n] *)
| Leave               (* the [finally] clause of [visit] has popped *)
| EnterCallArgs       (* [visit_Call] has pushed its [_CallArgs()] *)
| LeaveCallArgs.      (* the [finally] clause of [visit_Call] has popped *)

Record point : Type := mkPoint {
  at_event : event;
  at_self : Decompiler;
  at_depth : nat
}.

Record state : Type := mkState {
  self : Decompiler;
  depth : nat;
  log : list point
}.

Definition init (indentation line_length : Z) : state :=
  {| self := Decompiler_init indentation line_length;
     depth := 0;
     log := [] |}.

(* ================================================================== *)
(** * The monad of the methods *)
(* ================================================================== *)

(** A method either returns a value or raises; both leave a state behind
    (a [finally] clause runs on the state an exception leaves). *)
Inductive result (A : Type) : Type :=
| Returns (a : A) (s : state)
| Raises (e : exn) (s : state).

Arguments Returns {A} a s.
Arguments Raises {A} e s.

Definition M (A : Type) : Type := state -> result A.

Definition ret {A : Type} (a : A) : M A := fun s => Returns a s.

Definition bind {A B : Type} (m : M A) (k : A -> M B) : M B :=
  fun s =>
    match m s with
    | Returns a s' => k a s'
    | Raises e s' => Raises e s'
    end.

Definition raise {A : Type} (e : exn) : M A := fun s => Raises e s.

(** Reading the decompiler and changing it. *)
Definition gets {A : Type} (f : Decompiler -> A) : M A :=
  fun s => Returns (f (self s)) s.

Definition update (f : Decompiler -> Decompiler) (s : state) : state :=
  {| self := f (self s); depth := depth s; log := log s |}.

(** A step that cannot fail. *)
Definition effect (f : state -> state) : M unit :=
  fun s => Returns tt (f s).

Definition modify (f : Decompiler -> Decompiler) : M unit :=
  effect (update f).

(** A change of the ancestry stack: the new stack, the new depth, and the
    entry of the log. *)
Definition record (ev : event) (stack : list entry) (d : nat) (s : state)
    : state :=
  let self' := set_node_stack stack (self s) in
  {| self := self';
     depth := d;
     log := log s ++ [mkPoint ev self' d] |}.

(** [try: m finally: f]: [f] runs whether [m] returns or raises. *)
Definition try_finally {A : Type} (m : M A) (f : state -> state) : M A :=
  fun s =>
    match m s with
    | Returns a s' => Returns a (f s')
    | Raises e s' => Raises e (f s')
    end.

(** An attribute that the object may lack. *)
Definition attribute {A : Type} (o : option A) : M A :=
  match o with
  | Some a => ret a
  | None => raise AttributeError
  end.

Declare Scope monad_scope.
Delimit Scope monad_scope with monad.
Notation "x <- m ;; k" := (bind m (fun x => k))
  (at level 61, m at next level, right associativity) : monad_scope.
Notation "m ;; k" := (bind m (fun _ => k))
  (at level 61, right associativity) : monad_scope.
Local Open Scope monad_scope.

(** [if b: m]. *)
Definition when (b : bool) (m : M unit) : M unit :=
  if b then m else ret tt.

(** [if o: f(o)] for an optional node [o]: a node is true, [None] is false. *)
Definition if_some {A : Type} (o : option A) (f : A -> M unit) : M unit :=
  match o with
  | Some a => f a
  | None => ret tt
  end.

(** [for x in l: f(x)]. *)
Fixpoint for_each {A : Type} (f : A -> M unit) (l : list A) : M unit :=
  match l with
  | [] => ret tt
  | x :: l' => f x ;; for_each f l'
  end.

(** The state a result leaves. *)
Definition state_of {A : Type} (r : result A) : state :=
  match r with
  | Returns _ s => s
  | Raises _ s => s
  end.

(* ================================================================== *)
(** * The tables *)
(* ================================================================== *)

(** [_OP_TO_STR]. *)
Definition OP_TO_STR (o : operator_class) : string :=
  match o with
  | Add => "+" | Sub => "-" | Mult => "*" | Div => "/" | Mod => "%"
  | Pow => "**" | LShift => "<<" | RShift => ">>"
  | BitOr => "|" | BitXor => "^" | BitAnd => "&" | FloorDiv => "//"
  | Invert => "~" | Not => "not " | UAdd => "+" | USub => "-"
  | CmpEq => "==" | NotEq => "!=" | CmpLt => "<" | LtE => "<="
  | CmpGt => ">" | GtE => ">=" | Is => "is" | IsNot => "is not"
  | CmpIn => "in" | NotIn => "not in"
  | BoolAnd => "and" | BoolOr => "or"
  end.

(** [_PRECEDENCE], keyed by the class of an object: [None] when the class
    is not a key of the table. *)
Definition PRECEDENCE (x : entry) : option Z :=
  match x with
  | CallArgs => Some (-1)
  | ENode (Operator BoolOr) => Some 0
  | ENode (Operator BoolAnd) => Some 1
  | ENode (Operator Not) => Some 2
  | ENode (Compare _ _ _) => Some 3
  | ENode (Operator BitOr) => Some 4
  | ENode (Operator BitXor) => Some 5
  | ENode (Operator BitAnd) => Some 6
  | ENode (Operator LShift) => Some 7
  | ENode (Operator RShift) => Some 7
  | ENode (Operator Add) => Some 8
  | ENode (Operator Sub) => Some 8
  | ENode (Operator Mult) => Some 9
  | ENode (Operator Div) => Some 9
  | ENode (Operator FloorDiv) => Some 9
  | ENode (Operator Mod) => Some 9
  | ENode (Operator UAdd) => Some 10
  | ENode (Operator USub) => Some 10
  | ENode (Operator Invert) => Some 10
  | ENode (Operator Pow) => Some 11
  | ENode (Subscript _ _) => Some 12
  | ENode (Call _ _ _ _ _) => Some 12
  | ENode (Attribute _ _) => Some 12
  | _ => None
  end.

(* ================================================================== *)
(** * Classes and identity of objects *)
(* ================================================================== *)

Definition is_BinOp (n : AST) : bool :=
  match n with BinOp _ _ _ _ => true | _ => false end.
Definition is_UnaryOp (n : AST) : bool :=
  match n with UnaryOp _ _ => true | _ => false end.
Definition is_BoolOp (n : AST) : bool :=
  match n with BoolOp _ _ => true | _ => false end.
Definition is_Compare (n : AST) : bool :=
  match n with Compare _ _ _ => true | _ => false end.
Definition is_IfExp (n : AST) : bool :=
  match n with IfExp _ _ _ _ => true | _ => false end.
Definition is_Attribute (n : AST) : bool :=
  match n with Attribute _ _ => true | _ => false end.
Definition is_Subscript (n : AST) : bool :=
  match n with Subscript _ _ => true | _ => false end.
Definition is_Call (n : AST) : bool :=
  match n with Call _ _ _ _ _ => true | _ => false end.
Definition is_Lambda (n : AST) : bool :=
  match n with Lambda _ _ => true | _ => false end.
Definition is_Expr (n : AST) : bool :=
  match n with Expr _ => true | _ => false end.
Definition is_Assign (n : AST) : bool :=
  match n with Assign _ _ => true | _ => false end.
Definition is_AugAssign (n : AST) : bool :=
  match n with AugAssign _ _ _ => true | _ => false end.
Definition is_Return (n : AST) : bool :=
  match n with Return _ => true | _ => false end.
Definition is_Yield (n : AST) : bool :=
  match n with Yield _ => true | _ => false end.
Definition is_Pow (n : AST) : bool :=
  match n with Operator Pow => true | _ => false end.
Definition is_And (n : AST) : bool :=
  match n with Operator BoolAnd => true | _ => false end.

(** [isinstance(x, classes)] for what [get_parent_node] returns: [None]
    and the instance of [_CallArgs] are of none of the [ast] classes. *)
Definition isinstance (x : option entry) (classes : list (AST -> bool)) : bool :=
  match x with
  | Some (ENode n) => existsb (fun is_class => is_class n) classes
  | _ => false
  end.

(** [a is b] (and [a == b], which is the same for these classes, as they
    define no [__eq__]) when [a] is a [BinOp] or an [IfExp]. *)
Definition same_object (a b : AST) : bool :=
  match a, b with
  | BinOp i _ _ _, BinOp j _ _ _ => Nat.eqb i j
  | IfExp i _ _ _, IfExp j _ _ _ => Nat.eqb i j
  | _, _ => false
  end.

(* ================================================================== *)
(** * The methods of [Decompiler] *)
(* ================================================================== *)

(** ** The ancestry stack *)

(** [self.node_stack.append(node)] on entry to [visit]. *)
Definition push_node (n : AST) (s : state) : state :=
  record (Enter n) (node_stack (self s) ++ [ENode n]) (S (depth s)) s.

(** [self.node_stack.pop()] in the [finally] clause of [visit]. *)
Definition pop_node (s : state) : state :=
  record Leave (removelast (node_stack (self s))) (pred (depth s)) s.

(** [self.node_stack.append(_CallArgs())] in [visit_Call]. *)
Definition push_CallArgs (s : state) : state :=
  record EnterCallArgs (node_stack (self s) ++ [CallArgs]) (depth s) s.

(** [self.node_stack.pop()] in the [finally] clause of [visit_Call]. *)
Definition pop_CallArgs (s : state) : state :=
  record LeaveCallArgs (removelast (node_stack (self s))) (depth s) s.

(** [self.node_stack[-2]], or [None] on [IndexError]. *)
Definition get_parent_node : M (option entry) :=
  gets (fun self => nth_error (rev (node_stack self)) 1).

Definition precedence_of_node (node : option entry) : M Z :=
  match node with
  | Some (ENode (BinOp _ _ op _))
  | Some (ENode (UnaryOp op _))
  | Some (ENode (BoolOp op _)) =>
      match PRECEDENCE (ENode op) with
      | Some p => ret p
      | None => raise KeyError
      end
  | Some x =>
      ret (match PRECEDENCE x with Some p => p | None => -1 end)
  | None => ret (-1)
  end.

(** ** Writing *)

Definition write (code : string) : M unit :=
  modify (fun self => set_current_line (current_line self ++ [code]) self).

Definition write_indentation : M unit :=
  indent <- gets current_indentation ;;
  write (Py.str_mul " " indent).

Definition write_newline : M unit :=
  modify (fun self =>
    let line := (Py.join (current_line self) ++ Py.newline)%string in
    set_current_line [] (set_lines (lines self ++ [line]) self)).

Definition current_line_length : M Z :=
  gets (fun self => Py.total_len (current_line self)).

(** [with self.add_indentation(): body]. *)
Definition add_indentation (body : M unit) : M unit :=
  modify (fun self =>
    set_current_indentation (current_indentation self + indentation self) self) ;;
  try_finally body (update (fun self =>
    set_current_indentation (current_indentation self - indentation self) self)).

(** [with self.parenthesize_if(condition): body]. *)
Definition parenthesize_if (condition : bool) (body : M unit) : M unit :=
  if condition then write "(" ;; body ;; write ")" else body.

(** ** Lists of expressions *)

(** The first loop of [write_expression_list]; it returns [true] when it
    was left by [break], [false] when it ran to its [else] clause. *)
Fixpoint write_inline (visit : AST -> M unit) (nodes : list AST)
    (first : bool) (separator : string) (allow_newlines : bool) : M bool :=
  match nodes with
  | [] => ret false
  | node :: rest =>
      (if first then ret tt else write separator) ;;
      visit node ;;
      len <- current_line_length ;;
      limit <- gets max_line_length ;;
      if (allow_newlines && (limit <? len))%bool then ret true
      else write_inline visit rest false separator allow_newlines
  end.

(** [del self.lines[last_line:]; self.current_line = current_line]. *)
Definition reset_state (last_line : nat) (current_line : list string)
    (self : Decompiler) : Decompiler :=
  set_current_line current_line (set_lines (firstn last_line (lines self)) self).

(** [enumerate(nodes)]. *)
Definition enumerate {A : Type} (l : list A) : list (nat * A) :=
  combine (seq 0 (List.length l)) l.

(** The rest of [write_expression_list], after the state was reset. *)
Definition write_multiline (visit : AST -> M unit) (nodes : list AST)
    (separator : string) (need_parens final_separator_if_multiline : bool)
    : M unit :=
  let separator := Py.rstrip separator in
  when need_parens (write "(") ;;
  write_newline ;;
  add_indentation (
    let num_nodes := List.length nodes in
    for_each (fun '(i, node) =>
      write_indentation ;;
      visit node ;;
      when (final_separator_if_multiline
            || (Z.of_nat i <? Z.of_nat num_nodes - 1))%bool
        (write separator) ;;
      write_newline) (enumerate nodes)) ;;
  write_indentation ;;
  when need_parens (write ")").

Definition write_expression_list (visit : AST -> M unit) (nodes : list AST)
    (separator : string) (allow_newlines need_parens
    final_separator_if_multiline : bool) : M unit :=
  last_line <- gets (fun self => List.length (lines self)) ;;
  current_line <- gets current_line ;;
  broke <- write_inline visit nodes true separator allow_newlines ;;
  if negb broke then ret tt (* stayed within the limit *)
  else
    modify (reset_state last_line current_line) ;;
    write_multiline visit nodes separator need_parens
      final_separator_if_multiline.

Definition write_suite (visit : AST -> M unit) (nodes : list AST) : M unit :=
  add_indentation (for_each visit nodes).

Definition write_else (visit : AST -> M unit) (orelse : list AST) : M unit :=
  match orelse with
  | [] => ret tt
  | _ =>
      write_indentation ;;
      write "else:" ;;
      write_newline ;;
      write_suite visit orelse
  end.

Definition generic_visit (node : AST) : M unit :=
  raise (NotImplementedError node).

(** ** Modules *)

Definition visit_Module (visit : AST -> M unit) (body : list AST) : M unit :=
  for_each visit body.

Definition visit_Interactive := visit_Module.

Definition visit_Expression (visit : AST -> M unit) (body : AST) : M unit :=
  visit body.

(** ** Multi-line statements *)

(** The decorator lines of a function or class definition. *)
Definition write_decorators (visit : AST -> M unit) (decorator_list : list AST)
    : M unit :=
  for_each (fun decorator =>
    write_indentation ;;
    write "@" ;;
    visit decorator ;;
    write_newline) decorator_list.

Definition visit_FunctionDef (visit : AST -> M unit) (name : string)
    (args : AST) (body decorator_list : list AST) : M unit :=
  write_newline ;;
  write_decorators visit decorator_list ;;
  write_indentation ;;
  write ("def " ++ name ++ "(")%string ;;
  visit args ;;
  write "):" ;;
  write_newline ;;
  write_suite visit body.

Definition visit_ClassDef (visit : AST -> M unit) (name : string)
    (bases body decorator_list : list AST) : M unit :=
  write_newline ;;
  write_newline ;;
  write_decorators visit decorator_list ;;
  write_indentation ;;
  write ("class " ++ name ++ "(")%string ;;
  write_expression_list visit bases ", " true false true ;;
  write "):" ;;
  write_newline ;;
  write_suite visit body.

Definition visit_For (visit : AST -> M unit) (target iter : AST)
    (body orelse : list AST) : M unit :=
  write_indentation ;;
  write "for " ;;
  visit target ;;
  write " in " ;;
  visit iter ;;
  write ":" ;;
  write_newline ;;
  write_suite visit body ;;
  write_else visit orelse.

Definition visit_While (visit : AST -> M unit) (test : AST)
    (body orelse : list AST) : M unit :=
  write_indentation ;;
  write "while " ;;
  visit test ;;
  write ":" ;;
  write_newline ;;
  write_suite visit body ;;
  write_else visit orelse.

(** The [while] loop of [visit_If] and the call of [write_else] after it;
    [node] is the value of the variable [node] on entry to the loop. *)
Fixpoint visit_If_orelse (visit : AST -> M unit) (node : AST) : M unit :=
  match node with
  | If _ _ orelse =>
      match orelse with
      | [If test body _ as node'] =>
          write_indentation ;;
          write "elif " ;;
          visit test ;;
          write ":" ;;
          write_newline ;;
          write_suite visit body ;;
          visit_If_orelse visit node'
      | _ => write_else visit orelse
      end
  | _ => ret tt
  end.

Definition visit_If (visit : AST -> M unit) (node test : AST)
    (body : list AST) : M unit :=
  write_indentation ;;
  write "if " ;;
  visit test ;;
  write ":" ;;
  write_newline ;;
  write_suite visit body ;;
  visit_If_orelse visit node.

(** The [while] loop of [visit_With]: the final values of [nodes] and
    [body]. *)
Fixpoint With_nodes (node : AST) : list AST * list AST :=
  match node with
  | With _ _ body =>
      match body with
      | [With _ _ _ as node'] =>
          let (nodes, body') := With_nodes node' in (node :: nodes, body')
      | _ => ([node], body)
      end
  | _ => ([node], [])
  end.

(** The [for] loop of [visit_With]. *)
Fixpoint With_items (visit : AST -> M unit) (nodes : list AST)
    (is_first : bool) : M unit :=
  match nodes with
  | [] => ret tt
  | context_node :: rest =>
      (if is_first then ret tt else write ", ") ;;
      match context_node with
      | With context_expr optional_vars _ =>
          visit context_expr ;;
          if_some optional_vars (fun v => write " as " ;; visit v)
      | _ => ret tt
      end ;;
      With_items visit rest false
  end.

Definition visit_With (visit : AST -> M unit) (node : AST) : M unit :=
  write_indentation ;;
  write "with " ;;
  let (nodes, body) := With_nodes node in
  With_items visit nodes true ;;
  write ":" ;;
  write_newline ;;
  write_suite visit body.

Definition visit_TryExcept (visit : AST -> M unit)
    (body handlers orelse : list AST) : M unit :=
  write_indentation ;;
  write "try:" ;;
  write_newline ;;
  write_suite visit body ;;
  for_each visit handlers ;;
  write_else visit orelse.

Definition visit_TryFinally (visit : AST -> M unit)
    (body finalbody : list AST) : M unit :=
  match body with
  | [TryExcept _ _ _ as inner] => visit inner
  | _ =>
      write_indentation ;;
      write "try:" ;;
      write_newline ;;
      write_suite visit body
  end ;;
  write_indentation ;;
  write "finally:" ;;
  write_newline ;;
  write_suite visit finalbody.

(** ** One-line statements *)

Definition visit_Return (visit : AST -> M unit) (value : option AST) : M unit :=
  write_indentation ;;
  write "return" ;;
  if_some value (fun v => write " " ;; visit v) ;;
  write_newline.

Definition visit_Delete (visit : AST -> M unit) (targets : list AST) : M unit :=
  write_indentation ;;
  write "del " ;;
  write_expression_list visit targets ", " true true true ;;
  write_newline.

Definition visit_Assign (visit : AST -> M unit) (targets : list AST)
    (value : AST) : M unit :=
  write_indentation ;;
  write_expression_list visit targets " = " true true true ;;
  write " = " ;;
  visit value ;;
  write_newline.

Definition visit_AugAssign (visit : AST -> M unit) (target op value : AST)
    : M unit :=
  write_indentation ;;
  visit target ;;
  write " " ;;
  visit op ;;
  write "= " ;;
  visit value ;;
  write_newline.

Definition nonempty {A : Type} (l : list A) : bool :=
  match l with [] => false | _ => true end.

Definition visit_Print (visit : AST -> M unit) (dest : option AST)
    (values : list AST) (nl : bool) : M unit :=
  write_indentation ;;
  write "print" ;;
  if_some dest (fun d =>
    write " >>" ;;
    visit d ;;
    when (nonempty values) (write ",")) ;;
  when (nonempty values) (write " ") ;;
  write_expression_list visit values ", " false true true ;;
  when (negb nl) (write ",") ;;
  write_newline.

(** [[child for child in (a, b, c) if child]]. *)
Definition present (children : list (option AST)) : list AST :=
  flat_map (fun child => match child with Some c => [c] | None => [] end)
    children.

Definition visit_Raise (visit : AST -> M unit) (type inst tback : option AST)
    : M unit :=
  write_indentation ;;
  write "raise" ;;
  let expressions := present [type; inst; tback] in
  when (nonempty expressions) (
    write " " ;;
    write_expression_list visit expressions ", " false true true) ;;
  write_newline.

Definition visit_Assert (visit : AST -> M unit) (test : AST)
    (msg : option AST) : M unit :=
  write_indentation ;;
  write "assert " ;;
  visit test ;;
  if_some msg (fun m => write ", " ;; visit m) ;;
  write_newline.

Definition visit_Import (visit : AST -> M unit) (names : list AST) : M unit :=
  write_indentation ;;
  write "import " ;;
  write_expression_list visit names ", " true true true ;;
  write_newline.

Definition module_equals (module : option string) (s : string) : bool :=
  match module with
  | Some m => String.eqb m s
  | None => false
  end.

(** [alias.name == s], for whatever object stands in [node.names]: the
    classes with a [name] attribute are [alias], [FunctionDef], [ClassDef]
    and [ExceptHandler] (whose [name] is a node or [None], never a
    string). *)
Definition name_equals (a : AST) (s : string) : option bool :=
  match a with
  | alias name _ => Some (String.eqb name s)
  | FunctionDef name _ _ _ => Some (String.eqb name s)
  | ClassDef name _ _ _ => Some (String.eqb name s)
  | ExceptHandler _ _ _ => Some false
  | _ => None
  end.

(** [any(alias.name == s for alias in names)]; [None] when an object
    without a [name] is reached before the answer is known. *)
Fixpoint any_name_equals (names : list AST) (s : string) : option bool :=
  match names with
  | [] => Some false
  | a :: rest =>
      match name_equals a s with
      | Some true => Some true
      | Some false => any_name_equals rest s
      | None => None
      end
  end.

(** The condition of [visit_ImportFrom]:
    [node.module == '__future__' and any(...)]. *)
Definition requests_unicode_literals (module : option string)
    (names : list AST) : option bool :=
  if module_equals module "__future__"
  then any_name_equals names "unicode_literals"
  else Some false.

Definition visit_ImportFrom (visit : AST -> M unit) (module : option string)
    (names : list AST) (level : option Z) : M unit :=
  requested <- attribute (requests_unicode_literals module names) ;;
  when requested (modify (set_has_unicode_literals true)) ;;
  write_indentation ;;
  write ("from " ++ Py.str_mul "." (match level with Some l => l | None => 0 end))%string ;;
  when (Py.truthy_opt_str module)
    (write (match module with Some m => m | None => EmptyString end)) ;;
  write " import " ;;
  write_expression_list visit names ", " true true true ;;
  write_newline.

Definition visit_Exec (visit : AST -> M unit) (body : AST)
    (globals locals : option AST) : M unit :=
  write_indentation ;;
  write "exec " ;;
  visit body ;;
  if_some globals (fun g => write " in " ;; visit g) ;;
  if_some locals (fun l => write ", " ;; visit l) ;;
  write_newline.

Definition visit_Global (visit : AST -> M unit) (names : list string) : M unit :=
  write_indentation ;;
  write "global " ;;
  write_expression_list visit (map Name names) ", " true true true ;;
  write_newline.

Definition visit_Expr (visit : AST -> M unit) (value : AST) : M unit :=
  write_indentation ;;
  visit value ;;
  write_newline.

Definition visit_Pass : M unit :=
  write_indentation ;; write "pass" ;; write_newline.

Definition visit_Break : M unit :=
  write_indentation ;; write "break" ;; write_newline.

Definition visit_Continue : M unit :=
  write_indentation ;; write "continue" ;; write_newline.

(** ** Expressions *)

Definition visit_BoolOp (visit : AST -> M unit) (node op : AST)
    (values : list AST) : M unit :=
  my_prec <- precedence_of_node (Some (ENode node)) ;;
  parent_node <- get_parent_node ;;
  parent_prec <- precedence_of_node parent_node ;;
  parenthesize_if (my_prec <=? parent_prec) (
    let op := if is_And op then "and" else "or" in
    write_expression_list visit values (" " ++ op ++ " ")%string
      true true false).

(** [parent_node.left]: [BinOp] and [Compare] have the attribute. *)
Definition getattr_left (x : option entry) : option AST :=
  match x with
  | Some (ENode (BinOp _ l _ _)) => Some l
  | Some (ENode (Compare l _ _)) => Some l
  | _ => None
  end.

(** [parent_node.right]: only [BinOp] has the attribute. *)
Definition getattr_right (x : option entry) : option AST :=
  match x with
  | Some (ENode (BinOp _ _ _ r)) => Some r
  | _ => None
  end.

(** The decision [visit_BinOp] takes before it writes. *)
Definition BinOp_should_parenthesize (node op : AST) : M bool :=
  parent_node <- get_parent_node ;;
  my_prec <- precedence_of_node (Some (ENode node)) ;;
  parent_prec <- precedence_of_node parent_node ;;
  if my_prec <? parent_prec then ret true
  else if my_prec =? parent_prec then
    if is_Pow op then
      parent_left <- attribute (getattr_left parent_node) ;;
      ret (same_object node parent_left)
    else
      parent_right <- attribute (getattr_right parent_node) ;;
      ret (same_object node parent_right)
  else ret false.

(** The body of the [with] block of [visit_BinOp]: the expression without
    parentheses of its own. *)
Definition BinOp_code (visit : AST -> M unit) (left op right : AST) : M unit :=
  visit left ;;
  write " " ;;
  visit op ;;
  write " " ;;
  visit right.

Definition visit_BinOp (visit : AST -> M unit) (node left op right : AST)
    : M unit :=
  should_parenthesize <- BinOp_should_parenthesize node op ;;
  parenthesize_if should_parenthesize (BinOp_code visit left op right).

Definition visit_UnaryOp (visit : AST -> M unit) (node op operand : AST)
    : M unit :=
  my_prec <- precedence_of_node (Some (ENode node)) ;;
  parent_node <- get_parent_node ;;
  parent_prec <- precedence_of_node parent_node ;;
  parenthesize_if (my_prec <? parent_prec) (
    visit op ;;
    visit operand).

(** [node.args.args or node.args.vararg or node.args.kwarg], for whatever
    object stands in [node.args]: [arguments] has the three attributes;
    [Call] has [args] only, and a [Call] with no positional argument fails
    on [vararg]; the [args] of a [Lambda] or of a [FunctionDef] is an
    object, which is true. *)
Definition Lambda_has_arguments (args : AST) : option bool :=
  match args with
  | arguments a vararg kwarg _ =>
      Some (nonempty a || Py.truthy_opt_str vararg || Py.truthy_opt_str kwarg)%bool
  | Call _ (_ :: _) _ _ _ => Some true
  | Lambda _ _ | FunctionDef _ _ _ _ => Some true
  | _ => None
  end.

(** The body of the [with] block of [visit_Lambda]. *)
Definition Lambda_code (visit : AST -> M unit) (args body : AST) : M unit :=
  write "lambda" ;;
  has_arguments <- attribute (Lambda_has_arguments args) ;;
  when has_arguments (write " ") ;;
  visit args ;;
  write ": " ;;
  visit body.

(** The decision [visit_Lambda] takes before it writes. *)
Definition Lambda_should_parenthesize (parent_node : option entry) : bool :=
  isinstance parent_node
    [is_BinOp; is_UnaryOp; is_Compare; is_IfExp; is_Attribute;
     is_Subscript; is_Call].

Definition visit_Lambda (visit : AST -> M unit) (args body : AST) : M unit :=
  parent_node <- get_parent_node ;;
  let should_parenthesize := Lambda_should_parenthesize parent_node in
  parenthesize_if should_parenthesize (Lambda_code visit args body).

(** The decision [visit_IfExp] takes before it writes. *)
Definition IfExp_should_parenthesize (node : AST) (parent_node : option entry)
    : bool :=
  if isinstance parent_node
       [is_BinOp; is_UnaryOp; is_Compare; is_Attribute; is_Subscript; is_Call]
  then true
  else
    match parent_node with
    | Some (ENode (IfExp _ test body _)) =>
        (same_object node test || same_object node body)%bool
    | _ => false
    end.

(** The body of the [with] block of [visit_IfExp]. *)
Definition IfExp_code (visit : AST -> M unit) (test body orelse : AST) : M unit :=
  visit body ;;
  write " if " ;;
  visit test ;;
  write " else " ;;
  visit orelse.

Definition visit_IfExp (visit : AST -> M unit) (node test body orelse : AST)
    : M unit :=
  parent_node <- get_parent_node ;;
  parenthesize_if (IfExp_should_parenthesize node parent_node)
    (IfExp_code visit test body orelse).

(** [[KeyValuePair(key, value) for key, value in zip(keys, values)]]. *)
Definition Dict_items (keys values : list AST) : list AST :=
  map (fun '(key, value) => KeyValuePair key value) (combine keys values).

Definition visit_Dict (visit : AST -> M unit) (keys values : list AST) : M unit :=
  write "{" ;;
  write_expression_list visit (Dict_items keys values) ", " true false true ;;
  write "}".

Definition visit_KeyValuePair (visit : AST -> M unit) (key value : AST)
    : M unit :=
  visit key ;;
  write ": " ;;
  visit value.

Definition visit_Set (visit : AST -> M unit) (elts : list AST) : M unit :=
  write "{" ;;
  write_expression_list visit elts ", " true false true ;;
  write "}".

Definition visit_comp (visit : AST -> M unit) (elt : AST)
    (generators : list AST) (start end_ : string) : M unit :=
  write start ;;
  write_expression_list visit ([elt] ++ generators) " " true false true ;;
  write end_.

Definition visit_ListComp (visit : AST -> M unit) (elt : AST)
    (generators : list AST) : M unit :=
  visit_comp visit elt generators "[" "]".

Definition visit_SetComp (visit : AST -> M unit) (elt : AST)
    (generators : list AST) : M unit :=
  visit_comp visit elt generators "{" "}".

Definition visit_DictComp (visit : AST -> M unit) (key value : AST)
    (generators : list AST) : M unit :=
  write "{" ;;
  let elts := [KeyValuePair key value] ++ generators in
  write_expression_list visit elts " " true false true ;;
  write "}".

Definition visit_GeneratorExp (visit : AST -> M unit) (elt : AST)
    (generators : list AST) : M unit :=
  visit_comp visit elt generators "(" ")".

Definition visit_Yield (visit : AST -> M unit) (value : option AST) : M unit :=
  parent_node <- get_parent_node ;;
  parenthesize_if
    (negb (isinstance parent_node [is_Expr; is_Assign; is_AugAssign])) (
    write "yield" ;;
    if_some value (fun v => write " " ;; visit v)).

Definition visit_Compare (visit : AST -> M unit) (node left : AST)
    (ops comparators : list AST) : M unit :=
  my_prec <- precedence_of_node (Some (ENode node)) ;;
  parent_node <- get_parent_node ;;
  parent_prec <- precedence_of_node parent_node ;;
  parenthesize_if (my_prec <=? parent_prec) (
    visit left ;;
    for_each (fun '(op, expr) =>
      write " " ;;
      visit op ;;
      write " " ;;
      visit expr) (combine ops comparators)).

(** The list [args] that [visit_Call] builds. *)
Definition Call_args (args keywords : list AST) (starargs kwargs : option AST)
    : list AST :=
  args ++ keywords
    ++ match starargs with Some a => [StarArg a] | None => [] end
    ++ match kwargs with Some a => [DoubleStarArg a] | None => [] end.

Definition visit_Call (visit : AST -> M unit) (func : AST)
    (args keywords : list AST) (starargs kwargs : option AST) : M unit :=
  visit func ;;
  write "(" ;;
  effect push_CallArgs ;;
  try_finally (
    let args := Call_args args keywords starargs kwargs in
    when (nonempty args)
      (write_expression_list visit args ", " true false false) ;;
    write ")") pop_CallArgs.

Definition visit_StarArg (visit : AST -> M unit) (arg : AST) : M unit :=
  write "*" ;;
  visit arg.

Definition visit_DoubleStarArg (visit : AST -> M unit) (arg : AST) : M unit :=
  write "**" ;;
  visit arg.

Definition visit_KeywordArg (visit : AST -> M unit) (arg value : AST) : M unit :=
  visit arg ;;
  write "=" ;;
  visit value.

Definition visit_Repr (visit : AST -> M unit) (value : AST) : M unit :=
  write "`" ;;
  visit value ;;
  write "`".

Definition visit_Num (n : Py.number) : M unit :=
  write (Py.repr_number n).

Definition visit_Str (s : Py.text) : M unit :=
  has_unicode_literals <- gets has_unicode_literals ;;
  when (has_unicode_literals && Py.isinstance_str s)%bool (write "b") ;;
  write (Py.repr_text s).

Definition visit_Attribute (visit : AST -> M unit) (value : AST)
    (attr : string) : M unit :=
  visit value ;;
  write ("." ++ attr)%string.

Definition visit_Subscript (visit : AST -> M unit) (value slice : AST) : M unit :=
  visit value ;;
  write "[" ;;
  visit slice ;;
  write "]".

Definition visit_Name (id : string) : M unit :=
  write id.

Definition visit_List (visit : AST -> M unit) (elts : list AST) : M unit :=
  write "[" ;;
  write_expression_list visit elts ", " true false true ;;
  write "]".

Definition visit_Tuple (visit : AST -> M unit) (elts : list AST) : M unit :=
  match elts with
  | [] => write "()"
  | _ =>
      parent_node <- get_parent_node ;;
      let should_parenthesize :=
        negb (isinstance parent_node
                [is_Expr; is_Assign; is_AugAssign; is_Return; is_Yield]) in
      parenthesize_if should_parenthesize (
        match elts with
        | [elt] => visit elt ;; write ","
        | _ =>
            write_expression_list visit elts ", " true
              (negb should_parenthesize) true
        end)
  end.

(** ** Slices *)

Definition visit_Ellipsis : M unit :=
  write "Ellipsis".

Definition visit_Slice (visit : AST -> M unit) (lower upper step : option AST)
    : M unit :=
  if_some lower visit ;;
  write ":" ;;
  if_some upper visit ;;
  if_some step (fun s => write ":" ;; visit s).

Definition visit_ExtSlice (visit : AST -> M unit) (dims : list AST) : M unit :=
  write_expression_list visit dims ", " true false true.

Definition visit_Index (visit : AST -> M unit) (value : AST) : M unit :=
  visit value.

(** ** Operators and contexts *)

(** The methods generated from [_OP_TO_STR]. *)
Definition visit_Operator (o : operator_class) : M unit :=
  write (OP_TO_STR o).

(** [visit_Load = visit_Store = ... = lambda self, node: None]. *)
Definition visit_Context (c : expr_context) : M unit :=
  ret tt.

(** ** Other types *)

Definition visit_comprehension (visit : AST -> M unit) (target iter : AST)
    (ifs : list AST) : M unit :=
  write "for " ;;
  visit target ;;
  write " in " ;;
  visit iter ;;
  for_each (fun expr => write " if " ;; visit expr) ifs.

Definition visit_ExceptHandler (visit : AST -> M unit) (type name : option AST)
    (body : list AST) : M unit :=
  write_indentation ;;
  write "except" ;;
  if_some type (fun t =>
    write " " ;;
    visit t ;;
    if_some name (fun n => write " as " ;; visit n)) ;;
  write ":" ;;
  write_newline ;;
  write_suite visit body.

(** The list [args] that [visit_arguments] builds. *)
Definition arguments_args (args : list AST) (vararg kwarg : option string)
    (defaults : list AST) : list AST :=
  let num_defaults := List.length defaults in
  let plain :=
    if nonempty defaults
    then firstn (List.length args - num_defaults) args
    else args in
  let default_args :=
    if nonempty defaults
    then combine (skipn (List.length args - num_defaults) args) defaults
    else [] in
  plain
    ++ map (fun '(name, value) => KeywordArg name value) default_args
    ++ (if Py.truthy_opt_str vararg
        then [StarArg (Name (match vararg with Some v => v | None => EmptyString end))]
        else [])
    ++ (if Py.truthy_opt_str kwarg
        then [DoubleStarArg (Name (match kwarg with Some v => v | None => EmptyString end))]
        else []).

Definition visit_arguments (visit : AST -> M unit) (args : list AST)
    (vararg kwarg : option string) (defaults : list AST) : M unit :=
  let args := arguments_args args vararg kwarg defaults in
  when (nonempty args) (
    (* lambdas can't have a multiline arglist *)
    parent_node <- get_parent_node ;;
    let allow_newlines := negb (isinstance parent_node [is_Lambda]) in
    write_expression_list visit args ", " allow_newlines false false).

Definition visit_keyword (visit : AST -> M unit) (arg : string) (value : AST)
    : M unit :=
  write (arg ++ "=")%string ;;
  visit value.

Definition visit_alias (name : string) (asname : option string) : M unit :=
  write name ;;
  match asname with
  | Some a => write (" as " ++ a)%string
  | None => ret tt
  end.

(* ================================================================== *)
(** * Dispatch, [visit] and [decompile] *)
(* ================================================================== *)

(** [ast.NodeVisitor.visit]: the method [visit_<class name>] when the
    visitor has one, [generic_visit] otherwise.  The classes without a
    method are [Suite] and the helper class [_CallArgs] (which is no
    [AST]). *)
Definition NodeVisitor_visit (visit : AST -> M unit) (node : AST) : M unit :=
  match node with
  | Module body => visit_Module visit body
  | Interactive body => visit_Interactive visit body
  | Expression body => visit_Expression visit body
  | Suite _ => generic_visit node
  | FunctionDef name args body decorator_list =>
      visit_FunctionDef visit name args body decorator_list
  | ClassDef name bases body decorator_list =>
      visit_ClassDef visit name bases body decorator_list
  | Return value => visit_Return visit value
  | Delete targets => visit_Delete visit targets
  | Assign targets value => visit_Assign visit targets value
  | AugAssign target op value => visit_AugAssign visit target op value
  | Print dest values nl => visit_Print visit dest values nl
  | For target iter body orelse => visit_For visit target iter body orelse
  | While test body orelse => visit_While visit test body orelse
  | If test body _ => visit_If visit node test body
  | With _ _ _ => visit_With visit node
  | Raise type inst tback => visit_Raise visit type inst tback
  | TryExcept body handlers orelse => visit_TryExcept visit body handlers orelse
  | TryFinally body finalbody => visit_TryFinally visit body finalbody
  | Assert test msg => visit_Assert visit test msg
  | Import names => visit_Import visit names
  | ImportFrom module names level => visit_ImportFrom visit module names level
  | Exec body globals locals => visit_Exec visit body globals locals
  | Global names => visit_Global visit names
  | Expr value => visit_Expr visit value
  | Pass => visit_Pass
  | Break => visit_Break
  | Continue => visit_Continue
  | BoolOp op values => visit_BoolOp visit node op values
  | BinOp _ l op r => visit_BinOp visit node l op r
  | UnaryOp op operand => visit_UnaryOp visit node op operand
  | Lambda args body => visit_Lambda visit args body
  | IfExp _ test body orelse => visit_IfExp visit node test body orelse
  | Dict keys values => visit_Dict visit keys values
  | Set_ elts => visit_Set visit elts
  | ListComp elt generators => visit_ListComp visit elt generators
  | SetComp elt generators => visit_SetComp visit elt generators
  | DictComp key value generators => visit_DictComp visit key value generators
  | GeneratorExp elt generators => visit_GeneratorExp visit elt generators
  | Yield value => visit_Yield visit value
  | Compare l ops comparators => visit_Compare visit node l ops comparators
  | Call func args keywords starargs kwargs =>
      visit_Call visit func args keywords starargs kwargs
  | Repr value => visit_Repr visit value
  | Num n => visit_Num n
  | Str s => visit_Str s
  | Attribute value attr => visit_Attribute visit value attr
  | Subscript value slice => visit_Subscript visit value slice
  | Name id => visit_Name id
  | List elts => visit_List visit elts
  | Tuple elts => visit_Tuple visit elts
  | Context c => visit_Context c
  | Ellipsis => visit_Ellipsis
  | Slice lower upper step => visit_Slice visit lower upper step
  | ExtSlice dims => visit_ExtSlice visit dims
  | Index value => visit_Index visit value
  | Operator o => visit_Operator o
  | comprehension target iter ifs => visit_comprehension visit target iter ifs
  | ExceptHandler type name body => visit_ExceptHandler visit type name body
  | arguments args vararg kwarg defaults =>
      visit_arguments visit args vararg kwarg defaults
  | keyword arg value => visit_keyword visit arg value
  | alias name asname => visit_alias name asname
  | KeyValuePair key value => visit_KeyValuePair visit key value
  | StarArg arg => visit_StarArg visit arg
  | DoubleStarArg arg => visit_DoubleStarArg visit arg
  | KeywordArg arg value => visit_KeywordArg visit arg value
  end.

(** The classes [NodeVisitor_visit] finds a method for. *)
Definition supported (node : AST) : bool :=
  match node with
  | Suite _ => false
  | _ => true
  end.

(** [Decompiler.visit]: push the node, dispatch, pop in the [finally]
    clause.  [fuel] bounds the depth of the recursion; a call with no fuel
    left raises [RecursionLimit]. *)
Fixpoint visit (fuel : nat) (node : AST) : M unit :=
  match fuel with
  | O => raise RecursionLimit
  | S fuel' =>
      effect (push_node node) ;;
      try_finally (NodeVisitor_visit (visit fuel') node) pop_node
  end.

(** [decompile(ast, indentation, line_length)] with a bound on the depth
    of recursion: the text, or the exception. *)
Definition decompile_within (fuel : nat) (ast : AST)
    (indentation line_length : Z) : string + exn :=
  match visit fuel ast (init indentation line_length) with
  | Returns _ s => inl (Py.join (lines (self s)))
  | Raises e _ => inr e
  end.

(** ** The height of a tree and the nodes a method visits *)

Definition max_list (l : list nat) : nat := fold_right Nat.max 0%nat l.

Definition opt_height (height : AST -> nat) (o : option AST) : nat :=
  match o with Some n => height n | None => 0%nat end.

(** The number of nested calls of [visit] that a node can need: one more
    than its children need, and one or two more than that when its method
    wraps a child in a helper node before it visits it. *)
Fixpoint height (node : AST) : nat :=
  let hs := fun l => max_list (map height l) in
  let ho := opt_height height in
  match node with
  | Module body | Interactive body | Suite body => S (hs body)
  | Expression body => S (height body)
  | FunctionDef _ args body decorator_list =>
      S (max_list [height args; hs body; hs decorator_list])
  | ClassDef _ bases body decorator_list =>
      S (max_list [hs bases; hs body; hs decorator_list])
  | Return value | Yield value => S (ho value)
  | Delete l | Import l | Set_ l | List l | Tuple l | ExtSlice l => S (hs l)
  | Assign targets value => S (max_list [hs targets; height value])
  | AugAssign a b c | IfExp _ a b c => S (max_list [height a; height b; height c])
  | BinOp _ a b c => S (max_list [height a; height b; height c])
  | Print dest values _ => S (max_list [ho dest; hs values])
  | For target iter body orelse =>
      S (max_list [height target; height iter; hs body; hs orelse])
  | While test body orelse | If test body orelse =>
      S (max_list [height test; hs body; hs orelse])
  | With context_expr optional_vars body =>
      S (max_list [height context_expr; ho optional_vars; hs body])
  | Raise a b c | Slice a b c => S (max_list [ho a; ho b; ho c])
  | TryExcept body handlers orelse =>
      S (max_list [hs body; hs handlers; hs orelse])
  | TryFinally body finalbody => S (max_list [hs body; hs finalbody])
  | Assert test msg => S (max_list [height test; ho msg])
  | ImportFrom _ names _ => S (hs names)
  | Exec body globals locals => S (max_list [height body; ho globals; ho locals])
  | Global _ => 2
  | Expr a | Repr a | Attribute a _ | Index a | keyword _ a | StarArg a
  | DoubleStarArg a => S (height a)
  | Pass | Break | Continue | Num _ | Str _ | Name _ | Context _ | Ellipsis
  | Operator _ | alias _ _ => 1
  | BoolOp op values => S (max_list [height op; hs values])
  | UnaryOp a b | Lambda a b | Subscript a b | KeyValuePair a b
  | KeywordArg a b => S (max_list [height a; height b])
  | Dict keys values => S (S (max_list [hs keys; hs values]))
  | ListComp elt generators | SetComp elt generators
  | GeneratorExp elt generators => S (max_list [height elt; hs generators])
  | DictComp key value generators =>
      S (S (max_list [height key; height value; hs generators]))
  | Compare l ops comparators =>
      S (max_list [height l; hs ops; hs comparators])
  | Call func args keywords starargs kwargs =>
      S (S (max_list [height func; hs args; hs keywords; ho starargs; ho kwargs]))
  | comprehension target iter ifs =>
      S (max_list [height target; height iter; hs ifs])
  | ExceptHandler type name body => S (max_list [ho type; ho name; hs body])
  | arguments args _ _ defaults => S (S (S (max_list [hs args; hs defaults])))
  end%nat.

(** [decompile(ast, indentation=4, line_length=100)]: the recursion is
    given the depth the tree needs ([decompile_total] below shows that it
    is never short of it, and [decompile_within_enough] that more changes
    nothing). *)
Definition decompile (ast : AST) (indentation line_length : Z) : string + exn :=
  decompile_within (height ast) ast indentation line_length.

(** The nodes that the [while] loop of [visit_If] and [write_else] visit. *)
Fixpoint If_orelse_callees (node : AST) : list AST :=
  match node with
  | If _ _ orelse =>
      match orelse with
      | [If test body _ as node'] => test :: body ++ If_orelse_callees node'
      | _ => orelse
      end
  | _ => []
  end.

(** The nodes that the [for] loop of [visit_With] visits. *)
Definition With_items_callees (nodes : list AST) : list AST :=
  flat_map (fun context_node =>
    match context_node with
    | With context_expr optional_vars _ => context_expr :: present [optional_vars]
    | _ => []
    end) nodes.

(** The nodes on which the method of [node] calls [visit]. *)
Definition callees (node : AST) : list AST :=
  match node with
  | Module body | Interactive body => body
  | Suite _ => []
  | Expression body => [body]
  | FunctionDef _ args body decorator_list => decorator_list ++ [args] ++ body
  | ClassDef _ bases body decorator_list => decorator_list ++ bases ++ body
  | Return value | Yield value => present [value]
  | Delete l | Import l | Set_ l | List l | Tuple l | ExtSlice l => l
  | Assign targets value => targets ++ [value]
  | AugAssign a b c => [a; b; c]
  | BinOp _ a b c => [a; b; c]
  | IfExp _ test body orelse => [body; test; orelse]
  | Print dest values _ => present [dest] ++ values
  | For target iter body orelse => [target; iter] ++ body ++ orelse
  | While test body orelse => [test] ++ body ++ orelse
  | If test body _ => [test] ++ body ++ If_orelse_callees node
  | With _ _ _ =>
      let (nodes, body) := With_nodes node in With_items_callees nodes ++ body
  | Raise a b c | Slice a b c => present [a; b; c]
  | TryExcept body handlers orelse => body ++ handlers ++ orelse
  | TryFinally body finalbody =>
      match body with
      | [TryExcept _ _ _ as inner] => [inner]
      | _ => body
      end ++ finalbody
  | Assert test msg => test :: present [msg]
  | ImportFrom _ names _ => names
  | Exec body globals locals => body :: present [globals; locals]
  | Global names => map Name names
  | Expr a | Repr a | Attribute a _ | Index a | keyword _ a | StarArg a
  | DoubleStarArg a => [a]
  | Pass | Break | Continue | Num _ | Str _ | Name _ | Context _ | Ellipsis
  | Operator _ | alias _ _ => []
  | BoolOp _ values => values
  | UnaryOp a b | Lambda a b | Subscript a b | KeyValuePair a b
  | KeywordArg a b => [a; b]
  | Dict keys values => Dict_items keys values
  | ListComp elt generators | SetComp elt generators
  | GeneratorExp elt generators => [elt] ++ generators
  | DictComp key value generators => [KeyValuePair key value] ++ generators
  | Compare l ops comparators =>
      l :: flat_map (fun '(op, expr) => [op; expr]) (combine ops comparators)
  | Call func args keywords starargs kwargs =>
      func :: Call_args args keywords starargs kwargs
  | comprehension target iter ifs => [target; iter] ++ ifs
  | ExceptHandler type name body =>
      match type with Some t => t :: present [name] | None => [] end ++ body
  | arguments args vararg kwarg defaults =>
      arguments_args args vararg kwarg defaults
  end.

(** ** The callees of a node are lower than the node *)

Lemma max_list_in (x : nat) (l : list nat) : In x l -> (x <= max_list l)%nat.
Proof.
  induction l as [|y l IH]; simpl; [tauto|].
  intros [->|H]; [lia | specialize (IH H); lia].
Qed.

Lemma height_in (x : AST) (l : list AST) :
  In x l -> (height x <= max_list (map height l))%nat.
Proof. intro H. apply max_list_in, in_map, H. Qed.

Lemma height_pos (node : AST) : (1 <= height node)%nat.
Proof. destruct node; simpl; lia. Qed.

Lemma height_If_orelse (test : AST) (body orelse : list AST) (x : AST) :
  In x orelse -> (height x < height (If test body orelse))%nat.
Proof. intro H. apply height_in in H. simpl. lia. Qed.

Lemma height_With_body (context_expr : AST) (optional_vars : option AST)
    (body : list AST) (x : AST) :
  In x body -> (height x < height (With context_expr optional_vars body))%nat.
Proof. intro H. apply height_in in H. simpl. lia. Qed.

Lemma height_If_orelse_callees (h : nat) :
  forall node x,
    (height node <= h)%nat ->
    In x (If_orelse_callees node) -> (height x < height node)%nat.
Proof.
  induction h as [|h IH]; intros node x Hh Hx.
  - pose proof (height_pos node). lia.
  - destruct node; try contradiction.
    cbn [If_orelse_callees] in Hx.
    assert (Hd : forall y, In y orelse ->
                   (height y < height (If node body orelse))%nat)
      by (intros y Hy; eapply height_If_orelse, Hy).
    destruct orelse as [|n' tl]; [apply Hd, Hx|].
    pose proof (Hd n' (or_introl eq_refl)) as Hn.
    destruct n', tl; try (apply Hd, Hx).
    destruct Hx as [<-|Hx].
    + simpl in Hn |- *. lia.
    + apply in_app_iff in Hx. destruct Hx as [Hx|Hx].
      * apply height_in in Hx. simpl in Hn |- *. lia.
      * apply IH in Hx; [lia|lia].
Qed.

Lemma height_With_nodes (h : nat) :
  forall node x,
    (height node <= h)%nat ->
    In x (With_items_callees (fst (With_nodes node)) ++ snd (With_nodes node)) ->
    (height x < height node)%nat.
Proof.
  induction h as [|h IH]; intros node x Hh Hx.
  - pose proof (height_pos node). lia.
  - destruct node; try (simpl in Hx; tauto).
    cbn [With_nodes] in Hx.
    assert (Hd : forall y,
               In y (With_items_callees [With node optional_vars body] ++ body) ->
               (height y < height (With node optional_vars body))%nat).
    { intros y Hy. apply in_app_iff in Hy. destruct Hy as [Hy|Hy].
      - simpl in Hy. rewrite app_nil_r in Hy.
        destruct Hy as [<-|Hy]; [simpl; lia|].
        destruct optional_vars; simpl in Hy; [|tauto].
        destruct Hy as [<-|[]]. simpl. lia.
      - eapply height_With_body, Hy. }
    destruct body as [|n' tl]; [apply Hd, Hx|].
    pose proof (@height_With_body node optional_vars (n' :: tl) n'
                  (or_introl eq_refl)) as Hn.
    destruct n', tl; try (apply Hd, Hx).
    match type of Hx with
    | context [With_nodes ?w] => set (inner := w) in *
    end.
    specialize (IH inner x).
    destruct (With_nodes inner) as [nodes body'] eqn:Hw.
    cbn [fst snd] in *.
    unfold With_items_callees in Hx. cbn [flat_map] in Hx.
    rewrite <- app_assoc in Hx. apply in_app_iff in Hx.
    destruct Hx as [Hx|Hx].
    + apply Hd. apply in_app_iff. left.
      unfold With_items_callees. cbn [flat_map]. rewrite app_nil_r. exact Hx.
    + apply IH in Hx; lia.
Qed.

Lemma in_present (x : AST) (l : list (option AST)) :
  In x (present l) -> In (Some x) l.
Proof.
  unfold present. intro H. apply in_flat_map in H.
  destruct H as [[y|] [Hy Hx]]; simpl in Hx; [|tauto].
  destruct Hx as [->|[]]. exact Hy.
Qed.

Lemma in_firstn {A : Type} (n : nat) (l : list A) (x : A) :
  In x (firstn n l) -> In x l.
Proof.
  revert l. induction n; intros [|y l]; simpl; try tauto.
  intros [->|H]; auto.
Qed.

Lemma in_skipn {A : Type} (n : nat) (l : list A) (x : A) :
  In x (skipn n l) -> In x l.
Proof.
  revert l. induction n; intros [|y l]; simpl; try tauto.
  intro H. right. auto.
Qed.

(** Membership in the list of callees, taken apart into bounds on
    heights. *)
Ltac split_in :=
  repeat match goal with
    | H : In _ (_ ++ _) |- _ => apply in_app_iff in H; destruct H as [H|H]
    | H : In _ (_ :: _) |- _ => destruct H as [<-|H]
    | H : In _ [] |- _ => destruct H
    | H : In _ (present _) |- _ => apply in_present in H
    | H : In _ (if ?b then _ else _) |- _ => destruct b
    | H : In _ (match ?o with Some _ => _ | None => _ end) |- _ => destruct o
    | H : In (Some _) (_ :: _) |- _ => destruct H as [H|H]; [subst|]
    | H : In (Some _) [] |- _ => destruct H
    | H : In _ (map _ _) |- _ =>
        apply in_map_iff in H; destruct H as [? [<- H]]
    | H : In _ (flat_map _ _) |- _ =>
        apply in_flat_map in H; destruct H as [? [? H]]
    | p : (_ * _)%type |- _ => destruct p
    | H : In (_, _) (combine _ _) |- _ =>
        let H' := fresh H in
        pose proof (in_combine_l _ _ _ _ H) as H';
        apply in_combine_r in H
    | H : In _ (firstn _ _) |- _ => apply in_firstn in H
    | H : In _ (skipn _ _) |- _ => apply in_skipn in H
    end.

Ltac bound_heights :=
  repeat match goal with
    | H : In ?x ?l |- _ => is_var l; apply height_in in H
    end;
  cbn [height max_list fold_right map opt_height] in *; lia.

Lemma callees_height (node x : AST) :
  In x (callees node) -> (height x < height node)%nat.
Proof.
  intro H.
  destruct node; cbn [callees] in H;
    try (unfold Dict_items, Call_args, arguments_args in H; split_in;
         bound_heights).
  - (* If *)
    apply in_app_iff in H. destruct H as [H|H]; [split_in; bound_heights|].
    apply in_app_iff in H. destruct H as [H|H]; [split_in; bound_heights|].
    eapply height_If_orelse_callees; [reflexivity|exact H].
  - (* With *)
    apply (@height_With_nodes (height (With node optional_vars body)));
      [lia|].
    destruct (With_nodes (With node optional_vars body)). exact H.
  - (* TryFinally *)
    apply in_app_iff in H. destruct H as [H|H]; [|bound_heights].
    assert (Hb : In x body).
    { destruct body as [|n' tl]; [exact H|].
      destruct n', tl; exact H. }
    bound_heights.
Qed.

(** The methods that are plain compositions of the combinators above. *)
Create HintDb methods.
#[global] Hint Unfold visit_Module visit_Interactive visit_Expression
  write_decorators visit_FunctionDef visit_ClassDef visit_For visit_While
  visit_TryExcept visit_TryFinally visit_Return visit_Delete visit_Assign
  visit_AugAssign visit_Print visit_Raise visit_Assert visit_Import
  visit_Exec visit_Global visit_Expr visit_Pass visit_Break visit_Continue
  visit_BoolOp BinOp_should_parenthesize BinOp_code visit_BinOp visit_UnaryOp
  Lambda_code visit_Lambda IfExp_code visit_IfExp visit_Dict visit_KeyValuePair visit_Set
  visit_comp visit_ListComp visit_SetComp visit_DictComp visit_GeneratorExp
  visit_Yield visit_Compare visit_Call visit_StarArg visit_DoubleStarArg
  visit_KeywordArg visit_Repr visit_Num visit_Str visit_Attribute
  visit_Subscript visit_Name visit_List visit_Tuple visit_Ellipsis
  visit_Slice visit_ExtSlice visit_Index visit_Operator visit_Context
  visit_comprehension visit_ExceptHandler visit_arguments visit_keyword
  visit_alias : methods.

(* ================================================================== *)
(** * A program logic for the methods *)
(* ================================================================== *)

(** What one step of a method does to the decompiler. *)
Definition written (code : string) (self : Decompiler) : Decompiler :=
  set_current_line (current_line self ++ [code]) self.

Definition line_closed (self : Decompiler) : Decompiler :=
  set_current_line []
    (set_lines (lines self ++ [(Py.join (current_line self) ++ Py.newline)%string])
       self).

Definition indented (self : Decompiler) : Decompiler :=
  set_current_indentation (current_indentation self + indentation self) self.

Definition dedented (self : Decompiler) : Decompiler :=
  set_current_indentation (current_indentation self - indentation self) self.

Lemma write_eq (code : string) (s : state) :
  write code s = Returns tt (update (written code) s).
Proof. reflexivity. Qed.

Lemma write_newline_eq (s : state) :
  write_newline s = Returns tt (update line_closed s).
Proof. reflexivity. Qed.

Lemma in_enumerate {A : Type} (l : list A) (i : nat) (x : A) :
  In (i, x) (enumerate l) -> In x l.
Proof. unfold enumerate. apply in_combine_r. Qed.

(** The nodes whose method starts by setting [has_unicode_literals]. *)
Definition requests_flag (node : AST) : bool :=
  match node with
  | ImportFrom module names _ =>
      match requests_unicode_literals module names with
      | Some true => true
      | _ => false
      end
  | _ => false
  end.

(** The state in which the method of [node] starts to write: [visit] has
    pushed the node, and [visit_ImportFrom] has set the flag if the
    statement asks for it. *)
Definition entered (node : AST) (s : state) : state :=
  if requests_flag node
  then update (set_has_unicode_literals true) (push_node node s)
  else push_node node s.

Section Logic.

(** [R s s']: a step that returns may take the run from [s] to [s'].
    [E s e s']: a step that raises [e] may take the run from [s] to [s']. *)
Variable R : state -> state -> Prop.
Variable E : state -> exn -> state -> Prop.

Definition post {A : Type} (s : state) (r : result A) : Prop :=
  match r with
  | Returns _ s' => R s s'
  | Raises e s' => E s e s'
  end.

(** A method is sound when each of its runs is a step. *)
Definition sound {A : Type} (m : M A) : Prop := forall s, post s (m s).

Hypothesis R_refl : forall s, R s s.
Hypothesis R_trans : forall s1 s2 s3, R s1 s2 -> R s2 s3 -> R s1 s3.
Hypothesis E_trans : forall s1 s2 e s3, R s1 s2 -> E s2 e s3 -> E s1 e s3.
Hypothesis E_KeyError : forall s, E s KeyError s.
Hypothesis E_AttributeError : forall s, E s AttributeError s.
Hypothesis R_write : forall code s, R s (update (written code) s).
Hypothesis R_newline : forall s, R s (update line_closed s).
Hypothesis R_indent :
  forall s s', R (update indented s) s' -> R s (update dedented s').
Hypothesis E_indent :
  forall s e s', E (update indented s) e s' -> E s e (update dedented s').
Hypothesis R_reset :
  forall s s', R s s' ->
    R s (update (reset_state (List.length (lines (self s)))
                   (current_line (self s))) s').
Hypothesis R_CallArgs :
  forall s s', R (push_CallArgs s) s' -> R s (pop_CallArgs s').
Hypothesis E_CallArgs :
  forall s e s', E (push_CallArgs s) e s' -> E s e (pop_CallArgs s').

Hypothesis R_visit :
  forall n s s', supported n = true -> R (entered n s) s' -> R s (pop_node s').
Hypothesis E_visit :
  forall n s e s',
    supported n = true -> E (entered n s) e s' -> E s e (pop_node s').
Hypothesis E_generic_visit :
  forall n s,
    supported n = false ->
    E s (NotImplementedError n) (pop_node (push_node n s)).

Lemma post_trans {A : Type} (s1 s2 : state) (r : result A) :
  R s1 s2 -> post s2 r -> post s1 r.
Proof. destruct r; simpl; eauto. Qed.

Lemma sound_ret {A : Type} (a : A) : sound (ret a).
Proof. intro s. apply R_refl. Qed.

Lemma sound_bind {A B : Type} (m : M A) (k : A -> M B) :
  sound m -> (forall a, sound (k a)) -> sound (bind m k).
Proof.
  intros Hm Hk s. unfold bind. specialize (Hm s).
  destruct (m s) as [a s'|e s']; simpl in *.
  - eapply post_trans; [exact Hm | apply Hk].
  - exact Hm.
Qed.

Lemma sound_gets {A : Type} (f : Decompiler -> A) : sound (gets f).
Proof. intro s. apply R_refl. Qed.

Lemma sound_attribute {A : Type} (o : option A) : sound (attribute o).
Proof. destruct o; intro s; simpl; auto. Qed.

Lemma sound_write (code : string) : sound (write code).
Proof. intro s. apply R_write. Qed.

Lemma sound_write_newline : sound write_newline.
Proof. intro s. apply R_newline. Qed.

Lemma sound_write_indentation : sound write_indentation.
Proof.
  apply sound_bind; [apply sound_gets | intro; apply sound_write].
Qed.

Lemma sound_get_parent_node : sound get_parent_node.
Proof. apply sound_gets. Qed.

Lemma sound_precedence_of_node (x : option entry) : sound (precedence_of_node x).
Proof.
  assert (K : forall op, sound (match PRECEDENCE (ENode op) with
                                | Some p => ret p
                                | None => raise KeyError
                                end)).
  { intro op. destruct (PRECEDENCE (ENode op)); intro s; simpl; auto. }
  destruct x as [[n|]|]; try exact R_refl.
  destruct n; try exact R_refl; apply K.
Qed.

Lemma sound_when (b : bool) (m : M unit) : sound m -> sound (when b m).
Proof. destruct b; simpl; auto using sound_ret. Qed.

Lemma sound_if_some {A : Type} (o : option A) (f : A -> M unit) :
  (forall a, o = Some a -> sound (f a)) -> sound (if_some o f).
Proof. destruct o; simpl; auto using sound_ret. Qed.

Lemma sound_for_each {A : Type} (f : A -> M unit) (l : list A) :
  (forall x, In x l -> sound (f x)) -> sound (for_each f l).
Proof.
  induction l as [|x l IH]; simpl; intro H.
  - apply sound_ret.
  - apply sound_bind; [apply H; auto | intros _; apply IH; auto].
Qed.

Lemma sound_add_indentation (body : M unit) :
  sound body -> sound (add_indentation body).
Proof.
  intros Hb s. unfold add_indentation, bind, modify, effect, try_finally.
  specialize (Hb (update indented s)). fold (update indented s).
  change (update (fun self0 => set_current_indentation
            (current_indentation self0 + indentation self0) self0) s)
    with (update indented s).
  destruct (body (update indented s)); simpl in *.
  - apply R_indent, Hb.
  - apply E_indent, Hb.
Qed.

Lemma sound_parenthesize_if (condition : bool) (body : M unit) :
  sound body -> sound (parenthesize_if condition body).
Proof.
  intro Hb. destruct condition; simpl; auto.
  repeat (apply sound_bind; [|intro]); auto using sound_write.
Qed.

Section Visitor.

(** The visitor the methods call, sound on the nodes that satisfy [G]. *)
Variable visit : AST -> M unit.
Variable G : AST -> Prop.
Hypothesis sound_visit : forall n, G n -> sound (visit n).

Lemma sound_write_inline (nodes : list AST) (first : bool) (separator : string)
    (allow_newlines : bool) :
  Forall G nodes ->
  sound (write_inline visit nodes first separator allow_newlines).
Proof.
  intro H. revert first.
  induction H as [|x l Hx Hl IH]; intro first; simpl.
  - apply sound_ret.
  - apply sound_bind; [destruct first; auto using sound_ret, sound_write|intros _].
    apply sound_bind; [auto|intros _].
    apply sound_bind; [apply sound_gets|intro len].
    apply sound_bind; [apply sound_gets|intro limit].
    destruct (allow_newlines && (limit <? len))%bool; auto using sound_ret.
Qed.

Lemma sound_write_multiline (nodes : list AST) (separator : string)
    (need_parens final_separator_if_multiline : bool) :
  Forall G nodes ->
  sound (write_multiline visit nodes separator need_parens
           final_separator_if_multiline).
Proof.
  intro H. unfold write_multiline.
  apply sound_bind; [apply sound_when, sound_write|intros _].
  apply sound_bind; [apply sound_write_newline|intros _].
  apply sound_bind; [|intros _].
  - apply sound_add_indentation, sound_for_each. intros [i x] Hin.
    apply in_enumerate in Hin. rewrite Forall_forall in H.
    apply sound_bind; [apply sound_write_indentation|intros _].
    apply sound_bind; [auto|intros _].
    apply sound_bind; [apply sound_when, sound_write|intros _].
    apply sound_write_newline.
  - apply sound_bind; [apply sound_write_indentation|intros _].
    apply sound_when, sound_write.
Qed.

Lemma sound_write_expression_list (nodes : list AST) (separator : string)
    (allow_newlines need_parens final_separator_if_multiline : bool) :
  Forall G nodes ->
  sound (write_expression_list visit nodes separator allow_newlines
           need_parens final_separator_if_multiline).
Proof.
  intros H s. unfold write_expression_list, bind at 1 2 3, gets.
  pose proof (sound_write_inline true separator allow_newlines H s) as Hi.
  destruct (write_inline visit nodes true separator allow_newlines s)
    as [broke s1|e s1]; simpl in Hi; [|exact Hi].
  destruct broke; simpl; [|exact Hi].
  unfold bind, modify, effect.
  eapply post_trans; [apply R_reset, Hi|].
  apply sound_write_multiline, H.
Qed.

Lemma sound_write_suite (nodes : list AST) :
  Forall G nodes -> sound (write_suite visit nodes).
Proof.
  intro H. apply sound_add_indentation, sound_for_each.
  rewrite Forall_forall in H. auto.
Qed.

Lemma sound_write_else (orelse : list AST) :
  Forall G orelse -> sound (write_else visit orelse).
Proof.
  intro H. destruct orelse; simpl; [apply sound_ret|].
  apply sound_bind; [apply sound_write_indentation|intros _].
  apply sound_bind; [apply sound_write|intros _].
  apply sound_bind; [apply sound_write_newline|intros _].
  apply sound_write_suite, H.
Qed.

Lemma sound_CallArgs (body : M unit) :
  sound body -> sound (effect push_CallArgs ;; try_finally body pop_CallArgs).
Proof.
  intros Hb s. unfold bind, effect, try_finally.
  specialize (Hb (push_CallArgs s)).
  destruct (body (push_CallArgs s)); simpl in *.
  - apply R_CallArgs, Hb.
  - apply E_CallArgs, Hb.
Qed.

(** One step of a proof that a method is sound: the lemma of the
    combinator at the head, or the rule of sequence. *)
Lemma in_pairs (ops comparators : list AST) (op expr : AST) :
  In (op, expr) (combine ops comparators) ->
  In op (flat_map (fun '(op, expr) => [op; expr]) (combine ops comparators)) /\
  In expr (flat_map (fun '(op, expr) => [op; expr]) (combine ops comparators)).
Proof.
  intro H. split; apply in_flat_map; exists (op, expr); simpl; auto.
Qed.

(** One step of a proof that a method is sound: the lemma of the
    combinator at the head, or the rule of sequence. *)
Ltac in_callees :=
  subst;
  try match goal with
      | H : In (_, _) (combine _ _) |- _ => apply in_pairs in H; destruct H
      end;
  first
    [ assumption
    | repeat first [rewrite in_app_iff | progress simpl]; subst;
      intuition (subst; simpl; auto with datatypes) ].

Ltac sound_step HG :=
  match goal with
  | |- sound (ret _) => apply sound_ret
  | |- sound (gets _) => apply sound_gets
  | |- sound (attribute _) => apply sound_attribute
  | |- sound (write _) => apply sound_write
  | |- sound write_newline => apply sound_write_newline
  | |- sound write_indentation => apply sound_write_indentation
  | |- sound get_parent_node => apply sound_get_parent_node
  | |- sound (precedence_of_node _) => apply sound_precedence_of_node
  | |- sound (when _ _) => apply sound_when
  | |- sound (if_some _ _) => apply sound_if_some; intros ? ?
  | |- sound (for_each _ _) => apply sound_for_each; intros ? ?
  | |- sound (add_indentation _) => apply sound_add_indentation
  | |- sound (parenthesize_if _ _) => apply sound_parenthesize_if
  | |- sound (write_suite _ _) => apply sound_write_suite
  | |- sound (write_else _ _) => apply sound_write_else
  | |- sound (write_expression_list _ _ _ _ _ _) =>
      apply sound_write_expression_list
  | |- sound (effect push_CallArgs ;; _) => apply sound_CallArgs
  | |- sound (visit _) => apply sound_visit, HG; in_callees
  | |- sound (bind _ _) => apply sound_bind; [|intro]
  | |- sound (let (_, _) := ?p in _) => destruct p
  | |- sound (if ?b then _ else _) => destruct b
  | |- sound (match ?x with _ => _ end) =>
      is_var x; destruct x; cbn beta iota in HG |- *
  | |- Forall G _ =>
      apply Forall_forall; intros ? ?; apply HG; in_callees
  end.

Lemma sound_simple_methods (node : AST) :
  (forall x, In x (callees node) -> G x) ->
  match node with
  | Suite _ | ImportFrom _ _ _ | If _ _ _ | With _ _ _ => True
  | _ => sound (NodeVisitor_visit visit node)
  end.
Proof.
  intro HG. destruct node; try exact I; cbn [callees] in HG;
    cbn [NodeVisitor_visit]; autounfold with methods.
  all: repeat sound_step HG.
Qed.

Lemma sound_visit_If_orelse (h : nat) :
  forall node,
    (height node <= h)%nat ->
    (forall x, In x (If_orelse_callees node) -> G x) ->
    sound (visit_If_orelse visit node).
Proof.
  induction h as [|h IH]; intros node Hh HG.
  - pose proof (height_pos node). lia.
  - destruct node; try apply sound_ret.
    cbn [visit_If_orelse If_orelse_callees] in HG |- *.
    destruct orelse as [|n' [|? ?]]; try (repeat sound_step HG; fail).
    assert (Hn : (height n' <= h)%nat).
    { pose proof (@height_If_orelse node body [n'] n' (or_introl eq_refl)). lia. }
    destruct n'; try (repeat sound_step HG; fail).
    repeat sound_step HG. apply IH; [exact Hn|].
    intros x Hx. apply HG. in_callees.
Qed.

Lemma sound_visit_If (node test : AST) (body orelse : list AST) :
  node = If test body orelse ->
  (forall x, In x (callees node) -> G x) ->
  sound (visit_If visit node test body).
Proof.
  intros -> HG. cbn [callees] in HG. unfold visit_If.
  repeat sound_step HG.
  apply (@sound_visit_If_orelse (height (If test body orelse))); [lia|].
  intros x Hx. apply HG. in_callees.
Qed.

Lemma sound_With_items (nodes : list AST) (is_first : bool) :
  (forall x, In x (With_items_callees nodes) -> G x) ->
  sound (With_items visit nodes is_first).
Proof.
  revert is_first. induction nodes as [|context_node rest IH];
    intros is_first HG; cbn [With_items]; [apply sound_ret|].
  unfold With_items_callees in HG. cbn [flat_map] in HG.
  fold (With_items_callees rest) in HG.
  apply sound_bind; [destruct is_first; auto using sound_ret, sound_write|intros _].
  apply sound_bind; [|intros _; apply IH; intros x Hx; apply HG; in_callees].
  destruct context_node; try apply sound_ret.
  repeat sound_step HG.
Qed.

Lemma sound_visit_With (node : AST) :
  (forall x, In x (callees node) -> G x) ->
  match node with
  | With _ _ _ => sound (visit_With visit node)
  | _ => True
  end.
Proof.
  intro HG. destruct node; try exact I.
  cbn [callees] in HG. unfold visit_With.
  destruct (With_nodes (With node optional_vars body)) as [nodes body'].
  repeat sound_step HG.
  apply sound_With_items. intros x Hx. apply HG. in_callees.
Qed.

(** [visit_ImportFrom] sets the flag right after [visit] has pushed the
    node. *)
Lemma sound_visit_ImportFrom (module : option string) (names : list AST)
    (level : option Z) (s : state) :
  (forall x, In x names -> G x) ->
  post (entered (ImportFrom module names level) s)
    (visit_ImportFrom visit module names level
       (push_node (ImportFrom module names level) s)).
Proof.
  intro HG. unfold entered, requests_flag, visit_ImportFrom, bind at 1, attribute.
  destruct (requests_unicode_literals module names) as [requested|] eqn:Hreq;
    [|apply E_AttributeError].
  cbn [ret]. unfold bind at 1.
  assert (Hrest : forall m : M unit, sound (
    write_indentation ;;
    write ("from " ++ Py.str_mul "." (match level with Some l => l | None => 0 end))%string ;;
    when (Py.truthy_opt_str module)
      (write (match module with Some m => m | None => EmptyString end)) ;;
    write " import " ;;
    write_expression_list visit names ", " true true true ;;
    write_newline)).
  { intros _. repeat sound_step HG. }
  destruct requested; cbn [when modify effect ret]; apply (Hrest (ret tt)).
Qed.

(** One call of [Decompiler.visit], given the visitor for the calls below. *)
Lemma sound_visit_step (node : AST) :
  (forall x, In x (callees node) -> G x) ->
  sound (effect (push_node node) ;;
         try_finally (NodeVisitor_visit visit node) pop_node).
Proof.
  intros HG s. unfold bind, effect, try_finally.
  assert (H : supported node = true ->
              post (entered node s)
                (NodeVisitor_visit visit node (push_node node s)) ->
              post s
                match NodeVisitor_visit visit node (push_node node s) with
                | Returns a s' => Returns a (pop_node s')
                | Raises e s' => Raises e (pop_node s')
                end).
  { intro Hs.
    destruct (NodeVisitor_visit visit node (push_node node s)); simpl.
    - apply R_visit, Hs.
    - apply E_visit, Hs. }
  pose proof (sound_simple_methods node HG) as Hs.
  pose proof (sound_visit_With node HG) as Hw.
  destruct node; try (apply H; [reflexivity|apply Hs]);
    try (apply H; [reflexivity|apply Hw]).
  - (* Suite *) apply E_generic_visit. reflexivity.
  - (* If *)
    apply H; [reflexivity|]. eapply sound_visit_If; [reflexivity|exact HG].
  - (* ImportFrom *)
    apply H; [reflexivity|]. apply sound_visit_ImportFrom, HG.
Qed.

End Visitor.

(** Every call of [visit] is a step: for any recursion budget when running
    out of it is a step as well, and for a budget of at least the height
    of the node even when it is not. *)
Theorem visit_sound (fuel : nat) (node : AST) :
  (forall s, E s RecursionLimit s) -> sound (visit fuel node).
Proof.
  intro HE. revert node. induction fuel as [|fuel IH]; intro node.
  - exact HE.
  - cbn [visit].
    apply (@sound_visit_step (visit fuel) (fun _ => True)); auto.
Qed.

Theorem visit_sound_bounded (fuel : nat) (node : AST) :
  (height node <= fuel)%nat -> sound (visit fuel node).
Proof.
  revert node. induction fuel as [|fuel IH]; intros node Hh.
  - pose proof (height_pos node). lia.
  - cbn [visit].
    apply (@sound_visit_step (visit fuel) (fun x => (height x <= fuel)%nat));
      [exact IH|].
    intros x Hx. apply callees_height in Hx. lia.
Qed.

End Logic.

(* ================================================================== *)
(** * The recursion budget *)
(* ================================================================== *)

(** A budget of the height of the tree is never exhausted. *)
Theorem visit_never_short (fuel : nat) (node : AST) (s s' : state) :
  (height node <= fuel)%nat -> visit fuel node s <> Raises RecursionLimit s'.
Proof.
  intros Hh Heq.
  assert (H : @sound (fun _ _ => True) (fun _ e _ => e <> RecursionLimit)
                 unit (visit fuel node)).
  { apply visit_sound_bounded; try exact Hh; simpl; intros; auto;
      discriminate. }
  specialize (H s). rewrite Heq in H. simpl in H. congruence.
Qed.

Theorem decompile_total (ast : AST) (indentation line_length : Z) :
  decompile ast indentation line_length <> inr RecursionLimit.
Proof.
  unfold decompile, decompile_within.
  destruct (visit (height ast) ast (init indentation line_length))
    as [a s'|e s'] eqn:Hv; [discriminate|].
  intro H. injection H as ->.
  eapply visit_never_short; [|exact Hv]. lia.
Qed.

(** ** More budget changes nothing *)

(** A result that is not the exhaustion of the budget. *)
Definition completes {A : Type} (r : result A) : Prop :=
  match r with
  | Raises RecursionLimit _ => False
  | _ => True
  end.

(** [m2] does what [m1] does wherever [m1] is not short of budget. *)
Definition refines {A : Type} (m1 m2 : M A) : Prop :=
  forall s, completes (m1 s) -> m2 s = m1 s.

Lemma refines_refl {A : Type} (m : M A) : refines m m.
Proof. intros s _. reflexivity. Qed.

Lemma refines_bind {A B : Type} (m1 m2 : M A) (k1 k2 : A -> M B) :
  refines m1 m2 -> (forall a, refines (k1 a) (k2 a)) ->
  refines (bind m1 k1) (bind m2 k2).
Proof.
  intros Hm Hk s. unfold bind. specialize (Hm s).
  destruct (m1 s) as [a s1|e s1]; intro Hc.
  - rewrite Hm by exact I. apply Hk, Hc.
  - rewrite Hm by exact Hc. reflexivity.
Qed.

Lemma refines_try_finally {A : Type} (m1 m2 : M A) (f : state -> state) :
  refines m1 m2 -> refines (try_finally m1 f) (try_finally m2 f).
Proof.
  intros Hm s. unfold try_finally. specialize (Hm s).
  destruct (m1 s) as [a s1|e s1]; intro Hc.
  - rewrite Hm by exact I. reflexivity.
  - rewrite Hm by exact Hc. reflexivity.
Qed.

Lemma refines_when (b : bool) (m1 m2 : M unit) :
  refines m1 m2 -> refines (when b m1) (when b m2).
Proof. destruct b; simpl; auto using refines_refl. Qed.

Lemma refines_if_some {A : Type} (o : option A) (f1 f2 : A -> M unit) :
  (forall a, refines (f1 a) (f2 a)) -> refines (if_some o f1) (if_some o f2).
Proof. destruct o; simpl; auto using refines_refl. Qed.

Lemma refines_for_each {A : Type} (f1 f2 : A -> M unit) (l : list A) :
  (forall a, refines (f1 a) (f2 a)) -> refines (for_each f1 l) (for_each f2 l).
Proof.
  intro H. induction l; simpl; auto using refines_refl, refines_bind.
Qed.

Lemma refines_add_indentation (m1 m2 : M unit) :
  refines m1 m2 -> refines (add_indentation m1) (add_indentation m2).
Proof.
  intro H. unfold add_indentation.
  apply refines_bind; [apply refines_refl|intros _].
  apply refines_try_finally, H.
Qed.

Lemma refines_parenthesize_if (condition : bool) (m1 m2 : M unit) :
  refines m1 m2 ->
  refines (parenthesize_if condition m1) (parenthesize_if condition m2).
Proof.
  intro H. destruct condition; simpl; auto.
  repeat (apply refines_bind; [|intro]); auto using refines_refl.
Qed.

Section Refinement.

Variables visit1 visit2 : AST -> M unit.
Hypothesis refines_visit : forall n, refines (visit1 n) (visit2 n).

Lemma refines_write_inline (nodes : list AST) (first : bool)
    (separator : string) (allow_newlines : bool) :
  refines (write_inline visit1 nodes first separator allow_newlines)
    (write_inline visit2 nodes first separator allow_newlines).
Proof.
  revert first. induction nodes as [|x l IH]; intro first; simpl.
  - apply refines_refl.
  - apply refines_bind; [apply refines_refl|intros _].
    apply refines_bind; [apply refines_visit|intros _].
    apply refines_bind; [apply refines_refl|intro len].
    apply refines_bind; [apply refines_refl|intro limit].
    destruct (allow_newlines && (limit <? len))%bool; auto using refines_refl.
Qed.

Ltac refines_step :=
  match goal with
  | |- refines (write_inline _ _ _ _ _) _ => apply refines_write_inline
  | |- refines (visit1 _) (visit2 _) => apply refines_visit
  | |- refines (bind _ _) (bind _ _) => apply refines_bind; [|intro]
  | |- refines (when _ _) _ => apply refines_when
  | |- refines (if_some _ _) _ => apply refines_if_some; intro
  | |- refines (for_each _ _) _ => apply refines_for_each; intro
  | |- refines (add_indentation _) _ => apply refines_add_indentation
  | |- refines (parenthesize_if _ _) _ => apply refines_parenthesize_if
  | |- refines (try_finally _ _) _ => apply refines_try_finally
  | |- refines (let (_, _) := ?p in _) _ => destruct p
  | |- refines (if ?b then _ else _) _ => destruct b
  | |- refines (match ?x with _ => _ end) _ => is_var x; destruct x
  | |- refines ?m ?m => apply refines_refl
  end.

Lemma refines_write_expression_list (nodes : list AST) (separator : string)
    (allow_newlines need_parens final_separator_if_multiline : bool) :
  refines
    (write_expression_list visit1 nodes separator allow_newlines need_parens
       final_separator_if_multiline)
    (write_expression_list visit2 nodes separator allow_newlines need_parens
       final_separator_if_multiline).
Proof.
  unfold write_expression_list, write_multiline. repeat refines_step.
Qed.

Ltac refines_all :=
  repeat first
    [ apply refines_write_expression_list
    | progress unfold write_else, write_suite
    | refines_step ].

Lemma refines_visit_If_orelse (h : nat) :
  forall node,
    (height node <= h)%nat ->
    refines (visit_If_orelse visit1 node) (visit_If_orelse visit2 node).
Proof.
  induction h as [|h IH]; intros node Hh.
  - pose proof (height_pos node). lia.
  - destruct node; try apply refines_refl.
    cbn [visit_If_orelse].
    destruct orelse as [|n' tl]; [apply refines_refl|].
    pose proof (@height_If_orelse node body (n' :: tl) n' (or_introl eq_refl)).
    destruct n', tl; refines_all.
    apply IH. lia.
Qed.

Lemma refines_With_items (nodes : list AST) (is_first : bool) :
  refines (With_items visit1 nodes is_first) (With_items visit2 nodes is_first).
Proof.
  revert is_first. induction nodes as [|context_node rest IH];
    intro is_first; cbn [With_items]; [apply refines_refl|].
  apply refines_bind; [apply refines_refl|intros _].
  apply refines_bind; [|intros _; apply IH].
  destruct context_node; refines_all.
Qed.

Lemma refines_NodeVisitor_visit (node : AST) :
  refines (NodeVisitor_visit visit1 node) (NodeVisitor_visit visit2 node).
Proof.
  destruct node; cbn [NodeVisitor_visit]; autounfold with methods;
    unfold visit_ImportFrom, visit_If, visit_With;
    try (refines_all; fail).
  - (* If *)
    refines_all.
    apply (@refines_visit_If_orelse (height (If node body orelse))). lia.
  - (* With *)
    refines_all. apply refines_With_items.
Qed.

End Refinement.

(** The budget is monotone: a call that is not short of budget does the
    same with any larger one. *)
Theorem visit_more_fuel (fuel extra : nat) (node : AST) :
  refines (visit fuel node) (visit (fuel + extra) node).
Proof.
  revert node. induction fuel as [|fuel IH]; intro node.
  - intros s []. 
  - cbn [Nat.add visit].
    apply refines_bind; [apply refines_refl|intros _].
    apply refines_try_finally, refines_NodeVisitor_visit, IH.
Qed.


(* ================================================================== *)
(** * What a call of [visit] leaves as it found it *)
(* ================================================================== *)

Definition extends {A : Type} (l l' : list A) : Prop := exists t, l' = l ++ t.

Lemma extends_refl {A : Type} (l : list A) : extends l l.
Proof. exists []. symmetry. apply app_nil_r. Qed.

Lemma extends_trans {A : Type} (l1 l2 l3 : list A) :
  extends l1 l2 -> extends l2 l3 -> extends l1 l3.
Proof.
  intros [t1 ->] [t2 ->]. exists (t1 ++ t2). symmetry. apply app_assoc.
Qed.

Lemma extends_snoc {A : Type} (l : list A) (x : A) : extends l (l ++ [x]).
Proof. exists [x]. reflexivity. Qed.

Lemma firstn_extends {A : Type} (l l' : list A) :
  extends l l' -> firstn (List.length l) l' = l.
Proof.
  intros [t ->]. rewrite firstn_app, firstn_all, Nat.sub_diag. simpl.
  apply app_nil_r.
Qed.

(** Between the call and the return (or the exception) of a method: the
    completed lines are kept and only added to, the indentation, the
    ancestry stack, the configuration and the depth are the same, the flag
    is not reset, and the log is only added to. *)
Record frame (s s' : state) : Prop := mkFrame {
  frame_lines : extends (lines (self s)) (lines (self s'));
  frame_current_indentation :
    current_indentation (self s') = current_indentation (self s);
  frame_node_stack : node_stack (self s') = node_stack (self s);
  frame_indentation : indentation (self s') = indentation (self s);
  frame_max_line_length : max_line_length (self s') = max_line_length (self s);
  frame_has_unicode_literals :
    has_unicode_literals (self s) = true ->
    has_unicode_literals (self s') = true;
  frame_depth : depth s' = depth s;
  frame_log : extends (log s) (log s')
}.

Lemma frame_refl (s : state) : frame s s.
Proof. constructor; auto using extends_refl. Qed.

Lemma frame_trans (s1 s2 s3 : state) : frame s1 s2 -> frame s2 s3 -> frame s1 s3.
Proof.
  intros [] []. constructor; eauto using extends_trans; congruence.
Qed.

Lemma frame_written (code : string) (s : state) : frame s (update (written code) s).
Proof. constructor; simpl; auto using extends_refl. Qed.

Lemma frame_line_closed (s : state) : frame s (update line_closed s).
Proof. constructor; simpl; auto using extends_refl, extends_snoc. Qed.

Lemma frame_indented (s s' : state) :
  frame (update indented s) s' -> frame s (update dedented s').
Proof.
  intros []. simpl in *. constructor; simpl; auto. lia.
Qed.

Lemma frame_reset (s s' : state) :
  frame s s' ->
  frame s (update (reset_state (List.length (lines (self s)))
                     (current_line (self s))) s').
Proof.
  intros []. constructor; simpl; auto.
  rewrite firstn_extends by assumption. apply extends_refl.
Qed.

Lemma frame_CallArgs (s s' : state) :
  frame (push_CallArgs s) s' -> frame s (pop_CallArgs s').
Proof.
  intros []. simpl in *. constructor; simpl; auto.
  - rewrite frame_node_stack0. apply removelast_last.
  - eapply extends_trans; [|apply extends_snoc].
    eapply extends_trans; [apply extends_snoc|eassumption].
Qed.

Lemma frame_pushed (n : AST) (s s' : state) :
  frame (push_node n s) s' -> frame s (pop_node s').
Proof.
  intros []. simpl in *. constructor; simpl; auto.
  - rewrite frame_node_stack0. apply removelast_last.
  - rewrite frame_depth0. reflexivity.
  - eapply extends_trans; [|apply extends_snoc].
    eapply extends_trans; [apply extends_snoc|eassumption].
Qed.

Lemma frame_set_flag (s : state) :
  frame s (update (set_has_unicode_literals true) s).
Proof. constructor; simpl; auto using extends_refl. Qed.

Lemma frame_entered (n : AST) (s : state) :
  frame (push_node n s) (entered n s).
Proof.
  unfold entered. destruct (requests_flag n);
    auto using frame_refl, frame_set_flag.
Qed.

Lemma frame_visit (n : AST) (s s' : state) :
  frame (entered n s) s' -> frame s (pop_node s').
Proof.
  intro H. apply (@frame_pushed n).
  eapply frame_trans; [apply frame_entered|exact H].
Qed.

(** ** The text is only added to *)

(** The text written so far: the completed lines and the line in
    progress. *)
Definition emitted (s : state) : string :=
  (Py.join (lines (self s)) ++ Py.join (current_line (self s)))%string.

Definition text_extends (a b : string) : Prop := exists w, b = (a ++ w)%string.

Lemma text_extends_refl (a : string) : text_extends a a.
Proof. exists EmptyString. symmetry. apply append_nil_r. Qed.

Lemma text_extends_trans (a b c : string) :
  text_extends a b -> text_extends b c -> text_extends a c.
Proof.
  intros [w1 ->] [w2 ->]. exists (w1 ++ w2)%string. apply append_assoc.
Qed.

Lemma emitted_written (code : string) (s : state) :
  emitted (update (written code) s) = (emitted s ++ code)%string.
Proof.
  unfold emitted. simpl. rewrite join_snoc. symmetry. apply append_assoc.
Qed.

Lemma emitted_line_closed (s : state) :
  emitted (update line_closed s) = (emitted s ++ Py.newline)%string.
Proof.
  unfold emitted. simpl. rewrite join_snoc, append_nil_r.
  symmetry. apply append_assoc.
Qed.

(** A step of a method: framed, and the text is extended. *)
Definition step (s s' : state) : Prop :=
  frame s s' /\ text_extends (emitted s) (emitted s').

Lemma step_refl (s : state) : step s s.
Proof. split; auto using frame_refl, text_extends_refl. Qed.

Lemma step_trans (s1 s2 s3 : state) : step s1 s2 -> step s2 s3 -> step s1 s3.
Proof.
  intros [] []. split; eauto using frame_trans, text_extends_trans.
Qed.

Lemma step_written (code : string) (s : state) : step s (update (written code) s).
Proof.
  split; [apply frame_written|]. exists code. apply emitted_written.
Qed.

Lemma step_line_closed (s : state) : step s (update line_closed s).
Proof.
  split; [apply frame_line_closed|]. exists Py.newline. apply emitted_line_closed.
Qed.

Lemma step_indented (s s' : state) :
  step (update indented s) s' -> step s (update dedented s').
Proof. intros [Hf Ht]. split; [apply frame_indented, Hf|exact Ht]. Qed.

Lemma step_reset (s s' : state) :
  step s s' ->
  step s (update (reset_state (List.length (lines (self s)))
                    (current_line (self s))) s').
Proof.
  intros [Hf Ht]. split; [apply frame_reset, Hf|].
  unfold emitted. simpl. rewrite firstn_extends by apply Hf.
  apply text_extends_refl.
Qed.

Lemma step_CallArgs (s s' : state) :
  step (push_CallArgs s) s' -> step s (pop_CallArgs s').
Proof. intros [Hf Ht]. split; [apply frame_CallArgs, Hf|exact Ht]. Qed.

Lemma emitted_entered (n : AST) (s : state) : emitted (entered n s) = emitted s.
Proof. unfold entered. destruct (requests_flag n); reflexivity. Qed.

Lemma step_visit (n : AST) (s s' : state) :
  step (entered n s) s' -> step s (pop_node s').
Proof.
  intros [Hf Ht]. split; [eapply frame_visit, Hf|].
  rewrite emitted_entered in Ht. exact Ht.
Qed.

Lemma step_generic_visit (n : AST) (s : state) :
  step s (pop_node (push_node n s)).
Proof.
  split; [apply (@frame_pushed n), frame_refl|apply text_extends_refl].
Qed.

(** The methods are sound for [step], whether they return or raise. *)
Definition steps {A : Type} (m : M A) : Prop :=
  forall s, step s (state_of (m s)).

Lemma sound_steps {A : Type} (m : M A) :
  @sound step (fun s _ s' => step s s') A m <-> steps m.
Proof.
  unfold sound, steps, post.
  split; intros H s; specialize (H s); destruct (m s); exact H.
Qed.

(** Every call of [visit], whether it returns or raises, is a step. *)
Theorem visit_steps (fuel : nat) (node : AST) : steps (visit fuel node).
Proof.
  apply sound_steps.
  apply visit_sound; intros;
    eauto using step_refl, step_trans, step_written, step_line_closed,
      step_indented, step_reset, step_CallArgs, step_visit,
      step_generic_visit.
Qed.

Corollary visit_frame (fuel : nat) (node : AST) (s : state) :
  frame s (state_of (visit fuel node s)).
Proof. apply visit_steps. Qed.

Corollary visit_emits (fuel : nat) (node : AST) (s : state) :
  text_extends (emitted s) (emitted (state_of (visit fuel node s))).
Proof. apply visit_steps. Qed.

(* ================================================================== *)
(** * The ancestry stack and the depth of the recursion *)
(* ================================================================== *)

Definition is_marker (e : entry) : bool :=
  match e with
  | CallArgs => true
  | ENode _ => false
  end.

(** The number of [_CallArgs] markers on a stack. *)
Definition markers (stack : list entry) : nat :=
  List.length (filter is_marker stack).

(** The stack is as long as the recursion is deep. *)
Definition stack_is_depth (p : point) : Prop :=
  List.length (node_stack (at_self p)) = at_depth p.

(** The stack is as long as the recursion is deep, plus one for each
    marker on it. *)
Definition balanced (self : Decompiler) (d : nat) : Prop :=
  List.length (node_stack self) = (d + markers (node_stack self))%nat.

Definition point_balanced (p : point) : Prop :=
  balanced (at_self p) (at_depth p).

Definition all_balanced (s : state) : Prop :=
  balanced (self s) (depth s) /\ Forall point_balanced (log s).

Lemma markers_push_node (stack : list entry) (n : AST) :
  markers (stack ++ [ENode n]) = markers stack.
Proof.
  unfold markers. rewrite filter_app. simpl. rewrite app_nil_r. reflexivity.
Qed.

Lemma markers_push_CallArgs (stack : list entry) :
  markers (stack ++ [CallArgs]) = S (markers stack).
Proof.
  unfold markers. rewrite filter_app, length_app. simpl. lia.
Qed.

Lemma balanced_record (ev : event) (stack : list entry) (d : nat) (s : state) :
  Forall point_balanced (log s) ->
  List.length stack = (d + markers stack)%nat ->
  all_balanced (record ev stack d s).
Proof.
  intros Hl Hb. split; [exact Hb|].
  simpl. apply Forall_app. split; [exact Hl|].
  constructor; [exact Hb|constructor].
Qed.

Lemma balanced_update (f : Decompiler -> Decompiler) (s : state) :
  (forall d, node_stack (f d) = node_stack d) ->
  all_balanced s -> all_balanced (update f s).
Proof.
  intros Hf [Hb Hl]. split; [|exact Hl].
  unfold balanced in *. simpl. rewrite Hf. exact Hb.
Qed.

Lemma balanced_update_inv (f : Decompiler -> Decompiler) (s : state) :
  (forall d, node_stack (f d) = node_stack d) ->
  all_balanced (update f s) -> all_balanced s.
Proof.
  intros Hf [Hb Hl]. split; [|exact Hl].
  unfold balanced in *. simpl in Hb. rewrite Hf in Hb. exact Hb.
Qed.

Lemma balanced_push_node (n : AST) (s : state) :
  all_balanced s -> all_balanced (push_node n s).
Proof.
  intros [Hb Hl]. apply balanced_record; [exact Hl|].
  unfold balanced in Hb. rewrite markers_push_node, length_app. simpl. lia.
Qed.

Lemma balanced_entered (n : AST) (s : state) :
  all_balanced s -> all_balanced (entered n s).
Proof.
  intro H. unfold entered.
  destruct (requests_flag n); [apply balanced_update; [reflexivity|]|];
    apply balanced_push_node, H.
Qed.

Lemma balanced_push_CallArgs (s : state) :
  all_balanced s -> all_balanced (push_CallArgs s).
Proof.
  intros [Hb Hl]. apply balanced_record; [exact Hl|].
  unfold balanced in Hb. rewrite markers_push_CallArgs, length_app. simpl. lia.
Qed.

(** Popping back to the stack and the depth of a balanced state. *)
Lemma balanced_pop (ev : event) (s s' : state) (d : nat) :
  all_balanced s -> all_balanced s' ->
  removelast (node_stack (self s')) = node_stack (self s) ->
  d = depth s ->
  all_balanced (record ev (removelast (node_stack (self s'))) d s').
Proof.
  intros [Hb _] [_ Hl'] Hs ->. apply balanced_record; [exact Hl'|].
  rewrite Hs. exact Hb.
Qed.

(** The relation of the logic: a step that keeps the run balanced. *)
Definition balanced_step (s s' : state) : Prop :=
  step s s' /\ (all_balanced s -> all_balanced s').

Lemma balanced_step_visit (n : AST) (s s' : state) :
  balanced_step (entered n s) s' -> balanced_step s (pop_node s').
Proof.
  intros [Hs Hb]. split; [eapply step_visit, Hs|].
  intro H. apply balanced_pop with (s := s); auto using balanced_entered.
  - destruct Hs as [Hf _]. rewrite (frame_node_stack Hf).
    unfold entered. destruct (requests_flag n); simpl; apply removelast_last.
  - destruct Hs as [Hf _]. rewrite (frame_depth Hf).
    unfold entered. destruct (requests_flag n); reflexivity.
Qed.

Lemma balanced_step_CallArgs (s s' : state) :
  balanced_step (push_CallArgs s) s' -> balanced_step s (pop_CallArgs s').
Proof.
  intros [Hs Hb]. split; [apply step_CallArgs, Hs|].
  intro H. apply balanced_pop with (s := s); auto using balanced_push_CallArgs.
  - destruct Hs as [Hf _]. rewrite (frame_node_stack Hf).
    simpl. apply removelast_last.
  - destruct Hs as [Hf _]. rewrite (frame_depth Hf). reflexivity.
Qed.

Lemma balanced_step_generic (n : AST) (s : state) :
  balanced_step s (pop_node (push_node n s)).
Proof.
  split; [apply step_generic_visit|].
  intro H. apply balanced_pop with (s := s); auto using balanced_push_node.
  simpl. apply removelast_last.
Qed.

(** Every run of [visit] from a balanced state is balanced at every point
    of its log. *)
Theorem visit_balanced (fuel : nat) (node : AST) (s : state) :
  all_balanced s -> all_balanced (state_of (visit fuel node s)).
Proof.
  assert (H : @sound balanced_step (fun s _ s' => balanced_step s s') unit
                (visit fuel node)).
  { apply visit_sound.
    - intro. split; auto using step_refl.
    - intros s1 s2 s3 [] []. split; eauto using step_trans.
    - intros s1 s2 _ s3 [] []. split; eauto using step_trans.
    - intro. split; auto using step_refl.
    - intro. split; auto using step_refl.
    - intros. split; [apply step_written|].
      apply balanced_update. reflexivity.
    - intros. split; [apply step_line_closed|].
      apply balanced_update. reflexivity.
    - intros s0 s' [Hs Hb]. split; [apply step_indented, Hs|].
      intro H. apply balanced_update; [reflexivity|].
      apply Hb, balanced_update; [reflexivity|exact H].
    - intros s0 _ s' [Hs Hb]. split; [apply step_indented, Hs|].
      intro H. apply balanced_update; [reflexivity|].
      apply Hb, balanced_update; [reflexivity|exact H].
    - intros s0 s' [Hs Hb]. split; [apply step_reset; exact Hs|].
      intro H. apply balanced_update; [reflexivity|auto].
    - apply balanced_step_CallArgs.
    - intros s0 _ s'. apply balanced_step_CallArgs.
    - intros n s0 s' _. apply balanced_step_visit.
    - intros n s0 _ s' _. apply balanced_step_visit.
    - intros n s0 _. apply balanced_step_generic.
    - intro. split; auto using step_refl. }
  specialize (H s). destruct (visit fuel node s); apply H.
Qed.

(* ================================================================== *)
(** * Nodes without a method *)
(* ================================================================== *)

(** The point records a call of [visit] on a node without a method. *)
Definition enters_unsupported (p : point) : bool :=
  match at_event p with
  | Enter u => negb (supported u)
  | _ => false
  end.

(** The point records a return of [visit] or the pop of [visit_Call]. *)
Definition is_exit (p : point) : bool :=
  match at_event p with
  | Leave | LeaveCallArgs => true
  | _ => false
  end.

Definition all_supported (t : list point) : Prop :=
  Forall (fun p => enters_unsupported p = false) t.

(** The log [t] of a run that [NotImplementedError(u)] ended: nothing
    without a method was entered before [u], and nothing at all after. *)
Definition stopped_at (u : AST) (t : list point) : Prop :=
  supported u = false /\
  exists t1 q t2,
    t = t1 ++ q :: t2 /\ at_event q = Enter u /\
    all_supported t1 /\ Forall (fun p => is_exit p = true) t2.

Definition supported_step (s s' : state) : Prop :=
  exists t, log s' = log s ++ t /\ all_supported t.

Definition unsupported_stop (s : state) (e : exn) (s' : state) : Prop :=
  exists t, log s' = log s ++ t /\
    match e with
    | NotImplementedError u => stopped_at u t
    | _ => all_supported t
    end.

Lemma supported_step_refl (s : state) : supported_step s s.
Proof. exists []. split; [symmetry; apply app_nil_r|constructor]. Qed.

Lemma supported_step_update (f : Decompiler -> Decompiler) (s : state) :
  supported_step s (update f s).
Proof. exists []. split; [symmetry; apply app_nil_r|constructor]. Qed.

Lemma supported_step_trans (s1 s2 s3 : state) :
  supported_step s1 s2 -> supported_step s2 s3 -> supported_step s1 s3.
Proof.
  intros [t1 [H1 F1]] [t2 [H2 F2]]. exists (t1 ++ t2). split.
  - rewrite H2, H1. symmetry. apply app_assoc.
  - apply Forall_app. auto.
Qed.

Lemma unsupported_stop_trans (s1 s2 : state) (e : exn) (s3 : state) :
  supported_step s1 s2 -> unsupported_stop s2 e s3 -> unsupported_stop s1 e s3.
Proof.
  intros [t1 [H1 F1]] [t2 [H2 F2]]. exists (t1 ++ t2). split.
  - rewrite H2, H1. symmetry. apply app_assoc.
  - destruct e; try (apply Forall_app; auto).
    destruct F2 as [Hu [ta [q [tb [-> [Hq [Fa Fb]]]]]]].
    split; [exact Hu|]. exists (t1 ++ ta), q, tb.
    rewrite <- app_assoc. repeat split; auto. apply Forall_app. auto.
Qed.

(** A bracket: an event that enters nothing without a method before the
    body, an exit after it. *)
Lemma supported_step_bracket (p q : point) (s0 s1 s' s2 : state) :
  log s1 = log s0 ++ [p] -> log s2 = log s' ++ [q] ->
  enters_unsupported p = false -> enters_unsupported q = false ->
  supported_step s1 s' -> supported_step s0 s2.
Proof.
  intros H1 H2 Hp Hq [t [H F]]. exists (p :: t ++ [q]). split.
  - rewrite H2, H, H1, <- !app_assoc. reflexivity.
  - constructor; [exact Hp|]. apply Forall_app. split; [exact F|].
    constructor; [exact Hq|constructor].
Qed.

Lemma unsupported_stop_bracket (p q : point) (s0 s1 : state) (e : exn)
    (s' s2 : state) :
  log s1 = log s0 ++ [p] -> log s2 = log s' ++ [q] ->
  enters_unsupported p = false -> is_exit q = true ->
  unsupported_stop s1 e s' -> unsupported_stop s0 e s2.
Proof.
  intros H1 H2 Hp Hq [t [H F]]. exists (p :: t ++ [q]). split.
  - rewrite H2, H, H1, <- !app_assoc. reflexivity.
  - assert (Hq' : enters_unsupported q = false).
    { unfold enters_unsupported, is_exit in *. destruct (at_event q);
        congruence. }
    destruct e;
      try (constructor; [exact Hp|]; apply Forall_app; split; [exact F|];
           constructor; [exact Hq'|constructor]).
    destruct F as [Hu [ta [r [tb [-> [Hr [Fa Fb]]]]]]].
    split; [exact Hu|]. exists (p :: ta), r, (tb ++ [q]).
    repeat split; auto.
    + simpl. rewrite <- app_assoc. reflexivity.
    + constructor; assumption.
    + apply Forall_app. split; [exact Fb|]. constructor; [exact Hq|constructor].
Qed.

Lemma log_entered (n : AST) (s : state) :
  log (entered n s)
  = log s ++ [mkPoint (Enter n)
                (set_node_stack (node_stack (self s) ++ [ENode n]) (self s))
                (S (depth s))].
Proof. unfold entered. destruct (requests_flag n); reflexivity. Qed.

(** A run either enters supported nodes only, or is stopped by the first
    node without a method. *)
Theorem visit_unsupported (fuel : nat) (node : AST) :
  @sound supported_step unsupported_stop unit (visit fuel node).
Proof.
  assert (Hraise : forall s e,
             (forall u, e <> NotImplementedError u) -> unsupported_stop s e s).
  { intros s e He. exists []. split; [symmetry; apply app_nil_r|].
    destruct e; [exfalso; eapply He; reflexivity|constructor..]. }
  apply visit_sound; try (intros; apply Hraise; discriminate);
    auto using supported_step_refl, supported_step_update.
  - apply supported_step_trans.
  - apply unsupported_stop_trans.
  - intros s s'. eapply supported_step_bracket; reflexivity.
  - intros s e s'. eapply unsupported_stop_bracket; reflexivity.
  - intros n s s' Hn. eapply supported_step_bracket;
      [apply log_entered|reflexivity| |reflexivity].
    unfold enters_unsupported. simpl. rewrite Hn. reflexivity.
  - intros n s e s' Hn. eapply unsupported_stop_bracket;
      [apply log_entered|reflexivity| |reflexivity].
    unfold enters_unsupported. simpl. rewrite Hn. reflexivity.
  - intros n s Hn. eexists. split; [simpl; rewrite <- app_assoc; reflexivity|].
    split; [exact Hn|]. eexists [], _, [_]. repeat split; try constructor;
      try reflexivity. constructor.
Qed.

(* ================================================================== *)
(** * The flag [has_unicode_literals] *)
(* ================================================================== *)

(** The point records a call of [visit] on an import statement that asks
    for [unicode_literals]. *)
Definition requests_at (p : point) : bool :=
  match at_event p with
  | Enter n => requests_flag n
  | _ => false
  end.

(** Such a statement was visited in the part [l] of the log. *)
Definition requested (l : list point) : bool := existsb requests_at l.

(** At each point of the log, the flag says whether such a statement was
    visited before that point. *)
Definition flag_follows_log (l : list point) : Prop :=
  forall l1 p l2,
    l = l1 ++ p :: l2 -> has_unicode_literals (at_self p) = requested l1.

Definition flag_tracked (s : state) : Prop :=
  has_unicode_literals (self s) = requested (log s) /\ flag_follows_log (log s).

Lemma flag_follows_log_snoc (l : list point) (p : point) :
  flag_follows_log l ->
  has_unicode_literals (at_self p) = requested l ->
  flag_follows_log (l ++ [p]).
Proof.
  intros Hl Hp l1 q l2 Heq.
  destruct l2 as [|r l2].
  - apply app_inj_tail in Heq. destruct Heq as [-> ->]. exact Hp.
  - apply (Hl l1 q (removelast (r :: l2))).
    assert (H : removelast ((l1 ++ [q]) ++ r :: l2) = l).
    { rewrite <- app_assoc. simpl. rewrite <- Heq. apply removelast_last. }
    rewrite <- H. rewrite removelast_app by discriminate.
    rewrite <- app_assoc. reflexivity.
Qed.

Lemma requested_snoc (l : list point) (p : point) :
  requested (l ++ [p]) = (requested l || requests_at p)%bool.
Proof.
  unfold requested. rewrite existsb_app. simpl. rewrite orb_false_r.
  reflexivity.
Qed.

(** An event that leaves the flag alone and is no visit of a requesting
    statement. *)
Lemma flag_tracked_record (ev : event) (stack : list entry) (d : nat)
    (s : state) :
  match ev with Enter n => requests_flag n = false | _ => True end ->
  flag_tracked s -> flag_tracked (record ev stack d s).
Proof.
  intros Hev [Hf Hl]. split; simpl.
  - rewrite requested_snoc, Hf.
    unfold requests_at. simpl. destruct ev; rewrite ?Hev, orb_false_r;
      reflexivity.
  - apply flag_follows_log_snoc; [exact Hl|exact Hf].
Qed.

Lemma flag_tracked_update (f : Decompiler -> Decompiler) (s : state) :
  (forall d, has_unicode_literals (f d) = has_unicode_literals d) ->
  flag_tracked s <-> flag_tracked (update f s).
Proof.
  intro Hf. unfold flag_tracked. simpl. rewrite Hf. tauto.
Qed.

Lemma flag_tracked_entered (n : AST) (s : state) :
  flag_tracked s -> flag_tracked (entered n s).
Proof.
  intros [Hf Hl]. unfold entered.
  destruct (requests_flag n) eqn:Hn.
  - split; simpl.
    + rewrite requested_snoc. unfold requests_at. simpl. rewrite Hn.
      symmetry. apply orb_true_r.
    + apply flag_follows_log_snoc; [exact Hl|exact Hf].
  - apply flag_tracked_record; [exact Hn|split; assumption].
Qed.

(** Every run of [visit] keeps the flag in step with the log. *)
Theorem visit_flag_tracked (fuel : nat) (node : AST) (s : state) :
  flag_tracked s -> flag_tracked (state_of (visit fuel node s)).
Proof.
  assert (H : @sound (fun s s' => flag_tracked s -> flag_tracked s')
                (fun s _ s' => flag_tracked s -> flag_tracked s') unit
                (visit fuel node)).
  { apply visit_sound; auto.
    - intros s0 s' H H0. apply flag_tracked_record; [exact I|].
      apply H, flag_tracked_record; [exact I|exact H0].
    - intros s0 _ s' H H0. apply flag_tracked_record; [exact I|].
      apply H, flag_tracked_record; [exact I|exact H0].
    - intros n s0 s' _ H H0. apply flag_tracked_record; [exact I|].
      apply H, flag_tracked_entered, H0.
    - intros n s0 _ s' _ H H0. apply flag_tracked_record; [exact I|].
      apply H, flag_tracked_entered, H0.
    - intros n s0 Hn H0. apply flag_tracked_record; [exact I|].
      apply flag_tracked_record; [|exact H0].
      destruct n; try reflexivity; discriminate. }
  specialize (H s). destruct (visit fuel node s); apply H.
Qed.

(* ================================================================== *)
(** * The claims *)
(* ================================================================== *)

(** ** Round trip (C1) *)

(** [ast.parse("(lambda: 1) and 2")]. *)
Definition lambda_and_two : AST :=
  Module [Expr (BoolOp (Operator BoolAnd)
                  [Lambda (arguments [] None None []) (Num (Py.PyInt 1));
                   Num (Py.PyInt 2)])].

(** [ast.parse("lambda: 1 and 2")]. *)
Definition lambda_of_and : AST :=
  Module [Expr (Lambda (arguments [] None None [])
                  (BoolOp (Operator BoolAnd)
                     [Num (Py.PyInt 1); Num (Py.PyInt 2)]))].

(** C1, at the failing input: the tree of [(lambda: 1) and 2] is written as
    [lambda: 1 and 2], the text that is also written for the different tree
    of [lambda: 1 and 2]; whatever the parser does with that text, it
    cannot give back both trees. *)
Theorem C1_lambda_operand_of_and_loses_its_parentheses :
  decompile lambda_and_two 4 100 = inl ("lambda: 1 and 2" ++ Py.newline)%string
  /\ decompile lambda_of_and 4 100 = inl ("lambda: 1 and 2" ++ Py.newline)%string
  /\ lambda_and_two <> lambda_of_and.
Proof.
  split; [vm_compute; reflexivity|].
  split; [vm_compute; reflexivity|discriminate].
Qed.

(** ** The ancestry stack (C5) *)

Definition stack_is_depthb (p : point) : bool :=
  Nat.eqb (List.length (node_stack (at_self p))) (at_depth p).

Lemma stack_is_depthb_true (l : list point) :
  Forall stack_is_depth l -> forallb stack_is_depthb l = true.
Proof.
  intro H. apply forallb_forall. rewrite Forall_forall in H.
  intros p Hp. apply Nat.eqb_eq, H, Hp.
Qed.

(** C5, as stated, fails while the arguments of a call are written: in
    the traversal of [f(x)], [x] is visited at depth 2 with three entries
    on the stack (the call, the [_CallArgs] marker, and [x]). *)
Lemma C5_counterexample :
  ~ Forall stack_is_depth
      (log (state_of (visit 3 (Call (Name "f") [Name "x"] [] None None)
                        (init 4 100)))).
Proof.
  intro H. apply stack_is_depthb_true in H. vm_compute in H. discriminate.
Qed.

(** C5, amended: at every point of a traversal, the ancestry stack is as
    long as the recursion of [visit] is deep, plus one for each
    [_CallArgs] marker that [visit_Call] has on the stack; so the two are
    equal wherever no marker is on the stack. *)
Theorem C5_stack_length_is_depth_plus_markers (fuel : nat) (ast : AST)
    (indentation line_length : Z) :
  Forall
    (fun p =>
       List.length (node_stack (at_self p))
       = (at_depth p + markers (node_stack (at_self p)))%nat
       /\ (markers (node_stack (at_self p)) = 0%nat -> stack_is_depth p))
    (log (state_of (visit fuel ast (init indentation line_length)))).
Proof.
  assert (H : all_balanced (init indentation line_length)).
  { split; [reflexivity|constructor]. }
  apply (visit_balanced fuel ast) in H. destruct H as [_ H].
  eapply Forall_impl; [|exact H].
  intros p Hp. split; [exact Hp|].
  unfold stack_is_depth. unfold point_balanced, balanced in Hp. lia.
Qed.

(** ** Nodes without a method (C7) *)

(** C7: a call of [visit] on a node without a method raises
    [NotImplementedError] at once, having written nothing; and when a
    traversal comes to such a node, the whole traversal ends with that
    exception, no node is entered after it, and [decompile] returns the
    exception and no text. *)
Theorem C7_unsupported_node_aborts (fuel : nat) (ast : AST)
    (indentation line_length : Z) (u : AST) (p : point) :
  supported u = false ->
  In p (log (state_of (visit fuel ast (init indentation line_length)))) ->
  at_event p = Enter u ->
  (forall fuel' s,
      visit (S fuel') u s
      = Raises (NotImplementedError u) (pop_node (push_node u s)))
  /\ exists s',
      visit fuel ast (init indentation line_length)
      = Raises (NotImplementedError u) s'
      /\ stopped_at u (log s')
      /\ decompile_within fuel ast indentation line_length
         = inr (NotImplementedError u).
Proof.
  intros Hu Hp Hev. split.
  { intros fuel' s. destruct u; try discriminate. reflexivity. }
  pose proof (visit_unsupported fuel ast (init indentation line_length)) as H.
  unfold decompile_within.
  assert (Hbad : enters_unsupported p = true).
  { unfold enters_unsupported. rewrite Hev, Hu. reflexivity. }
  destruct (visit fuel ast (init indentation line_length)) as [[] s'|e s'];
    simpl in H, Hp.
  - destruct H as [t [Hl Ht]]. simpl in Hl. subst t.
    unfold all_supported in Ht. rewrite Forall_forall in Ht.
    rewrite (Ht p Hp) in Hbad. discriminate.
  - destruct H as [t [Hl Ht]]. simpl in Hl. subst t.
    assert (He : e = NotImplementedError u /\ stopped_at u (log s')).
    { destruct e;
        try (unfold all_supported in Ht; rewrite Forall_forall in Ht;
             rewrite (Ht p Hp) in Hbad; discriminate).
      pose proof Ht as [Hn [t1 [q [t2 [Hlog [Hq [F1 F2]]]]]]].
      rewrite Hlog in Hp. apply in_app_iff in Hp.
      destruct Hp as [Hp|[Hp|Hp]].
      - unfold all_supported in F1. rewrite Forall_forall in F1.
        rewrite (F1 p Hp) in Hbad. discriminate.
      - subst q. rewrite Hev in Hq. injection Hq as <-. auto.
      - rewrite Forall_forall in F2. specialize (F2 p Hp).
        unfold is_exit in F2. rewrite Hev in F2. discriminate. }
    destruct He as [-> Hs]. exists s'. auto.
Qed.

(** A module whose second statement has no method. *)
Lemma C7_witness :
  exists s',
    visit 3 (Module [Expr (Name "x"); Suite [Pass]; Expr (Name "y")])
      (init 4 100)
    = Raises (NotImplementedError (Suite [Pass])) s'
    /\ decompile_within 3
         (Module [Expr (Name "x"); Suite [Pass]; Expr (Name "y")]) 4 100
       = inr (NotImplementedError (Suite [Pass])).
Proof.
  destruct (@C7_unsupported_node_aborts 3
              (Module [Expr (Name "x"); Suite [Pass]; Expr (Name "y")])
              4 100 (Suite [Pass])
              (mkPoint (Enter (Suite [Pass]))
                 (set_node_stack
                    [ENode (Module [Expr (Name "x"); Suite [Pass];
                                    Expr (Name "y")]);
                     ENode (Suite [Pass])]
                    (set_lines [("x" ++ Py.newline)%string]
                       (Decompiler_init 4 100)))
                 2))
    as [_ [s' [H1 [_ H2]]]].
  - reflexivity.
  - vm_compute. do 5 right. left. reflexivity.
  - reflexivity.
  - exists s'. split; assumption.
Defined.

(** ** The bound on the depth of the recursion *)




(** ** Literals after [from __future__ import unicode_literals] (C6) *)

(** The two kinds of value that a string literal has in Python 2: a
    [unicode] is text, a [str] is a byte string ([bytes is str]). *)
Definition is_byte_string (literal : Py.text) : bool :=
  Py.isinstance_str literal.

(** [ast.parse("from __future__ import unicode_literals\n'y'\nb'x'")]:
    under the directive the parser gives the first literal a [unicode]
    value and the second a [str] value. *)
Definition text_and_bytes_after_directive : AST :=
  Module [ImportFrom (Some "__future__") [alias "unicode_literals" None]
            (Some 0);
          Expr (Str (Py.PyUnicode (Py.code_points_of "y")));
          Expr (Str (Py.PyStr "x"))].

(** C6, as stated, fails: after the directive, the literal whose value is
    text is written without the marker (as [u'y'], its [repr]), and the
    literal whose value is a byte string is written with it. *)
Lemma C6_counterexample :
  is_byte_string (Py.PyUnicode (Py.code_points_of "y")) = false
  /\ is_byte_string (Py.PyStr "x") = true
  /\ decompile text_and_bytes_after_directive 4 100
     = inl ("from __future__ import unicode_literals" ++ Py.newline
            ++ "u'y'" ++ Py.newline
            ++ "b'x'" ++ Py.newline)%string.
Proof. repeat split; vm_compute; reflexivity. Qed.

(** C6, amended: at the point [p] of a traversal where a string literal is
    visited, with [l1] the log of the traversal so far, the method of the
    literal writes the marker [b] before the literal exactly when an import
    statement asking for [unicode_literals] was visited earlier in the
    traversal and the value is a byte string (a [str], not a [unicode]);
    literals visited before the statement get no marker. *)
Theorem C6_marker_follows_the_directive (fuel : nat) (ast : AST)
    (indentation line_length : Z) (l1 l2 : list point) (p : point)
    (literal : Py.text) (s : state) :
  log (state_of (visit fuel ast (init indentation line_length)))
  = l1 ++ p :: l2 ->
  at_event p = Enter (Str literal) ->
  self s = at_self p ->
  exists s',
    visit_Str literal s = Returns tt s'
    /\ current_line (self s')
       = current_line (at_self p)
           ++ (if (requested l1 && is_byte_string literal)%bool
               then ["b"] else [])
           ++ [Py.repr_text literal].
Proof.
  intros Hlog Hev Hs. unfold is_byte_string.
  assert (H : flag_tracked (init indentation line_length)).
  { split; [reflexivity|]. intros [|? ?] ? ? Heq; discriminate. }
  apply (visit_flag_tracked fuel ast) in H. destruct H as [_ H].
  specialize (H l1 p l2 Hlog).
  unfold visit_Str, bind, gets, when. rewrite Hs, H.
  destruct (requested l1 && Py.isinstance_str literal)%bool;
    eexists; (split; [reflexivity|]); simpl; rewrite Hs;
    rewrite <- ?app_assoc; reflexivity.
Qed.

(** [ast.parse("'a'\nfrom __future__ import unicode_literals\n'b'")], whose
    two literals are values of [str]. *)
Definition literals_around_directive : AST :=
  Module [Expr (Str (Py.PyStr "a"));
          ImportFrom (Some "__future__") [alias "unicode_literals" None]
            (Some 0);
          Expr (Str (Py.PyStr "b"))].

Definition log_around_directive : list point :=
  log (state_of (visit 3 literals_around_directive (init 4 100))).

(** The literal before the statement is written as ['a'], the one after it
    as [b'b']. *)
Definition point_around_directive (k : nat) : point :=
  nth k log_around_directive (mkPoint Leave (Decompiler_init 4 100) 0).

Lemma C6_witness :
  (exists s',
     visit_Str (Py.PyStr "a") (mkState (at_self (point_around_directive 2)) 3 [])
     = Returns tt s'
     /\ current_line (self s') = [EmptyString; "'a'"])
  /\ (exists s',
        visit_Str (Py.PyStr "b")
          (mkState (at_self (point_around_directive 10)) 3 [])
        = Returns tt s'
        /\ current_line (self s') = [EmptyString; "b"; "'b'"]).
Proof.
  split.
  - destruct (@C6_marker_follows_the_directive 3 literals_around_directive
                4 100 (firstn 2 log_around_directive)
                (skipn 3 log_around_directive) (point_around_directive 2)
                (Py.PyStr "a")
                (mkState (at_self (point_around_directive 2)) 3 []))
      as [s' [Hv Hc]]; try (vm_compute; reflexivity).
    exists s'. split; [exact Hv|]. rewrite Hc. vm_compute. reflexivity.
  - destruct (@C6_marker_follows_the_directive 3 literals_around_directive
                4 100 (firstn 10 log_around_directive)
                (skipn 11 log_around_directive) (point_around_directive 10)
                (Py.PyStr "b")
                (mkState (at_self (point_around_directive 10)) 3 []))
      as [s' [Hv Hc]]; try (vm_compute; reflexivity).
    exists s'. split; [exact Hv|]. rewrite Hc. vm_compute. reflexivity.
Defined.

Example decompile_literals_around_directive :
  decompile literals_around_directive 4 100
  = inl ("'a'" ++ Py.newline
         ++ "from __future__ import unicode_literals" ++ Py.newline
         ++ "b'b'" ++ Py.newline)%string.
Proof. vm_compute. reflexivity. Qed.

(** ** Parentheses (C3, C4) *)

(** [visit(node)] with the method it dispatches to written out: push, run
    the method, pop. *)
Definition visiting (node : AST) (method : M unit) : M unit :=
  effect (push_node node) ;; try_finally method pop_node.

(** The code between parentheses. *)
Definition parenthesized (code : M unit) : M unit :=
  write "(" ;; code ;; write ")".

Lemma visit_unfold (fuel : nat) (node : AST) :
  visit (S fuel) node = visiting node (NodeVisitor_visit (visit fuel) node).
Proof. reflexivity. Qed.

(** While the method of [node] runs, the parent is the entry that was on
    top of the stack when [visit(node)] was called. *)
Lemma parent_of_pushed (node : AST) (s : state) (stack : list entry)
    (parent : entry) :
  node_stack (self s) = stack ++ [parent] ->
  get_parent_node (push_node node s)
  = Returns (Some parent) (push_node node s).
Proof.
  intro H. unfold get_parent_node, gets. simpl. rewrite H.
  rewrite !rev_app_distr. reflexivity.
Qed.

Lemma same_object_refl (node : AST) :
  (is_BinOp node || is_IfExp node)%bool = true -> same_object node node = true.
Proof.
  destruct node; try discriminate; intros _; simpl; apply Nat.eqb_refl.
Qed.

(** The methods below step, whatever they are composed of. *)
Lemma steps_ret {A : Type} (a : A) : steps (ret a).
Proof. intro s. apply step_refl. Qed.

Lemma steps_bind {A B : Type} (m : M A) (k : A -> M B) :
  steps m -> (forall a, steps (k a)) -> steps (bind m k).
Proof.
  intros Hm Hk. apply sound_steps.
  apply sound_bind; eauto using step_trans; intros; apply sound_steps; auto.
Qed.

Lemma steps_write (code : string) : steps (write code).
Proof. intro s. apply step_written. Qed.

Lemma steps_write_newline : steps write_newline.
Proof. intro s. apply step_line_closed. Qed.

Lemma steps_attribute {A : Type} (o : option A) : steps (attribute o).
Proof. destruct o; intro s; apply step_refl. Qed.

Lemma steps_when (b : bool) (m : M unit) : steps m -> steps (when b m).
Proof. destruct b; simpl; auto using steps_ret. Qed.

Lemma steps_for_each {A : Type} (f : A -> M unit) (l : list A) :
  (forall x, steps (f x)) -> steps (for_each f l).
Proof.
  intro H. induction l; simpl; auto using steps_ret, steps_bind.
Qed.

Lemma steps_BinOp_code (fuel : nat) (l op r : AST) :
  steps (BinOp_code (visit fuel) l op r).
Proof.
  unfold BinOp_code.
  repeat (apply steps_bind; [|intros _]);
    auto using steps_write, visit_steps.
Qed.

Lemma steps_Lambda_code (fuel : nat) (args body : AST) :
  steps (Lambda_code (visit fuel) args body).
Proof.
  unfold Lambda_code.
  repeat (apply steps_bind; [|intro]);
    auto using steps_write, visit_steps, steps_attribute, steps_when.
Qed.

Lemma steps_IfExp_code (fuel : nat) (test body orelse : AST) :
  steps (IfExp_code (visit fuel) test body orelse).
Proof.
  unfold IfExp_code.
  repeat (apply steps_bind; [|intros _]);
    auto using steps_write, visit_steps.
Qed.

(** What a parenthesized expression adds to the text: an opening
    parenthesis, the text of the expression, a closing parenthesis. *)
Lemma parenthesized_text (node : AST) (code : M unit) (s s' : state) :
  steps code ->
  visiting node (parenthesized code) s = Returns tt s' ->
  exists w, emitted s' = (emitted s ++ "(" ++ w ++ ")")%string.
Proof.
  intros Hc. unfold visiting, parenthesized, bind, effect, try_finally.
  rewrite write_eq.
  specialize (Hc (update (written "(") (push_node node s))).
  destruct (code (update (written "(") (push_node node s))) as [[] s2|e s2];
    [|discriminate].
  rewrite write_eq. intro H. injection H as <-.
  cbn [state_of] in Hc. destruct Hc as [_ [w Hw]]. exists w.
  change (emitted (pop_node (update (written ")") s2)))
    with (emitted (update (written ")") s2)).
  rewrite emitted_written, Hw, emitted_written.
  change (emitted (push_node node s)) with (emitted s).
  rewrite !append_assoc. reflexivity.
Qed.

(** The classes of parent that C3 names: the binary, unary and comparison
    operators, and (for the child that [visit] is called on with this
    parent on top of the stack, which for a call is the callee only) the
    call, the attribute access and the subscript. *)
Definition operator_or_base (parent : AST) : bool :=
  (is_BinOp parent || is_UnaryOp parent || is_Compare parent
   || is_Attribute parent || is_Subscript parent || is_Call parent)%bool.

(** The [test] or the [body] (the "true" branch) of a conditional
    expression. *)
Definition test_or_body_of (parent node : AST) : Prop :=
  exists obj test body orelse,
    parent = IfExp obj test body orelse /\ (node = test \/ node = body).

(** A lambda or a conditional expression without parentheses of its own. *)
Definition bare_code (fuel : nat) (node : AST) : M unit :=
  match node with
  | Lambda args body => Lambda_code (visit fuel) args body
  | IfExp _ test body orelse => IfExp_code (visit fuel) test body orelse
  | _ => ret tt
  end.

Lemma steps_bare_code (fuel : nat) (node : AST) : steps (bare_code fuel node).
Proof.
  destruct node; simpl;
    auto using steps_ret, steps_Lambda_code, steps_IfExp_code.
Qed.

(** The children that C3 says are written between parentheses under
    [parent]: a lambda or a conditional expression under an operator or a
    base, and a conditional expression that is the [test] or the [body] of
    its parent (as [visit_IfExp] tests it: the same object). *)
Definition in_parentheses (parent child : AST) : bool :=
  ((is_Lambda child || is_IfExp child) && operator_or_base parent)
  || (is_IfExp child
      && match parent with
         | IfExp _ test body _ =>
             same_object child test || same_object child body
         | _ => false
         end).

(** With [parent] on top of the stack, the visit of such a child is the
    child's code between parentheses. *)
Lemma parenthesized_under (fuel : nat) (s : state) (stack : list entry)
    (parent node : AST) :
  node_stack (self s) = stack ++ [ENode parent] ->
  in_parentheses parent node = true ->
  visit (S fuel) node s = visiting node (parenthesized (bare_code fuel node)) s.
Proof.
  intros Hstack H.
  rewrite visit_unfold. unfold visiting, effect.
  unfold bind at 1. symmetry. unfold bind at 1. symmetry.
  destruct node; try discriminate H; cbn [NodeVisitor_visit].
  - unfold visit_Lambda, try_finally, bind at 1.
    rewrite (@parent_of_pushed _ _ _ _ Hstack).
    replace (Lambda_should_parenthesize (Some (ENode parent))) with true;
      [reflexivity|].
    destruct parent; try discriminate H; reflexivity.
  - unfold visit_IfExp, try_finally, bind at 1.
    rewrite (@parent_of_pushed _ _ _ _ Hstack).
    replace (IfExp_should_parenthesize (IfExp obj node1 node2 node3)
               (Some (ENode parent))) with true; [reflexivity|].
    destruct parent; try discriminate H; try reflexivity.
    symmetry. exact H.
Qed.

(** The visit of an operand or a base, as C3 describes it: between
    parentheses where C3 says so, and the plain visit otherwise. *)
Definition operand_visit (fuel : nat) (parent child : AST) : M unit :=
  if in_parentheses parent child
  then visiting child (parenthesized (bare_code fuel child))
  else visit (S fuel) child.

(** The parents all of whose children are visited with the parent on top
    of the stack. *)
Definition operand_parent (parent : AST) : bool :=
  (is_BinOp parent || is_UnaryOp parent || is_Compare parent
   || is_Attribute parent || is_Subscript parent || is_IfExp parent)%bool.

(** What [visit_Call] does after the visit of the callee. *)
Definition Call_arguments (visit : AST -> M unit) (args keywords : list AST)
    (starargs kwargs : option AST) : M unit :=
  write "(" ;;
  effect push_CallArgs ;;
  try_finally (
    let args := Call_args args keywords starargs kwargs in
    when (nonempty args)
      (write_expression_list visit args ", " true false false) ;;
    write ")") pop_CallArgs.

(** [parent] is on top of the stack. *)
Definition under (parent : AST) (s : state) : Prop :=
  exists stack, node_stack (self s) = stack ++ [ENode parent].

(** Two pieces of code do the same wherever [parent] is on top of the
    stack. *)
Definition agree {A : Type} (parent : AST) (m1 m2 : M A) : Prop :=
  forall s, under parent s -> m1 s = m2 s.

Lemma under_step (parent : AST) (s s' : state) :
  step s s' -> under parent s -> under parent s'.
Proof.
  intros [Hf _] [stack H]. exists stack.
  rewrite (frame_node_stack Hf). exact H.
Qed.

Lemma agree_refl {A : Type} (parent : AST) (m : M A) : agree parent m m.
Proof. intros s _. reflexivity. Qed.

Lemma agree_bind {A B : Type} (parent : AST) (m1 m2 : M A)
    (k1 k2 : A -> M B) :
  steps m1 -> agree parent m1 m2 -> (forall a, agree parent (k1 a) (k2 a)) ->
  agree parent (bind m1 k1) (bind m2 k2).
Proof.
  intros Hsteps Hm Hk s Hs. unfold bind. rewrite <- (Hm s Hs).
  specialize (Hsteps s).
  destruct (m1 s) as [a s1|e s1]; [|reflexivity].
  apply Hk. eapply under_step; [exact Hsteps|exact Hs].
Qed.

Lemma agree_for_each {A : Type} (parent : AST) (f1 f2 : A -> M unit)
    (l : list A) :
  (forall x, steps (f1 x)) -> (forall x, agree parent (f1 x) (f2 x)) ->
  agree parent (for_each f1 l) (for_each f2 l).
Proof.
  intros Hsteps Hf. induction l as [|x l IH]; cbn [for_each].
  - apply agree_refl.
  - apply agree_bind; auto.
Qed.

Lemma agree_parenthesize_if (parent : AST) (condition : bool)
    (m1 m2 : M unit) :
  steps m1 -> agree parent m1 m2 ->
  agree parent (parenthesize_if condition m1) (parenthesize_if condition m2).
Proof.
  intros Hsteps Hm. destruct condition; cbn [parenthesize_if]; [|exact Hm].
  apply agree_bind; [apply steps_write|apply agree_refl|intros _].
  apply agree_bind; [exact Hsteps|exact Hm|intros _; apply agree_refl].
Qed.

Lemma agree_operand (fuel : nat) (parent child : AST) :
  agree parent (visit (S fuel) child) (operand_visit fuel parent child).
Proof.
  intros s [stack Hs]. unfold operand_visit.
  destruct (in_parentheses parent child) eqn:H; [|reflexivity].
  eapply parenthesized_under; eassumption.
Qed.

Lemma steps_unchanged {A : Type} (m : M A) :
  (forall s, state_of (m s) = s) -> steps m.
Proof. intros H s. rewrite H. apply step_refl. Qed.

Lemma steps_precedence_of_node (x : option entry) :
  steps (precedence_of_node x).
Proof.
  apply steps_unchanged. intro s. unfold precedence_of_node.
  destruct x as [[n|]|]; try reflexivity.
  destruct n; try reflexivity; destruct (PRECEDENCE _); reflexivity.
Qed.

Lemma steps_get_parent_node : steps get_parent_node.
Proof. apply steps_unchanged. reflexivity. Qed.

Lemma steps_BinOp_should_parenthesize (node op : AST) :
  steps (BinOp_should_parenthesize node op).
Proof.
  unfold BinOp_should_parenthesize.
  apply steps_bind; [apply steps_get_parent_node|intro p].
  apply steps_bind; [apply steps_precedence_of_node|intro a].
  apply steps_bind; [apply steps_precedence_of_node|intro b].
  destruct (a <? b); [apply steps_ret|].
  destruct (a =? b); [|apply steps_ret].
  destruct (is_Pow op);
    (apply steps_bind; [apply steps_attribute|intro; apply steps_ret]).
Qed.

Ltac solve_steps :=
  repeat first
    [ apply visit_steps | apply steps_write | apply steps_ret
    | apply steps_precedence_of_node | apply steps_get_parent_node
    | apply steps_BinOp_should_parenthesize
    | apply steps_for_each; intros [? ?]
    | apply steps_bind; [|intro] ].

Ltac agree_step :=
  first
    [ apply agree_operand
    | apply agree_refl
    | apply agree_parenthesize_if; [solve_steps|]
    | apply agree_for_each; [intros [? ?]; solve_steps|intros [? ?]]
    | apply agree_bind; [solve_steps| |intro] ].

(** The methods of the operators, of the attribute access, of the
    subscript and of the conditional expression visit their children with
    the node on top of the stack: each of these visits is the one C3
    describes. *)
Lemma operands_agree (fuel : nat) (parent : AST) :
  operand_parent parent = true ->
  agree parent (NodeVisitor_visit (visit (S fuel)) parent)
    (NodeVisitor_visit (operand_visit fuel parent) parent).
Proof.
  intro H. destruct parent; try discriminate H; cbn [NodeVisitor_visit];
    unfold visit_BinOp, BinOp_code, visit_UnaryOp, visit_Compare,
      visit_Attribute, visit_Subscript, visit_IfExp, IfExp_code;
    repeat agree_step.
Qed.

(** The trees of [(lambda: x) + y], [y + (lambda: x)], [-(lambda: x)],
    [(lambda: x) < y], [y < (lambda: x)], [(lambda: x)(y)],
    [(lambda: x).a] and [(lambda: x)[y]], and of the same expressions with
    [a if b else c] for the lambda, as the parser builds them; then
    [(a if b else c) if d else e], where the inner expression is the
    "true" branch, and [d if (a if b else c) else e], where it is the
    test. *)
Definition a_lambda : AST := Lambda (arguments [] None None []) (Name "x").

Definition a_conditional : AST := IfExp 0 (Name "b") (Name "a") (Name "c").

Definition statement (expression : AST) : AST := Module [Expr expression].

Definition as_operand (x : AST) : list AST :=
  [ BinOp 1 x (Operator Add) (Name "y");
    BinOp 1 (Name "y") (Operator Add) x;
    UnaryOp (Operator USub) x;
    Compare x [Operator CmpLt] [Name "y"];
    Compare (Name "y") [Operator CmpLt] [x];
    Call x [Name "y"] [] None None;
    Attribute x "a";
    Subscript x (Index (Name "y")) ].

Definition as_operand_text (x : string) : list string :=
  [ x ++ " + y"; "y + " ++ x; "-" ++ x; x ++ " < y"; "y < " ++ x;
    x ++ "(y)"; x ++ ".a"; x ++ "[y]" ]%string.

Definition decompiled (expression : AST) : string + exn :=
  decompile (statement expression) 4 100.

Definition line (text : string) : string + exn :=
  inl (text ++ Py.newline)%string.

(** C3: a lambda or a conditional expression that is visited as a child of
    a binary, unary or comparison operator, or as the callee of a call or
    the base of an attribute access or subscript, is written between
    parentheses; so is a conditional expression that is the test or the
    "true" branch of a conditional expression.  The text of a visit that
    returns is the text before it, an opening parenthesis, the text of the
    expression, and a closing parenthesis.  The method of a binary, unary
    or comparison operator, of an attribute access, of a subscript or of a
    conditional expression visits each of its children in that way, and
    the method of a call visits the callee in that way, before it writes
    the arguments.  The expressions of [as_operand], decompiled as
    statements of a module, have the lambda or the conditional expression
    between parentheses, and so have [(a if b else c) if d else e] and
    [d if (a if b else c) else e]. *)
Theorem C3_lambda_and_ifexp_are_parenthesized :
  (forall (fuel : nat) (s : state) (stack : list entry) (parent node : AST),
      node_stack (self s) = stack ++ [ENode parent] ->
      (is_Lambda node = true /\ operator_or_base parent = true)
      \/ (is_IfExp node = true
          /\ (operator_or_base parent = true \/ test_or_body_of parent node)) ->
      visit (S fuel) node s
      = visiting node (parenthesized (bare_code fuel node)) s
      /\ forall s',
          visit (S fuel) node s = Returns tt s' ->
          exists w, emitted s' = (emitted s ++ "(" ++ w ++ ")")%string)
  /\ (forall (fuel : nat) (parent : AST) (s : state),
        operand_parent parent = true ->
        visit (S (S fuel)) parent s
        = visiting parent
            (NodeVisitor_visit (operand_visit fuel parent) parent) s)
  /\ (forall (fuel : nat) (func : AST) (args keywords : list AST)
        (starargs kwargs : option AST) (s : state),
        visit (S (S fuel)) (Call func args keywords starargs kwargs) s
        = visiting (Call func args keywords starargs kwargs)
            (operand_visit fuel (Call func args keywords starargs kwargs) func ;;
             Call_arguments (visit (S fuel)) args keywords starargs kwargs) s)
  /\ (forall (parent x : AST),
        operator_or_base parent = true ->
        (is_Lambda x || is_IfExp x)%bool = true ->
        in_parentheses parent x = true)
  /\ (forall (obj : nat) (test body orelse : AST),
        (is_IfExp test = true ->
         in_parentheses (IfExp obj test body orelse) test = true)
        /\ (is_IfExp body = true ->
            in_parentheses (IfExp obj test body orelse) body = true))
  /\ map decompiled (as_operand a_lambda)
     = map line (as_operand_text "(lambda: x)")
  /\ map decompiled (as_operand a_conditional)
     = map line (as_operand_text "(a if b else c)")
  /\ decompiled (IfExp 1 (Name "d") a_conditional (Name "e"))
     = line "(a if b else c) if d else e"
  /\ decompiled (IfExp 1 a_conditional (Name "d") (Name "e"))
     = line "d if (a if b else c) else e".
Proof.
  assert (Hin : forall parent x,
             operator_or_base parent = true ->
             (is_Lambda x || is_IfExp x)%bool = true ->
             in_parentheses parent x = true).
  { intros parent x Hp Hx. unfold in_parentheses. rewrite Hp, Hx. reflexivity. }
  assert (Hbranch : forall obj test body orelse,
             (is_IfExp test = true ->
              in_parentheses (IfExp obj test body orelse) test = true)
             /\ (is_IfExp body = true ->
                 in_parentheses (IfExp obj test body orelse) body = true)).
  { intros obj test body orelse. unfold in_parentheses.
    split; intro H; rewrite H;
      rewrite same_object_refl by (rewrite H; apply orb_true_r);
      cbn [andb orb]; rewrite ?orb_true_r; reflexivity. }
  split; [|split; [|split; [|split; [exact Hin|split; [exact Hbranch|]]]]].
  - intros fuel s stack parent node Hstack Hcase.
    assert (Heq : visit (S fuel) node s
                  = visiting node (parenthesized (bare_code fuel node)) s).
    { apply (@parenthesized_under fuel s stack parent node Hstack).
      destruct Hcase as [[Hn Hp]|[Hn [Hp|[j [t [b [o [-> Hp]]]]]]]].
      - apply Hin; [exact Hp|rewrite Hn; reflexivity].
      - apply Hin; [exact Hp|rewrite Hn; apply orb_true_r].
      - destruct Hp as [<-|<-]; apply Hbranch; exact Hn. }
    split; [exact Heq|].
    intros s' Hs'. rewrite Heq in Hs'.
    eapply parenthesized_text; [apply steps_bare_code|exact Hs'].
  - intros fuel parent s H. rewrite visit_unfold.
    unfold visiting, effect. unfold bind at 1. symmetry. unfold bind at 1.
    symmetry. unfold try_finally.
    rewrite (@operands_agree fuel parent H (push_node parent s));
      [reflexivity|].
    exists (node_stack (self s)). reflexivity.
  - intros fuel func args keywords starargs kwargs s. rewrite visit_unfold.
    unfold visiting, effect. unfold bind at 1. symmetry. unfold bind at 1.
    symmetry. unfold try_finally. cbn [NodeVisitor_visit].
    change (visit_Call (visit (S fuel)) func args keywords starargs kwargs)
      with (visit (S fuel) func ;;
            Call_arguments (visit (S fuel)) args keywords starargs kwargs).
    assert (Hag : agree (Call func args keywords starargs kwargs)
              (visit (S fuel) func ;;
               Call_arguments (visit (S fuel)) args keywords starargs kwargs)
              (operand_visit fuel (Call func args keywords starargs kwargs)
                 func ;;
               Call_arguments (visit (S fuel)) args keywords starargs kwargs))
      by (apply agree_bind;
          [apply visit_steps|apply agree_operand|intros _; apply agree_refl]).
    rewrite (Hag (push_node (Call func args keywords starargs kwargs) s));
      [reflexivity|].
    exists (node_stack (self s)). reflexivity.
  - repeat split; vm_compute; reflexivity.
Qed.

(** [(lambda: x)(y)] and [(a if b else c) + d]: the stack holds the parent
    when the child is visited. *)
Lemma C3_witness :
  (forall s',
     visit 3 (Lambda (arguments [] None None []) (Name "x"))
       (push_node (Call (Name "f") [] [] None None) (init 4 100))
     = Returns tt s' ->
     exists w, emitted s' = ("(" ++ w ++ ")")%string)
  /\ (forall s',
        visit 3 (IfExp 0 (Name "b") (Name "a") (Name "c"))
          (push_node (BinOp 1 (IfExp 0 (Name "b") (Name "a") (Name "c"))
                        (Operator Add) (Name "d")) (init 4 100))
        = Returns tt s' ->
        exists w, emitted s' = ("(" ++ w ++ ")")%string).
Proof.
  split.
  - apply (proj1 C3_lambda_and_ifexp_are_parenthesized 2%nat
             (push_node (Call (Name "f") [] [] None None) (init 4 100))
             [] (Call (Name "f") [] [] None None)
             (Lambda (arguments [] None None []) (Name "x")));
      [reflexivity|left; split; reflexivity].
  - apply (proj1 C3_lambda_and_ifexp_are_parenthesized 2%nat
             (push_node (BinOp 1 (IfExp 0 (Name "b") (Name "a") (Name "c"))
                           (Operator Add) (Name "d")) (init 4 100))
             [] (BinOp 1 (IfExp 0 (Name "b") (Name "a") (Name "c"))
                   (Operator Add) (Name "d"))
             (IfExp 0 (Name "b") (Name "a") (Name "c")));
      [reflexivity|right; split; [reflexivity|left; reflexivity]].
Defined.

(** The trees of [(a ** b) ** c], [a ** (b ** c)], [(a - b) - c] and
    [a - (b - c)], as the parser builds them: each node its own object. *)
Definition power_grouped_left : AST :=
  Module [Expr (BinOp 1 (BinOp 0 (Name "a") (Operator Pow) (Name "b"))
                  (Operator Pow) (Name "c"))].

Definition power_grouped_right : AST :=
  Module [Expr (BinOp 1 (Name "a") (Operator Pow)
                  (BinOp 0 (Name "b") (Operator Pow) (Name "c")))].

Definition minus_grouped_left : AST :=
  Module [Expr (BinOp 1 (BinOp 0 (Name "a") (Operator Sub) (Name "b"))
                  (Operator Sub) (Name "c"))].

Definition minus_grouped_right : AST :=
  Module [Expr (BinOp 1 (Name "a") (Operator Sub)
                  (BinOp 0 (Name "b") (Operator Sub) (Name "c")))].

(** What [visit_BinOp] decides for a node whose parent is a binary
    operation of the same precedence: for [**], whether the node is the
    parent's left operand; for the other operators, whether it is the
    parent's right operand. *)
Definition at_equal_precedence (node op parent_left parent_right : AST) : bool :=
  if is_Pow op then same_object node parent_left
  else same_object node parent_right.

(** C4: [(a ** b) ** c] is written with parentheses around the left
    operand and [a ** (b ** c)] without parentheses; and whenever a binary
    operation is visited as a child of a binary operation of the same
    precedence, it is parenthesized exactly when it is the left operand
    and the operator is [**], or it is the right operand and the operator
    is another (left-associative) one. *)
Theorem C4_parentheses_at_equal_precedence :
  (decompile power_grouped_left 4 100
   = inl ("(a ** b) ** c" ++ Py.newline)%string
   /\ decompile power_grouped_right 4 100
      = inl ("a ** b ** c" ++ Py.newline)%string
   /\ decompile minus_grouped_left 4 100
      = inl ("a - b - c" ++ Py.newline)%string
   /\ decompile minus_grouped_right 4 100
      = inl ("a - (b - c)" ++ Py.newline)%string)
  /\ forall (fuel : nat) (s : state) (stack : list entry)
       (obj : nat) (l op r : AST) (parent_obj : nat)
       (parent_left parent_op parent_right : AST) (precedence : Z),
      node_stack (self s)
      = stack ++ [ENode (BinOp parent_obj parent_left parent_op parent_right)] ->
      PRECEDENCE (ENode op) = Some precedence ->
      PRECEDENCE (ENode parent_op) = Some precedence ->
      visit (S fuel) (BinOp obj l op r) s
      = visiting (BinOp obj l op r)
          (parenthesize_if
             (at_equal_precedence (BinOp obj l op r) op parent_left parent_right)
             (BinOp_code (visit fuel) l op r)) s
      /\ (is_Pow op = true ->
          (parent_left = BinOp obj l op r ->
           at_equal_precedence (BinOp obj l op r) op parent_left parent_right
           = true)
          /\ (same_object (BinOp obj l op r) parent_left = false ->
              at_equal_precedence (BinOp obj l op r) op parent_left parent_right
              = false))
      /\ (is_Pow op = false ->
          (parent_right = BinOp obj l op r ->
           at_equal_precedence (BinOp obj l op r) op parent_left parent_right
           = true)
          /\ (same_object (BinOp obj l op r) parent_right = false ->
              at_equal_precedence (BinOp obj l op r) op parent_left parent_right
              = false)).
Proof.
  split.
  { repeat split; vm_compute; reflexivity. }
  intros fuel s stack obj l op r parent_obj parent_left parent_op parent_right
    precedence Hstack Hop Hparent.
  split; [|unfold at_equal_precedence; split; intros ->; split;
           [intros ->; simpl; apply Nat.eqb_refl|auto
           |intros ->; simpl; apply Nat.eqb_refl|auto]].
  rewrite visit_unfold. unfold visiting, effect.
  unfold bind at 1. symmetry. unfold bind at 1. symmetry.
  cbn [NodeVisitor_visit].
  unfold visit_BinOp, BinOp_should_parenthesize, try_finally.
  unfold bind at 1 2. rewrite (@parent_of_pushed _ _ _ _ Hstack).
  unfold bind at 1. cbn [precedence_of_node]. rewrite Hop. cbn [ret].
  unfold bind at 1. rewrite Hparent. cbn [ret].
  rewrite Z.ltb_irrefl, Z.eqb_refl.
  unfold at_equal_precedence. cbn [getattr_left getattr_right attribute].
  destruct (is_Pow op); reflexivity.
Qed.

(** ** Lists that do not fit on the line (C2) *)

(** The line in progress is longer than the configured width. *)
Definition overflows (s : state) : bool :=
  max_line_length (self s) <? Py.total_len (current_line (self s)).

(** The state after the reset of [write_expression_list]: the state [s1]
    the inline attempt left, with the buffer put back to the checkpoint
    taken in [s0]. *)
Definition restored (s0 s1 : state) : state :=
  update (reset_state (List.length (lines (self s0))) (current_line (self s0)))
    s1.

(** The state in which the elements are written one per line: the opening
    delimiter (if asked for) is written, the line is closed, and the
    indentation is one level deeper. *)
Definition opened (need_parens : bool) (s : state) : state :=
  update indented
    (update line_closed (if need_parens then update (written "(") s else s)).

(** Each element on a line of its own: starting from an empty line in
    progress, [level] spaces are written, the element is visited, the
    separator is written (after the last element only if [final]), and the
    line is closed. *)
Inductive own_lines (visit : AST -> M unit) (level : Z) (separator : string)
    (final : bool) : list AST -> state -> state -> Prop :=
| own_lines_nil (s : state) :
    own_lines visit level separator final [] s s
| own_lines_cons (x : AST) (rest : list AST) (s s1 s2 : state) :
    current_line (self s) = [] ->
    current_indentation (self s) = level ->
    visit x (update (written (Py.str_mul " " level)) s) = Returns tt s1 ->
    own_lines visit level separator final rest
      (update line_closed
         (if (final || nonempty rest)%bool
          then update (written separator) s1 else s1)) s2 ->
    own_lines visit level separator final (x :: rest) s s2.

Lemma steps_write_inline (fuel : nat) (nodes : list AST) (first : bool)
    (separator : string) (allow_newlines : bool) :
  steps (write_inline (visit fuel) nodes first separator allow_newlines).
Proof.
  apply sound_steps.
  apply sound_write_inline with (G := fun _ => True);
    eauto using step_refl, step_trans, step_written.
  - intros n _. apply sound_steps, visit_steps.
  - apply Forall_forall. auto.
Qed.

(** The inline attempt is left by [break] only with a line that is too
    long. *)
Lemma write_inline_overflows (visit : AST -> M unit) (nodes : list AST)
    (first : bool) (separator : string) (allow_newlines : bool) (s s1 : state) :
  write_inline visit nodes first separator allow_newlines s = Returns true s1 ->
  allow_newlines = true /\ overflows s1 = true.
Proof.
  revert first s. induction nodes as [|x rest IH]; intros first s;
    cbn [write_inline]; [discriminate|].
  unfold bind at 1.
  destruct ((if first then ret tt else write separator) s) as [[] sa|e sa];
    [|discriminate].
  unfold bind at 1. destruct (visit x sa) as [[] sb|e sb]; [|discriminate].
  unfold bind, current_line_length, gets.
  destruct (allow_newlines && _)%bool eqn:Hb.
  - intro H. injection H as <-. apply andb_true_iff in Hb.
    destruct Hb as [-> Hb]. split; [reflexivity|exact Hb].
  - apply IH.
Qed.

(** The attempt is left at the first element that makes the line too
    long: the elements after it are not visited. *)
Lemma write_inline_aborts (visit : AST -> M unit) (before : list AST) (x : AST)
    (after : list AST) (first : bool) (separator : string)
    (allow_newlines : bool) (s s1 : state) :
  write_inline visit (before ++ [x]) first separator allow_newlines s
  = Returns true s1 ->
  write_inline visit (before ++ x :: after) first separator allow_newlines s
  = Returns true s1.
Proof.
  revert first s. induction before as [|y before IH]; intros first s;
    cbn [app write_inline]; unfold bind, current_line_length, gets.
  - destruct ((if first then ret tt else write separator) s) as [[] sa|e sa];
      [|discriminate].
    destruct (visit x sa) as [[] sb|e sb]; [|discriminate].
    destruct (allow_newlines && _)%bool; [auto|discriminate].
  - destruct ((if first then ret tt else write separator) s) as [[] sa|e sa];
      [|discriminate].
    destruct (visit y sa) as [[] sb|e sb]; [|discriminate].
    destruct (allow_newlines && _)%bool; [auto|apply IH].
Qed.

(** A loop that ran to its end over [before] goes on with the elements
    that follow, and writes the separator before them unless none was
    written yet. *)
Lemma write_inline_continues (visit : AST -> M unit) (before rest : list AST)
    (first : bool) (separator : string) (allow_newlines : bool)
    (s s_a : state) :
  write_inline visit before first separator allow_newlines s
  = Returns false s_a ->
  write_inline visit (before ++ rest) first separator allow_newlines s
  = write_inline visit rest (first && negb (nonempty before))%bool separator
      allow_newlines s_a.
Proof.
  revert first s. induction before as [|y before IH]; intros first s;
    cbn [app write_inline nonempty negb].
  - intro H. injection H as <-. rewrite andb_true_r. reflexivity.
  - rewrite andb_false_r. unfold bind, current_line_length, gets.
    destruct ((if first then ret tt else write separator) s) as [[] sa|e sa];
      [|discriminate].
    destruct (visit y sa) as [[] sb|e sb]; [|discriminate].
    destruct (allow_newlines && _)%bool; [discriminate|].
    intro H. apply IH in H. exact H.
Qed.

(** The test after each element: the loop is left at once when the line
    in progress is longer than the limit, and goes on otherwise. *)
Lemma write_inline_test (visit : AST -> M unit) (x : AST) (rest : list AST)
    (first : bool) (separator : string) (s s_b : state) :
  visit x (if first then s else update (written separator) s)
  = Returns tt s_b ->
  write_inline visit (x :: rest) first separator true s
  = if overflows s_b then Returns true s_b
    else write_inline visit rest false separator true s_b.
Proof.
  intro Hx. cbn [write_inline]. unfold bind at 1.
  assert (Hsep : (if first then ret tt else write separator) s
                 = Returns tt (if first then s else update (written separator) s))
    by (destruct first; reflexivity).
  rewrite Hsep. unfold bind at 1. rewrite Hx.
  unfold bind, current_line_length, gets, overflows. cbn [andb].
  destruct (max_line_length (self s_b) <? Py.total_len (current_line (self s_b)));
    reflexivity.
Qed.

(** A loop that ran to its end leaves a line that fits. *)
Lemma write_inline_fits (visit : AST -> M unit) (nodes : list AST)
    (first : bool) (separator : string) (s s1 : state) :
  nodes <> [] ->
  write_inline visit nodes first separator true s = Returns false s1 ->
  overflows s1 = false.
Proof.
  revert first s. induction nodes as [|x rest IH]; intros first s Hne;
    [contradiction|].
  cbn [write_inline]. unfold bind at 1.
  destruct ((if first then ret tt else write separator) s) as [[] sa|e sa];
    [|discriminate].
  unfold bind at 1. destruct (visit x sa) as [[] sb|e sb]; [|discriminate].
  unfold bind, current_line_length, gets. cbn [andb].
  destruct (max_line_length (self sb) <? Py.total_len (current_line (self sb)))
    eqn:Hover; [discriminate|].
  destruct rest as [|y rest].
  - cbn [write_inline]. intro H. injection H as <-. exact Hover.
  - apply IH. discriminate.
Qed.

(** The two ways out of [write_expression_list]. *)
Lemma write_expression_list_fits (visit : AST -> M unit) (nodes : list AST)
    (separator : string) (allow_newlines need_parens final : bool)
    (s0 s1 : state) :
  write_inline visit nodes true separator allow_newlines s0 = Returns false s1 ->
  write_expression_list visit nodes separator allow_newlines need_parens final
    s0 = Returns tt s1.
Proof.
  intro H. unfold write_expression_list, bind, gets. rewrite H. reflexivity.
Qed.

Lemma write_expression_list_overflows (visit : AST -> M unit)
    (nodes : list AST) (separator : string)
    (allow_newlines need_parens final : bool) (s0 s1 : state) :
  write_inline visit nodes true separator allow_newlines s0 = Returns true s1 ->
  write_expression_list visit nodes separator allow_newlines need_parens final
    s0
  = write_multiline visit nodes separator need_parens final (restored s0 s1).
Proof.
  intro H. unfold write_expression_list, bind, gets. rewrite H. reflexivity.
Qed.

(** The loop of the multi-line layout, from its [k]-th iteration on. *)
Lemma multiline_loop (fuel : nat) (separator : string) (final : bool)
    (num_nodes : nat) :
  forall (l : list AST) (k : nat) (s s2 : state),
    num_nodes = (k + List.length l)%nat ->
    current_line (self s) = [] ->
    for_each (fun '(i, node) =>
      write_indentation ;;
      visit fuel node ;;
      when (final || (Z.of_nat i <? Z.of_nat num_nodes - 1))%bool
        (write separator) ;;
      write_newline) (combine (seq k (List.length l)) l) s = Returns tt s2 ->
    own_lines (visit fuel) (current_indentation (self s)) separator final l s s2
    /\ current_line (self s2) = []
    /\ current_indentation (self s2) = current_indentation (self s)
    /\ indentation (self s2) = indentation (self s).
Proof.
  induction l as [|x rest IH]; intros k s s2 Hn Hline; cbn [List.length seq combine for_each].
  - intro H. injection H as <-. repeat split; auto. constructor.
  - unfold bind at 1. unfold bind at 1.
    unfold write_indentation at 1, bind at 1, gets. rewrite write_eq.
    set (sa := update (written (Py.str_mul " " (current_indentation (self s)))) s).
    pose proof (visit_frame fuel x sa) as Hf.
    unfold bind at 1.
    destruct (visit fuel x sa) as [[] s1|e s1] eqn:Hv; [|discriminate].
    cbn [state_of] in Hf.
    assert (Hb : (Z.of_nat k <? Z.of_nat num_nodes - 1) = nonempty rest).
    { subst num_nodes. destruct rest; simpl List.length; cbn [nonempty].
      - apply Z.ltb_ge. lia.
      - apply Z.ltb_lt. lia. }
    rewrite Hb. unfold bind at 1.
    set (sb := if (final || nonempty rest)%bool
               then update (written separator) s1 else s1).
    assert (Hw : when (final || nonempty rest)%bool (write separator) s1
                 = Returns tt sb).
    { subst sb. destruct (final || nonempty rest)%bool; reflexivity. }
    rewrite Hw, write_newline_eq. intro Hrest.
    assert (Hsb : current_indentation (self sb) = current_indentation (self s)
                  /\ indentation (self sb) = indentation (self s)).
    { subst sb.
      destruct (final || nonempty rest)%bool; simpl;
        rewrite (frame_current_indentation Hf), (frame_indentation Hf);
        split; reflexivity. }
    destruct Hsb as [Hci Hind].
    apply IH in Hrest; [|simpl in Hn; lia|reflexivity].
    destruct Hrest as [Hown [Hl [Hc Hi]]].
    cbn [update self current_indentation line_closed set_current_line
         set_lines indentation] in Hown, Hc, Hi.
    rewrite Hci in Hown. rewrite Hc, Hi.
    repeat split; auto.
    econstructor; eauto.
Qed.

(** The multi-line layout as a whole. *)
Lemma write_multiline_layout (fuel : nat) (nodes : list AST) (separator : string)
    (need_parens final : bool) (s s2 : state) :
  write_multiline (visit fuel) nodes separator need_parens final s
  = Returns tt s2 ->
  exists s_last,
    own_lines (visit fuel)
      (current_indentation (self s) + indentation (self s))
      (Py.rstrip separator) final nodes (opened need_parens s) s_last
    /\ lines (self s2) = lines (self s_last)
    /\ current_line (self s2)
       = Py.str_mul " " (current_indentation (self s))
           :: (if need_parens then [")"] else [])
    /\ current_indentation (self s2) = current_indentation (self s).
Proof.
  unfold write_multiline.
  set (sa := if need_parens then update (written "(") s else s).
  assert (Hw : when need_parens (write "(") s = Returns tt sa).
  { subst sa. destruct need_parens; reflexivity. }
  unfold bind at 1. rewrite Hw. unfold bind at 1. rewrite write_newline_eq.
  unfold bind at 1. unfold add_indentation, bind at 1, modify, effect.
  change (update (fun self0 => set_current_indentation
            (current_indentation self0 + indentation self0) self0)
            (update line_closed sa)) with (opened need_parens s).
  unfold try_finally.
  destruct (for_each _ (enumerate nodes) (opened need_parens s))
    as [[] s_last|e s_last] eqn:Hloop; [|discriminate].
  apply multiline_loop in Hloop; [|reflexivity|reflexivity].
  destruct Hloop as [Hown [Hline [Hci Hind]]].
  assert (Hsa : current_indentation (self sa) = current_indentation (self s)
                /\ indentation (self sa) = indentation (self s)).
  { subst sa. destruct need_parens; split; reflexivity. }
  destruct Hsa as [Hsa1 Hsa2].
  cbn [opened update self current_indentation indented indentation
       line_closed set_current_line set_lines set_current_indentation]
    in Hown, Hci, Hind.
  unfold sa in Hsa1, Hsa2.
  rewrite Hsa1, Hsa2 in Hown, Hci. rewrite Hsa2 in Hind.
  unfold write_indentation, bind, gets. rewrite write_eq.
  intro H. exists s_last. split; [exact Hown|].
  assert (Hd : current_indentation (self (update
                 (fun self0 => set_current_indentation
                    (current_indentation self0 - indentation self0) self0)
                 s_last)) = current_indentation (self s)).
  { simpl. rewrite Hci, Hind. lia. }
  rewrite Hd in H.
  destruct need_parens; cbn [when] in H; [rewrite write_eq in H|];
    injection H as <-; simpl; rewrite Hline, Hci, Hind;
    repeat split; auto; lia.
Qed.

(** C2: in a call of [write_expression_list] that allows newlines, when
    the line in progress is too long after some element of the inline
    attempt, the attempt stops there (the elements after it are not
    visited), the buffer is put back exactly as it was at the checkpoint
    (the same completed lines, the same line in progress), and the list is
    written with each element on a line of its own, one level deeper, the
    closing delimiter on a line at the indentation of the call; when the
    attempt never makes the line too long, its result is the result of the
    call.  The test is made after every element: if the elements before
    [x] were written on the line, [x] is visited (after the separator,
    unless it is the first), and the line is then longer than the limit,
    the attempt is left at once and the call falls back to one element per
    line; if the line is not longer than the limit, the attempt goes on;
    and an attempt that reaches the end of a list leaves a line that is
    not longer than the limit. *)
Theorem C2_expression_list_falls_back_to_lines (fuel : nat) (nodes : list AST)
    (separator : string) (need_parens final : bool) (s0 : state) :
  (forall s1,
      write_inline (visit fuel) nodes true separator true s0 = Returns true s1 ->
      overflows s1 = true
      /\ lines (self (restored s0 s1)) = lines (self s0)
      /\ current_line (self (restored s0 s1)) = current_line (self s0)
      /\ write_expression_list (visit fuel) nodes separator true need_parens
           final s0
         = write_multiline (visit fuel) nodes separator need_parens final
             (restored s0 s1)
      /\ forall s2,
          write_expression_list (visit fuel) nodes separator true need_parens
            final s0 = Returns tt s2 ->
          exists s_last,
            own_lines (visit fuel)
              (current_indentation (self s0) + indentation (self s0))
              (Py.rstrip separator) final nodes
              (opened need_parens (restored s0 s1)) s_last
            /\ lines (self (opened need_parens (restored s0 s1)))
               = lines (self s0)
                   ++ [(Py.join (current_line (self s0)
                                   ++ (if need_parens then ["("] else []))
                        ++ Py.newline)%string]
            /\ lines (self s2) = lines (self s_last)
            /\ current_line (self s2)
               = Py.str_mul " " (current_indentation (self s0))
                   :: (if need_parens then [")"] else [])
            /\ current_indentation (self s2) = current_indentation (self s0))
  /\ (forall s1,
        write_inline (visit fuel) nodes true separator true s0
        = Returns false s1 ->
        write_expression_list (visit fuel) nodes separator true need_parens
          final s0 = Returns tt s1)
  /\ (forall before x after s1,
        nodes = before ++ x :: after ->
        write_inline (visit fuel) (before ++ [x]) true separator true s0
        = Returns true s1 ->
        write_inline (visit fuel) nodes true separator true s0
        = Returns true s1)
  /\ (forall before x after s_a s_b,
        nodes = before ++ x :: after ->
        write_inline (visit fuel) before true separator true s0
        = Returns false s_a ->
        visit fuel x (if nonempty before
                      then update (written separator) s_a else s_a)
        = Returns tt s_b ->
        (overflows s_b = true ->
         write_inline (visit fuel) nodes true separator true s0
         = Returns true s_b
         /\ write_expression_list (visit fuel) nodes separator true need_parens
              final s0
            = write_multiline (visit fuel) nodes separator need_parens final
                (restored s0 s_b))
        /\ (overflows s_b = false ->
            write_inline (visit fuel) nodes true separator true s0
            = write_inline (visit fuel) after false separator true s_b))
  /\ (forall s1,
        nodes <> [] ->
        write_inline (visit fuel) nodes true separator true s0
        = Returns false s1 ->
        overflows s1 = false).
Proof.
  split; [|split; [|split; [|split]]].
  - intros s1 Hinline.
    pose proof (steps_write_inline fuel nodes true separator true s0) as Hstep.
    rewrite Hinline in Hstep. cbn [state_of] in Hstep.
    destruct Hstep as [Hf _].
    assert (Hlines : lines (self (restored s0 s1)) = lines (self s0)).
    { simpl. apply firstn_extends, Hf. }
    split; [eapply write_inline_overflows, Hinline|].
    split; [exact Hlines|]. split; [reflexivity|].
    split; [apply write_expression_list_overflows, Hinline|].
    intros s2 H2.
    rewrite (@write_expression_list_overflows _ _ _ _ need_parens final _ _ Hinline) in H2.
    apply write_multiline_layout in H2.
    destruct H2 as [s_last [Hown [Hl [Hc Hi]]]].
    assert (Hci : current_indentation (self (restored s0 s1))
                  = current_indentation (self s0))
      by (simpl; apply Hf).
    assert (Hind : indentation (self (restored s0 s1)) = indentation (self s0))
      by (simpl; apply Hf).
    rewrite Hci, Hind in Hown. rewrite Hci in Hc, Hi.
    exists s_last. repeat split; auto.
    destruct need_parens; simpl; rewrite firstn_extends by apply Hf;
      rewrite ?app_nil_r; reflexivity.
  - intros s1 H. apply write_expression_list_fits, H.
  - intros before x after s1 ->. apply write_inline_aborts.
  - intros before x after s_a s_b -> Hbefore Hx.
    rewrite (@write_inline_continues _ _ (x :: after) _ _ _ _ _ Hbefore).
    cbn [andb].
    rewrite (@write_inline_test (visit fuel) x after (negb (nonempty before))
               separator s_a s_b)
      by (destruct before; exact Hx).
    split; intro Hover; rewrite Hover; [|reflexivity].
    split; [reflexivity|].
    apply write_expression_list_overflows.
    rewrite (@write_inline_continues _ _ (x :: after) _ _ _ _ _ Hbefore).
    cbn [andb].
    rewrite (@write_inline_test (visit fuel) x after (negb (nonempty before))
               separator s_a s_b)
      by (destruct before; exact Hx).
    rewrite Hover. reflexivity.
  - intros s1 Hne H. eapply write_inline_fits; [exact Hne|exact H].
Qed.

Definition two_long_names : list AST :=
  [Name "aaaaaaaaaa"; Name "bbbbbbbbbb"].

(** The state the inline attempt leaves when the line may hold 15
    characters. *)
Definition narrow_attempt : state :=
  state_of (write_inline (visit 1) two_long_names true ", " true (init 4 15)).

Lemma C2_witness :
  overflows narrow_attempt = true
  /\ lines (self (restored (init 4 15) narrow_attempt)) = []
  /\ current_line (self (restored (init 4 15) narrow_attempt)) = [].
Proof.
  destruct (proj1 (@C2_expression_list_falls_back_to_lines 1 two_long_names
                     ", " true true (init 4 15)) narrow_attempt)
    as [H1 [H2 [H3 _]]].
  - vm_compute. reflexivity.
  - split; [exact H1|]. split; [exact H2|exact H3].
Defined.

Example decompile_long_delete :
  decompile (Module [Delete two_long_names]) 4 15
  = inl ("del (" ++ Py.newline
         ++ "    aaaaaaaaaa," ++ Py.newline
         ++ "    bbbbbbbbbb," ++ Py.newline
         ++ ")" ++ Py.newline)%string.
Proof. vm_compute. reflexivity. Qed.

(** ** Blank lines before definitions (C10) *)

Lemma steps_write_indentation : steps write_indentation.
Proof.
  apply steps_bind; [intro s; apply step_refl|intro; apply steps_write].
Qed.

Lemma steps_write_suite (fuel : nat) (nodes : list AST) :
  steps (write_suite (visit fuel) nodes).
Proof.
  apply sound_steps.
  apply sound_write_suite with (G := fun _ => True);
    eauto using step_refl, step_trans, step_indented.
  - intros n _. apply sound_steps, visit_steps.
  - apply Forall_forall. auto.
Qed.

Lemma steps_write_expression_list (fuel : nat) (nodes : list AST)
    (separator : string) (allow_newlines need_parens final : bool) :
  steps (write_expression_list (visit fuel) nodes separator allow_newlines
           need_parens final).
Proof.
  apply sound_steps.
  apply sound_write_expression_list with (G := fun _ => True);
    eauto using step_refl, step_trans, step_written, step_line_closed,
      step_indented, step_reset.
  - intros n _. apply sound_steps, visit_steps.
  - apply Forall_forall. auto.
Qed.

Lemma steps_write_decorators (fuel : nat) (decorator_list : list AST) :
  steps (write_decorators (visit fuel) decorator_list).
Proof.
  apply steps_for_each. intro d.
  repeat (apply steps_bind; [|intros _]);
    auto using steps_write_indentation, steps_write, visit_steps,
      steps_write_newline.
Qed.

(** The first thing a definition writes after its blank lines: the
    indentation, then [@] where it has a decorator and the start of its
    header otherwise. *)
Definition first_line_start (indent : Z) (decorator_list : list AST)
    (header : string) : string :=
  (Py.str_mul " " indent
   ++ match decorator_list with [] => header | _ :: _ => "@" end)%string.

Lemma bind_returns {A B : Type} (m : M A) (k : A -> M B) (s s' : state)
    (b : B) :
  bind m k s = Returns b s' ->
  exists a s1, m s = Returns a s1 /\ k a s1 = Returns b s'.
Proof. unfold bind. destruct (m s) as [a s1|e s1]; [eauto|discriminate]. Qed.

Lemma append_cancel (a b c : string) : (a ++ b)%string = (a ++ c)%string -> b = c.
Proof. induction a; simpl; intro H; [exact H|injection H; auto]. Qed.

Lemma steps_returns {A : Type} (m : M A) (s s' : state) (a : A) :
  steps m -> m s = Returns a s' -> step s s'.
Proof. intros H E. specialize (H s). rewrite E in H. exact H. Qed.

Lemma write_indentation_eq (s : state) :
  write_indentation s
  = Returns tt
      (update (written (Py.str_mul " " (current_indentation (self s)))) s).
Proof. reflexivity. Qed.

(** The decorator lines start with the indentation and [@]. *)
Lemma decorators_start (fuel : nat) (decorator_list : list AST)
    (s s' : state) :
  write_decorators (visit fuel) decorator_list s = Returns tt s' ->
  match decorator_list with
  | [] => s' = s
  | _ :: _ =>
      text_extends
        (emitted s ++ Py.str_mul " " (current_indentation (self s)) ++ "@")
        (emitted s')
  end.
Proof.
  destruct decorator_list as [|d ds]; intro H.
  - injection H as <-. reflexivity.
  - unfold write_decorators in H. cbn [for_each] in H.
    apply bind_returns in H as [[] [s1 [H1 H2]]].
    apply bind_returns in H1 as [[] [sa [Ha H1]]].
    apply bind_returns in H1 as [[] [sb [Hb H1]]].
    rewrite write_indentation_eq in Ha. injection Ha as <-.
    rewrite write_eq in Hb. injection Hb as <-.
    assert (Hrest : step (update (written "@")
                            (update (written (Py.str_mul " "
                               (current_indentation (self s)))) s)) s').
    { eapply step_trans.
      - eapply steps_returns; [|exact H1].
        apply steps_bind; [apply visit_steps|intros _; apply steps_write_newline].
      - eapply steps_returns; [|exact H2].
        apply steps_for_each. intro x.
        repeat (apply steps_bind; [|intros _]);
          auto using steps_write_indentation, steps_write, visit_steps,
            steps_write_newline. }
    destruct Hrest as [_ Ht].
    rewrite !emitted_written, append_assoc in Ht. exact Ht.
Qed.

(** A definition, from its decorators on: its lines are added to those
    that were there, and they start with the indentation and [@], or with
    the indentation and the header where there is no decorator. *)
Lemma definition_lines (fuel : nat) (decorator_list : list AST)
    (header : string) (middle suite : M unit) (s s' : state) :
  steps middle -> steps suite ->
  current_line (self s) = [] ->
  (write_decorators (visit fuel) decorator_list ;;
   write_indentation ;;
   write header ;;
   middle ;;
   write "):" ;;
   write_newline ;;
   suite) s = Returns tt s' ->
  exists more,
    lines (self s') = lines (self s) ++ more
    /\ text_extends
         (first_line_start (current_indentation (self s)) decorator_list header)
         (Py.join more).
Proof.
  intros Hmiddle Hsuite Hline H.
  apply bind_returns in H as [[] [sb [Hb H]]].
  apply bind_returns in H as [[] [sc [Hc H]]].
  apply bind_returns in H as [[] [sd [Hd H]]].
  apply bind_returns in H as [[] [se [He H]]].
  apply bind_returns in H as [[] [sf [Hf H]]].
  apply bind_returns in H as [[] [sg [Hg H]]].
  rewrite write_indentation_eq in Hc. rewrite write_eq in Hd, Hf.
  rewrite write_newline_eq in Hg.
  assert (Hindent : current_indentation (self sb) = current_indentation (self s)).
  { apply frame_current_indentation.
    eapply steps_returns; [apply steps_write_decorators|exact Hb]. }
  assert (Hstart : text_extends
            (emitted s
             ++ first_line_start (current_indentation (self s))
                  decorator_list header)
            (emitted sd)).
  { apply decorators_start in Hb. unfold first_line_start.
    injection Hc as <-. injection Hd as <-. rewrite !emitted_written.
    destruct decorator_list as [|d ds].
    - subst sb. rewrite append_assoc. apply text_extends_refl.
    - rewrite Hindent. eapply text_extends_trans; [exact Hb|].
      exists (Py.str_mul " " (current_indentation (self s)) ++ header)%string.
      apply append_assoc. }
  assert (Hs : step s sb)
    by (eapply steps_returns; [apply steps_write_decorators|exact Hb]).
  assert (Hsd : step sb sd).
  { injection Hc as <-. injection Hd as <-.
    eapply step_trans; apply step_written. }
  assert (Hsg : step sd sg).
  { injection Hf as <-. injection Hg as <-.
    eapply step_trans; [eapply steps_returns; [exact Hmiddle|exact He]|].
    eapply step_trans; [apply step_written|apply step_line_closed]. }
  assert (Hend : step sg s') by (eapply steps_returns; [exact Hsuite|exact H]).
  destruct (frame_lines (proj1 (step_trans Hs (step_trans Hsd Hsg))))
    as [m1 Hm1].
  destruct (frame_lines (proj1 Hend)) as [m2 Hm2].
  exists (m1 ++ m2). split.
  - rewrite Hm2, Hm1. symmetry. apply app_assoc.
  - destruct (text_extends_trans Hstart (proj2 Hsg)) as [w Hw].
    assert (Hclosed : current_line (self sg) = [])
      by (injection Hg as <-; reflexivity).
    unfold emitted in Hw. rewrite Hclosed, Hline, Hm1, join_app in Hw.
    cbn [Py.join] in Hw. rewrite !append_nil_r, !append_assoc in Hw.
    apply append_cancel in Hw.
    exists (w ++ Py.join m2)%string.
    rewrite join_app, Hw. apply append_assoc.
Qed.

Lemma visiting_returns (node : AST) (method : M unit) (s s' : state) :
  visiting node method s = Returns tt s' ->
  exists s1, method (push_node node s) = Returns tt s1 /\ s' = pop_node s1.
Proof.
  unfold visiting, bind at 1, effect, try_finally.
  destruct (method (push_node node s)) as [[] s1|e s1]; [|discriminate].
  intro H. injection H as <-. eauto.
Qed.

(** The text of a module starts with what its first statement leaves in
    the completed lines. *)
Lemma module_starts_with (fuel : nat) (first : AST) (others : list AST)
    (indentation line_length : Z) (start text : string) :
  (forall s s',
      lines (self s) = [] -> current_line (self s) = [] ->
      current_indentation (self s) = 0 ->
      visit fuel first s = Returns tt s' ->
      text_extends start (Py.join (lines (self s')))) ->
  decompile_within (S fuel) (Module (first :: others)) indentation line_length
  = inl text ->
  text_extends start text.
Proof.
  intros Hfirst. unfold decompile_within. rewrite visit_unfold.
  unfold visiting, bind at 1, effect, try_finally.
  cbn [NodeVisitor_visit]. unfold visit_Module. cbn [for_each].
  unfold bind at 1.
  destruct (visit fuel first (push_node (Module (first :: others))
                                (init indentation line_length)))
    as [[] s1|e s1] eqn:H1; [|discriminate].
  apply Hfirst in H1; [|reflexivity|reflexivity|reflexivity].
  pose proof (@steps_for_each _ (visit fuel) others (visit_steps fuel) s1)
    as [Hf _].
  destruct (for_each (visit fuel) others s1) as [[] s2|e s2]; [|discriminate].
  intro H. injection H as <-. cbn [state_of] in Hf.
  destruct (frame_lines Hf) as [more Hmore].
  eapply text_extends_trans; [exact H1|].
  exists (Py.join more). simpl. rewrite Hmore. apply join_app.
Qed.

(** C10: called at the start of a line, the method of a function
    definition adds exactly one empty line, and the lines it adds after
    that one start with the indentation followed by [@] where the
    definition has a decorator, and by [def name(] otherwise: one blank
    line comes before the definition, its decorator lines included, and no
    second one.  The method of a class definition adds exactly two empty
    lines before the indentation and [@] or [class name(].  The text of a
    module whose first statement is a function (class) definition is one
    (two) line ends followed by [@] or the header.  What follows the empty
    lines is no line end. *)
Theorem C10_blank_lines_before_definitions (fuel : nat) :
  (forall name args body decorator_list s s',
      current_line (self s) = [] ->
      visit (S fuel) (FunctionDef name args body decorator_list) s
      = Returns tt s' ->
      exists more,
        lines (self s') = lines (self s) ++ [Py.newline] ++ more
        /\ text_extends
             (first_line_start (current_indentation (self s)) decorator_list
                ("def " ++ name ++ "("))
             (Py.join more))
  /\ (forall name bases body decorator_list s s',
        current_line (self s) = [] ->
        visit (S fuel) (ClassDef name bases body decorator_list) s
        = Returns tt s' ->
        exists more,
          lines (self s') = lines (self s) ++ [Py.newline; Py.newline] ++ more
          /\ text_extends
               (first_line_start (current_indentation (self s)) decorator_list
                  ("class " ++ name ++ "("))
               (Py.join more))
  /\ (forall name args body decorator_list others indentation line_length text,
        decompile_within (S (S fuel))
          (Module (FunctionDef name args body decorator_list :: others))
          indentation line_length = inl text ->
        text_extends
          (Py.newline
           ++ first_line_start 0 decorator_list ("def " ++ name ++ "("))
          text)
  /\ (forall name bases body decorator_list others indentation line_length text,
        decompile_within (S (S fuel))
          (Module (ClassDef name bases body decorator_list :: others))
          indentation line_length = inl text ->
        text_extends
          (Py.newline ++ Py.newline
           ++ first_line_start 0 decorator_list ("class " ++ name ++ "("))
          text)
  /\ (forall indent decorator_list name rest,
        first_line_start indent decorator_list ("def " ++ name ++ "(")
        <> (Py.newline ++ rest)%string
        /\ first_line_start indent decorator_list ("class " ++ name ++ "(")
           <> (Py.newline ++ rest)%string).
Proof.
  assert (HF : forall name args body decorator_list s s',
             current_line (self s) = [] ->
             visit (S fuel) (FunctionDef name args body decorator_list) s
             = Returns tt s' ->
             exists more,
               lines (self s') = lines (self s) ++ [Py.newline] ++ more
               /\ text_extends
                    (first_line_start (current_indentation (self s))
                       decorator_list ("def " ++ name ++ "("))
                    (Py.join more)).
  { intros name args body decorator_list s s' Hline Hv.
    rewrite visit_unfold in Hv. cbn [NodeVisitor_visit] in Hv.
    unfold visit_FunctionDef in Hv.
    apply visiting_returns in Hv as [s1 [Hv ->]].
    apply bind_returns in Hv as [[] [sa [Ha Hv]]].
    rewrite write_newline_eq in Ha. injection Ha as <-.
    apply definition_lines in Hv;
      [|apply visit_steps|apply steps_write_suite|reflexivity].
    destruct Hv as [more [Hlines Hstart]]. exists more. split; [|exact Hstart].
    change (lines (self (pop_node s1))) with (lines (self s1)).
    rewrite Hlines. simpl. rewrite Hline, <- app_assoc. reflexivity. }
  assert (HC : forall name bases body decorator_list s s',
             current_line (self s) = [] ->
             visit (S fuel) (ClassDef name bases body decorator_list) s
             = Returns tt s' ->
             exists more,
               lines (self s')
               = lines (self s) ++ [Py.newline; Py.newline] ++ more
               /\ text_extends
                    (first_line_start (current_indentation (self s))
                       decorator_list ("class " ++ name ++ "("))
                    (Py.join more)).
  { intros name bases body decorator_list s s' Hline Hv.
    rewrite visit_unfold in Hv. cbn [NodeVisitor_visit] in Hv.
    unfold visit_ClassDef in Hv.
    apply visiting_returns in Hv as [s1 [Hv ->]].
    apply bind_returns in Hv as [[] [sa [Ha Hv]]].
    apply bind_returns in Hv as [[] [sb [Hb Hv]]].
    rewrite write_newline_eq in Ha. injection Ha as <-.
    rewrite write_newline_eq in Hb. injection Hb as <-.
    apply definition_lines in Hv;
      [|apply steps_write_expression_list|apply steps_write_suite|reflexivity].
    destruct Hv as [more [Hlines Hstart]]. exists more. split; [|exact Hstart].
    change (lines (self (pop_node s1))) with (lines (self s1)).
    rewrite Hlines. simpl. rewrite Hline, <- !app_assoc. reflexivity. }
  split; [exact HF|]. split; [exact HC|]. split; [|split].
  - intros name args body decorator_list others indentation line_length text H.
    apply (@module_starts_with (S fuel) _ _ _ _
             (Py.newline
              ++ first_line_start 0 decorator_list ("def " ++ name ++ "(")))
      in H; [exact H|].
    intros s s' Hl Hc Hi Hv. apply HF in Hv; [|exact Hc].
    destruct Hv as [more [-> [w Hw]]]. rewrite Hl, Hi in *.
    exists w. change ([] ++ [Py.newline] ++ more) with (Py.newline :: more).
    rewrite join_cons, Hw. symmetry. apply append_assoc.
  - intros name bases body decorator_list others indentation line_length text H.
    apply (@module_starts_with (S fuel) _ _ _ _
             (Py.newline ++ Py.newline
              ++ first_line_start 0 decorator_list ("class " ++ name ++ "(")))
      in H; [exact H|].
    intros s s' Hl Hc Hi Hv. apply HC in Hv; [|exact Hc].
    destruct Hv as [more [-> [w Hw]]]. rewrite Hl, Hi in *.
    exists w.
    change ([] ++ [Py.newline; Py.newline] ++ more)
      with (Py.newline :: Py.newline :: more).
    rewrite !join_cons, Hw, !append_assoc. reflexivity.
  - intros indent decorator_list name rest. unfold first_line_start, Py.str_mul.
    destruct (Z.to_nat indent); destruct decorator_list; cbn;
      split; intro H; discriminate H.
Qed.

Example decompile_decorated_function :
  decompile
    (Module [FunctionDef "f" (arguments [] None None []) [Pass] [Name "d"]])
    4 100
  = inl (Py.newline
         ++ "@d" ++ Py.newline
         ++ "def f():" ++ Py.newline
         ++ "    pass" ++ Py.newline)%string.
Proof. vm_compute. reflexivity. Qed.

Example decompile_class_then_function :
  decompile
    (Module [ClassDef "A" [Name "object"] [Pass] [];
             FunctionDef "f" (arguments [] None None []) [Pass] []])
    4 100
  = inl (Py.newline ++ Py.newline
         ++ "class A(object):" ++ Py.newline
         ++ "    pass" ++ Py.newline
         ++ Py.newline
         ++ "def f():" ++ Py.newline
         ++ "    pass" ++ Py.newline)%string.
Proof. vm_compute. reflexivity. Qed.

(* ================================================================== *)
(** * Calls of [decompile] on a store of objects (C8, C9) *)
(* ================================================================== *)

(** Above, the tree is a value and the decompiler a record.  In the source
    they are objects: a list-valued field of a node ([node.args],
    [node.body], ...) is a list object, [Decompiler.__init__] makes three
    list objects, and the objects that a call leaves behind are there
    when the next call runs.  Three methods call [append] on a list of
    nodes: [visit_With] on [nodes], [visit_Call] and [visit_arguments] on
    [args].  No statement of the source assigns to an attribute of a node.

    Here objects live in a store and are named by their address: two names
    for one address are aliases, and a write through one is seen through
    the other. *)
Module Store.

Definition address : Type := nat.

Inductive object : Type :=
| Nodes (l : list AST)        (* a list of nodes *)
| Texts (l : list string)     (* a list of strings *)
| Entries (l : list entry)    (* a list of nodes and [_CallArgs] objects *)
| Instance                    (* a [Decompiler] and its attributes *)
    (lines current_line : address) (current_indentation : Z)
    (node_stack : address) (indentation max_line_length : Z)
    (has_unicode_literals : bool).

Definition store : Type := list object.
Definition St (A : Type) : Type := store -> A * store.

Definition ret {A : Type} (a : A) : St A := fun h => (a, h).

Definition bind {A B : Type} (m : St A) (k : A -> St B) : St B :=
  fun h => let (a, h') := m h in k a h'.

Definition gets {A : Type} (f : store -> A) : St A := fun h => (f h, h).

Definition contents (h : store) (a : address) : list AST :=
  match nth_error h a with Some (Nodes l) => l | _ => [] end.

Definition texts (h : store) (a : address) : list string :=
  match nth_error h a with Some (Texts l) => l | _ => [] end.

Definition entries (h : store) (a : address) : list entry :=
  match nth_error h a with Some (Entries l) => l | _ => [] end.

Definition read (a : address) : St (list AST) := gets (fun h => contents h a).

(** A new object: its address is one the store did not have. *)
Definition allocate (o : object) : St address :=
  fun h => (List.length h, h ++ [o]).

(** A list display, a slice, [list(l)], [l1 + l2]: a new object. *)
Definition new (l : list AST) : St address := allocate (Nodes l).

Fixpoint store_at (a : address) (o : object) (h : store) : store :=
  match h, a with
  | [], _ => []
  | _ :: t, O => o :: t
  | x :: t, S a' => x :: store_at a' o t
  end.

(** The object at [a] is written in place. *)
Definition put (a : address) (o : object) : St unit :=
  fun h => (tt, store_at a o h).

(** [l.append(x)] for a list of nodes. *)
Definition append (a : address) (x : AST) : St unit :=
  fun h =>
    match nth_error h a with
    | Some (Nodes l) => put a (Nodes (l ++ [x])) h
    | _ => (tt, h)
    end.

Fixpoint for_each {A : Type} (f : A -> St unit) (l : list A) : St unit :=
  match l with
  | [] => ret tt
  | x :: l' => bind (f x) (fun _ => for_each f l')
  end.


End Store.

Declare Scope store_scope.
Delimit Scope store_scope with store.
Notation "x <- m ;; k" := (Store.bind m (fun x => k))
  (at level 61, m at next level, right associativity) : store_scope.
Notation "m ;; k" := (Store.bind m (fun _ => k))
  (at level 61, right associativity) : store_scope.

(** [visit_Call], from [args = node.args + node.keywords] to the second
    [append]. *)
Definition Call_args_in_store (args keywords : Store.address)
    (starargs kwargs : option AST) : Store.St Store.address :=
  (node_args <- Store.read args ;;
   node_keywords <- Store.read keywords ;;
   a <- Store.new (node_args ++ node_keywords) ;;
   match starargs with
   | Some x => Store.append a (StarArg x)
   | None => Store.ret tt
   end ;;
   match kwargs with
   | Some x => Store.append a (DoubleStarArg x)
   | None => Store.ret tt
   end ;;
   Store.ret a)%store.

(** [visit_arguments], from [num_defaults = len(node.defaults)] to the
    last [append]: the two slices and [list(node.args)] are new objects. *)
Definition arguments_args_in_store (args : Store.address)
    (vararg kwarg : option string) (defaults : Store.address)
    : Store.St Store.address :=
  (node_defaults <- Store.read defaults ;;
   node_args <- Store.read args ;;
   let num_defaults := List.length node_defaults in
   p <- (if nonempty node_defaults
         then
           a <- Store.new
                  (firstn (List.length node_args - num_defaults) node_args) ;;
           last <- Store.new
                     (skipn (List.length node_args - num_defaults) node_args) ;;
           names <- Store.read last ;;
           Store.ret (a, combine names node_defaults)
         else
           a <- Store.new node_args ;;
           Store.ret (a, [])) ;;
   Store.for_each
     (fun d => Store.append (fst p) (KeywordArg (fst d) (snd d))) (snd p) ;;
   match vararg with
   | Some v =>
       if Py.truthy_str v
       then Store.append (fst p) (StarArg (Name v))
       else Store.ret tt
   | None => Store.ret tt
   end ;;
   match kwarg with
   | Some v =>
       if Py.truthy_str v
       then Store.append (fst p) (DoubleStarArg (Name v))
       else Store.ret tt
   | None => Store.ret tt
   end ;;
   Store.ret (fst p))%store.

(** The [while] loop of [visit_With]: [body] is an alias of a list of the
    tree, and is only read ([len(body)], [body[0]]); the [append] is on
    [nodes]. *)
Fixpoint With_loop (nodes : Store.address) (node : AST)
    : Store.St (list AST) :=
  match node with
  | With _ _ body =>
      match body with
      | [With _ _ _ as node'] =>
          (Store.append nodes node' ;; With_loop nodes node')%store
      | _ => Store.ret body
      end
  | _ => Store.ret []
  end.

(** [visit_With], from [nodes = [node]] to the end of the loop. *)
Definition With_nodes_in_store (node : AST)
    : Store.St (Store.address * list AST) :=
  (nodes <- Store.new [node] ;;
   body <- With_loop nodes node ;;
   Store.ret (nodes, body))%store.














(** The model tells an alias from a copy: an [append] through a name of an
    object of the tree would be seen in the tree. *)
Example append_through_an_alias_is_seen :
  Store.contents
    (snd (Store.append 0%nat Pass [Store.Nodes [Name "x"]])) 0%nat
  = [Name "x"; Pass].
Proof. reflexivity. Qed.

(** ** A call of [decompile] *)

(** The attributes of the [Decompiler] at [decompiler], as the methods
    find them: the three lists are read through the addresses the
    attributes hold. *)
Definition attributes (h : Store.store) (decompiler : Store.address)
    : Decompiler :=
  match nth_error h decompiler with
  | Some (Store.Instance l c ci n i m u) =>
      {| lines := Store.texts h l;
         current_line := Store.texts h c;
         current_indentation := ci;
         node_stack := Store.entries h n;
         indentation := i;
         max_line_length := m;
         has_unicode_literals := u |}
  | _ => Decompiler_init 0 0
  end.

(** [Decompiler(indentation=indentation, line_length=line_length)]: each
    [[]] of [__init__] is a new list object. *)
Definition Decompiler_new (indentation line_length : Z)
    : Store.St Store.address :=
  (l <- Store.allocate (Store.Texts []) ;;
   c <- Store.allocate (Store.Texts []) ;;
   n <- Store.allocate (Store.Entries []) ;;
   Store.allocate (Store.Instance l c 0 n indentation line_length false))%store.

(** What the methods leave in the objects of the decompiler.  Their
    writes are [self.node_stack.append] and [pop], [self.current_line.append],
    [self.lines.append], [del self.lines[last_line:]] and the assignments
    to attributes of [self]: all of them on the decompiler and its three
    lists.  (A list that [self.current_line = ...] drops on the way is
    named by nothing any more, and is left out.) *)
Definition leave (decompiler : Store.address) (d : Decompiler)
    : Store.St unit :=
  fun h =>
    match nth_error h decompiler with
    | Some (Store.Instance l c _ n _ _ _) =>
        (Store.put l (Store.Texts (lines d)) ;;
         Store.put c (Store.Texts (current_line d)) ;;
         Store.put n (Store.Entries (node_stack d)) ;;
         Store.put decompiler
           (Store.Instance l c (current_indentation d) n (indentation d)
              (max_line_length d) (has_unicode_literals d)))%store h
    | _ => (tt, h)
    end.

(** Where the list fields that the three methods read are in the store:
    [node.args] and [node.keywords] of a call, [node.args] and
    [node.defaults] of an [arguments] node. *)
Record layout : Type := mkLayout {
  args_at : AST -> Store.address;
  keywords_at : AST -> Store.address;
  defaults_at : AST -> Store.address
}.

(** The lists of nodes that are built at a point of the run:
    [visit_arguments] and [visit_With] build theirs when they are entered,
    [visit_Call] when it has pushed its [_CallArgs()] (the call is then
    the entry below it on the stack). *)
Definition lists_at (place : layout) (p : point) : Store.St unit :=
  match at_event p with
  | Enter (arguments _ vararg kwarg _ as node) =>
      (_ <- arguments_args_in_store (args_at place node) vararg kwarg
              (defaults_at place node) ;;
       Store.ret tt)%store
  | Enter (With _ _ _ as node) =>
      (_ <- With_nodes_in_store node ;; Store.ret tt)%store
  | EnterCallArgs =>
      match rev (node_stack (at_self p)) with
      | CallArgs :: ENode (Call _ _ _ starargs kwargs as node) :: _ =>
          (_ <- Call_args_in_store (args_at place node)
                  (keywords_at place node) starargs kwargs ;;
           Store.ret tt)%store
      | _ => Store.ret tt
      end
  | _ => Store.ret tt
  end.

(** [decompiler.visit(ast)] on the store: the methods run on the
    attributes of the decompiler (the run is the one of [visit] above),
    the lists of nodes of the run are built, and the decompiler and its
    lists hold what the methods left.  The result is the exception, if one
    was raised. *)
Definition visit_in_store (place : layout) (decompiler : Store.address)
    (ast : AST) : Store.St (option exn) :=
  (fields <- Store.gets (fun h => attributes h decompiler) ;;
   let run :=
     visit (height ast) ast {| self := fields; depth := 0; log := [] |} in
   Store.for_each (lists_at place) (log (state_of run)) ;;
   leave decompiler (self (state_of run)) ;;
   Store.ret (match run with Returns _ _ => None | Raises e _ => Some e end)
  )%store.

(** [''.join(decompiler.lines)]. *)
Definition text_of (decompiler : Store.address) : Store.St string :=
  Store.gets (fun h => Py.join (lines (attributes h decompiler))).

(** [decompile(ast, indentation, line_length)] on the store. *)
Definition decompile_in_store (place : layout) (ast : AST)
    (indentation line_length : Z) : Store.St (string + exn) :=
  (decompiler <- Decompiler_new indentation line_length ;;
   raised <- visit_in_store place decompiler ast ;;
   match raised with
   | None => text <- text_of decompiler ;; Store.ret (inl text)
   | Some e => Store.ret (inr e)
   end)%store.






(** ** Two calls (C8) *)


(** The call of [f] with the argument [x] and the starred argument [a],
    and its lists in a store: [node.args] and [node.keywords] of the call
    are at the addresses 0 and 1. *)
Definition everything_at (a : Store.address) : layout :=
  {| args_at := fun _ => a;
     keywords_at := fun _ => S a;
     defaults_at := fun _ => a |}.

Definition call_with_star : AST :=
  Module [Expr (Call (Name "f") [Name "x"] [] (Some (Name "a")) None)].

Definition the_lists_of_the_call : Store.store :=
  [Store.Nodes [Name "x"]; Store.Nodes []].


(** What the first call leaves, and what a second visit with a decompiler
    that was used gives: the model tells a new decompiler from a used
    one. *)
Example store_after_a_call :
  decompile_in_store (everything_at 0%nat) call_with_star 4 100
    the_lists_of_the_call
  = (inl ("f(x, *a)" ++ Py.newline)%string,
     [Store.Nodes [Name "x"]; Store.Nodes [];
      Store.Texts [("f(x, *a)" ++ Py.newline)%string]; Store.Texts [];
      Store.Entries []; Store.Instance 2%nat 3%nat 0 4%nat 4 100 false;
      Store.Nodes [Name "x"; StarArg (Name "a")]]).
Proof. vm_compute. reflexivity. Qed.

Definition visit_twice (place : layout) (ast : AST)
    (indentation line_length : Z) : Store.St (string * string) :=
  (decompiler <- Decompiler_new indentation line_length ;;
   _ <- visit_in_store place decompiler ast ;;
   first <- text_of decompiler ;;
   _ <- visit_in_store place decompiler ast ;;
   second <- text_of decompiler ;;
   Store.ret (first, second))%store.

Example a_used_decompiler_gives_another_text :
  fst (visit_twice (everything_at 0%nat) call_with_star 4 100
         the_lists_of_the_call)
  = (("f(x, *a)" ++ Py.newline)%string,
     ("f(x, *a)" ++ Py.newline ++ "f(x, *a)" ++ Py.newline)%string).
Proof. vm_compute. reflexivity. Qed.

(** ** The tree is not written to (C9) *)


(** A call that raises: the same statement followed by a node without a
    method.  The lists of the tree are as they were. *)
Example store_after_a_call_that_raises :
  decompile_in_store (everything_at 0%nat)
    (Module [Expr (Call (Name "f") [Name "x"] [] (Some (Name "a")) None); Suite []])
    4 100 the_lists_of_the_call
  = (inr (NotImplementedError (Suite [])),
     [Store.Nodes [Name "x"]; Store.Nodes [];
      Store.Texts [("f(x, *a)" ++ Py.newline)%string]; Store.Texts [];
      Store.Entries []; Store.Instance 2%nat 3%nat 0 4%nat 4 100 false;
      Store.Nodes [Name "x"; StarArg (Name "a")]]).
Proof. vm_compute. reflexivity. Qed.

(* ================================================================== *)
(** * Further properties of the methods *)
(* ================================================================== *)

(** ** What a call of [visit] restores *)

(** X1: a call of [visit], whether it returns or raises, leaves the
    ancestry stack as it found it: the [finally] clauses of [visit] and
    of [visit_Call] pop what was pushed. *)
Theorem visit_restores_the_ancestry_stack (fuel : nat) (node : AST)
    (s : state) :
  node_stack (self (state_of (visit fuel node s))) = node_stack (self s).
Proof. destruct (visit_steps fuel node s) as [[] _]. assumption. Qed.

(** X2: a call of [visit], whether it returns or raises, leaves the
    indentation level as it found it (the [finally] clause of
    [add_indentation]), and never changes the indentation width and the
    line length the decompiler was made with. *)
Theorem visit_restores_the_indentation (fuel : nat) (node : AST) (s : state) :
  current_indentation (self (state_of (visit fuel node s)))
  = current_indentation (self s)
  /\ indentation (self (state_of (visit fuel node s))) = indentation (self s)
  /\ max_line_length (self (state_of (visit fuel node s)))
     = max_line_length (self s).
Proof. destruct (visit_steps fuel node s) as [[] _]. auto. Qed.

(** X3: a call of [visit] only adds to the output: the lines completed
    before the call are the first lines after it, and the text written
    before the call (completed lines and line in progress) is the start of
    the text after it, even though [write_expression_list] deletes lines
    and puts back an earlier line in progress when a list does not fit. *)
Theorem visit_only_adds_text (fuel : nat) (node : AST) (s : state) :
  extends (lines (self s)) (lines (self (state_of (visit fuel node s))))
  /\ text_extends (emitted s) (emitted (state_of (visit fuel node s))).
Proof. destruct (visit_steps fuel node s) as [[] Ht]. auto. Qed.

(** X4: the flag [has_unicode_literals] is never reset by a call of
    [visit], and after a traversal with a new decompiler it is set exactly
    when an import of [unicode_literals] from [__future__] was visited. *)
Theorem flag_is_set_once (fuel : nat) (node : AST) :
  (forall s,
      has_unicode_literals (self s) = true ->
      has_unicode_literals (self (state_of (visit fuel node s))) = true)
  /\ forall indentation line_length,
      has_unicode_literals
        (self (state_of (visit fuel node (init indentation line_length))))
      = requested
          (log (state_of (visit fuel node (init indentation line_length)))).
Proof.
  split.
  - intros s. destruct (visit_steps fuel node s) as [[] _]. assumption.
  - intros indentation line_length.
    apply (visit_flag_tracked fuel node).
    split; [reflexivity|]. intros [|? ?] ? ? Heq; discriminate.
Qed.

(** ** Lists that may not be broken *)

(** X5: when [allow_newlines] is false ([visit_Print], [visit_Raise], the
    parameters of a lambda), [write_expression_list] never leaves its
    first loop by [break]: whatever the line length, the list is written
    on the line in progress, and [need_parens] and
    [final_separator_if_multiline] play no role. *)
Theorem no_line_break_without_allow_newlines (visit : AST -> M unit)
    (nodes : list AST) (separator : string) (need_parens final : bool)
    (s : state) :
  (forall s1,
      write_inline visit nodes true separator false s <> Returns true s1)
  /\ write_expression_list visit nodes separator false need_parens final s
     = (write_inline visit nodes true separator false ;; ret tt) s.
Proof.
  assert (H : forall s1,
             write_inline visit nodes true separator false s
             <> Returns true s1).
  { intros s1 Heq. apply write_inline_overflows in Heq.
    destruct Heq. discriminate. }
  split; [exact H|].
  unfold write_expression_list, bind, gets.
  destruct (write_inline visit nodes true separator false s) as [[|] s1|e s1];
    [exfalso; eapply H; reflexivity|reflexivity|reflexivity].
Qed.

(** ** Completed lines *)

Definition ends_with_newline (line : string) : Prop :=
  exists w, line = (w ++ Py.newline)%string.

(** Every completed line ends with a line end. *)
Definition lines_closed (s : state) : Prop :=
  Forall ends_with_newline (lines (self s)).

Lemma join_closed (l : list string) :
  Forall ends_with_newline l ->
  Py.join l = EmptyString \/ ends_with_newline (Py.join l).
Proof.
  induction 1 as [|x l [w ->] Hl IH]; [left; reflexivity|right].
  rewrite join_cons. destruct IH as [->|[v ->]].
  - exists w. apply append_nil_r.
  - exists (w ++ Py.newline ++ v)%string. rewrite !append_assoc. reflexivity.
Qed.

Lemma Forall_first {A : Type} (P : A -> Prop) (n : nat) (l : list A) :
  Forall P l -> Forall P (firstn n l).
Proof.
  intro H. revert n. induction H; intros [|n]; simpl; constructor; auto.
Qed.

Lemma visit_lines_closed (fuel : nat) (node : AST) (s : state) :
  lines_closed s -> lines_closed (state_of (visit fuel node s)).
Proof.
  assert (H : @sound (fun s s' => lines_closed s -> lines_closed s')
                (fun s _ s' => lines_closed s -> lines_closed s') unit
                (visit fuel node)).
  { apply visit_sound; auto.
    - intros s0 H. apply Forall_app. split; [exact H|].
      constructor; [eexists; reflexivity|constructor].
    - intros s0 s' H H0. unfold lines_closed. simpl.
      apply Forall_first, H, H0.
    - intros n s0 s' _ H H0. apply H.
      unfold entered. destruct (requests_flag n); exact H0.
    - intros n s0 _ s' _ H H0. apply H.
      unfold entered. destruct (requests_flag n); exact H0. }
  specialize (H s). destruct (visit fuel node s); apply H.
Qed.

(** X6: every line that [write_newline] completes ends with a line end,
    and [write_expression_list] only deletes whole lines, so the text that
    [decompile] returns is empty or ends with a line end. *)
Theorem decompile_ends_with_newline (ast : AST) (indentation line_length : Z)
    (text : string) :
  decompile ast indentation line_length = inl text ->
  text = EmptyString \/ ends_with_newline text.
Proof.
  unfold decompile, decompile_within.
  pose proof (@visit_lines_closed (height ast) ast
                (init indentation line_length)) as H.
  destruct (visit (height ast) ast (init indentation line_length))
    as [[] s|e s]; [|discriminate].
  intro Heq. injection Heq as <-.
  apply join_closed, H. constructor.
Qed.

Lemma decompile_ends_with_newline_witness :
  ("pass" ++ Py.newline)%string = EmptyString
  \/ ends_with_newline ("pass" ++ Py.newline)%string.
Proof.
  apply (@decompile_ends_with_newline (Module [Pass]) 4 100).
  vm_compute. reflexivity.
Defined.

(* ================================================================== *)
(** * Trees that are decompiled without an exception *)
(* ================================================================== *)

(** The operators of [ast.operator], [ast.unaryop] and [ast.boolop]. *)
Definition is_binary_operator (op : AST) : bool :=
  match op with
  | Operator (Add | Sub | Mult | Div | Mod | Pow | LShift | RShift | BitOr
             | BitXor | BitAnd | FloorDiv) => true
  | _ => false
  end.

Definition is_unary_operator (op : AST) : bool :=
  match op with
  | Operator (Invert | Not | UAdd | USub) => true
  | _ => false
  end.

Definition is_boolean_operator (op : AST) : bool :=
  match op with
  | Operator (BoolAnd | BoolOr) => true
  | _ => false
  end.

Definition is_alias (n : AST) : bool :=
  match n with alias _ _ => true | _ => false end.

Definition is_arguments (n : AST) : bool :=
  match n with arguments _ _ _ _ => true | _ => false end.

(** What the methods rely on in the fields of a node: the class has a
    method, an operation holds an operator of its own kind, a lambda holds
    an [arguments], the names of an import are [alias]es. *)
Definition fits_its_class (node : AST) : bool :=
  match node with
  | Suite _ => false
  | BinOp _ _ op _ => is_binary_operator op
  | UnaryOp op _ => is_unary_operator op
  | BoolOp op _ => is_boolean_operator op
  | Lambda args _ => is_arguments args
  | ImportFrom _ names _ => forallb is_alias names
  | _ => true
  end.

(** Every node that the traversal of [node] visits fits its class;
    [fuel] bounds the depth, as for [visit]. *)
Fixpoint as_parsed (fuel : nat) (node : AST) : bool :=
  match fuel with
  | O => false
  | S fuel' =>
      fits_its_class node && forallb (as_parsed fuel') (callees node)
  end.

(** An entry of the ancestry stack below which a node is visited: an
    operator has no children. *)
Definition entry_fits (x : entry) : bool :=
  match x with
  | ENode (Operator _) => false
  | ENode n => fits_its_class n
  | CallArgs => true
  end.

Definition option_fits (x : option entry) : Prop :=
  match x with
  | Some e => entry_fits e = true
  | None => True
  end.

(** Every entry of the ancestry stack fits its class. *)
Definition stack_fits (s : state) : Prop :=
  Forall (fun x => entry_fits x = true) (node_stack (self s)).

Definition keeps_fit (s s' : state) : Prop := stack_fits s -> stack_fits s'.

Definition raises_nothing (s : state) (e : exn) (s' : state) : Prop :=
  stack_fits s -> False.

(** From a stack that fits, the method returns, with a stack that fits. *)
Definition safe {A : Type} (m : M A) : Prop :=
  @sound keeps_fit raises_nothing A m.

Lemma keeps_fit_refl (s : state) : keeps_fit s s.
Proof. intro H. exact H. Qed.

Lemma keeps_fit_trans (s1 s2 s3 : state) :
  keeps_fit s1 s2 -> keeps_fit s2 s3 -> keeps_fit s1 s3.
Proof. unfold keeps_fit. auto. Qed.

Lemma raises_nothing_trans (s1 s2 : state) (e : exn) (s3 : state) :
  keeps_fit s1 s2 -> raises_nothing s2 e s3 -> raises_nothing s1 e s3.
Proof. unfold keeps_fit, raises_nothing. auto. Qed.

Lemma keeps_fit_written (code : string) (s : state) :
  keeps_fit s (update (written code) s).
Proof. intro H. exact H. Qed.

Lemma keeps_fit_line_closed (s : state) : keeps_fit s (update line_closed s).
Proof. intro H. exact H. Qed.

Lemma keeps_fit_indented (s s' : state) :
  keeps_fit (update indented s) s' -> keeps_fit s (update dedented s').
Proof. intros H Hs. exact (H Hs). Qed.

Lemma raises_nothing_indented (s : state) (e : exn) (s' : state) :
  raises_nothing (update indented s) e s' ->
  raises_nothing s e (update dedented s').
Proof. intros H Hs. exact (H Hs). Qed.

Lemma keeps_fit_reset (s s' : state) :
  keeps_fit s s' ->
  keeps_fit s (update (reset_state (List.length (lines (self s)))
                         (current_line (self s))) s').
Proof. intros H Hs. exact (H Hs). Qed.

Lemma Forall_removelast {A : Type} (P : A -> Prop) (l : list A) :
  Forall P l -> Forall P (removelast l).
Proof.
  induction 1 as [|x l Hx Hl IH]; simpl; [constructor|].
  destruct l; [constructor|]. constructor; assumption.
Qed.

Lemma stack_fits_pushed (x : entry) (s : state) :
  entry_fits x = true ->
  stack_fits s ->
  Forall (fun x => entry_fits x = true) (node_stack (self s) ++ [x]).
Proof. intros Hx Hs. apply Forall_app. split; [exact Hs|auto]. Qed.

Lemma keeps_fit_CallArgs (s s' : state) :
  keeps_fit (push_CallArgs s) s' -> keeps_fit s (pop_CallArgs s').
Proof.
  intros H Hs. unfold stack_fits. simpl. apply Forall_removelast, H.
  apply (@stack_fits_pushed CallArgs s); [reflexivity|exact Hs].
Qed.

Lemma raises_nothing_CallArgs (s : state) (e : exn) (s' : state) :
  raises_nothing (push_CallArgs s) e s' ->
  raises_nothing s e (pop_CallArgs s').
Proof.
  intros H Hs. apply H.
  apply (@stack_fits_pushed CallArgs s); [reflexivity|exact Hs].
Qed.

(** The value that [precedence_of_node] returns for an entry that fits. *)
Definition precedence_value (x : option entry) : Z :=
  match x with
  | Some (ENode (BinOp _ _ op _))
  | Some (ENode (UnaryOp op _))
  | Some (ENode (BoolOp op _)) =>
      match PRECEDENCE (ENode op) with Some p => p | None => -1 end
  | Some x => match PRECEDENCE x with Some p => p | None => -1 end
  | None => -1
  end.

(** The operator that [H] says is of a kind. *)
Ltac operator_of H :=
  match type of H with
  | _ ?op = true => destruct op; try discriminate H
  end;
  match goal with
  | o : operator_class |- _ => destruct o; try discriminate H
  end.

Lemma precedence_of_fitting (x : option entry) :
  option_fits x -> precedence_of_node x = ret (precedence_value x).
Proof.
  destruct x as [[n|]|]; try reflexivity.
  destruct n; try reflexivity; simpl; intro H; operator_of H; reflexivity.
Qed.

(** The precedence of a binary operator is that of no unary or Boolean
    operator and of no other class. *)
Lemma binary_operator_precedence (op : AST) :
  is_binary_operator op = true ->
  exists p, PRECEDENCE (ENode op) = Some p /\ (4 <= p <= 9 \/ p = 11).
Proof.
  destruct op; try discriminate. destruct o; try discriminate; intros _;
    eexists; (split; [reflexivity|lia]).
Qed.

Lemma parent_of_equal_precedence (x : option entry) :
  option_fits x ->
  (4 <= precedence_value x <= 9 \/ precedence_value x = 11) ->
  exists l r, getattr_left x = Some l /\ getattr_right x = Some r.
Proof.
  destruct x as [[n|]|]; [|simpl; lia|simpl; lia].
  destruct n; try (simpl; intros; lia);
    try (intros; do 2 eexists; split; reflexivity);
    simpl; intro H; operator_of H; simpl; lia.
Qed.

Lemma parent_fits (s : state) :
  stack_fits s -> option_fits (nth_error (rev (node_stack (self s))) 1).
Proof.
  intro H. destruct (nth_error (rev (node_stack (self s))) 1) as [x|] eqn:Hx;
    [|exact I].
  apply nth_error_In, in_rev in Hx. unfold stack_fits in H.
  rewrite Forall_forall in H. apply H, Hx.
Qed.

(** A method is safe when it is from the states whose stack fits. *)
Lemma safe_from_fitting {A : Type} (m : M A) :
  (forall s, stack_fits s -> post keeps_fit raises_nothing s (m s)) ->
  safe m.
Proof.
  intros H s. specialize (H s).
  destruct (m s); simpl in *; intro Hs; apply (H Hs Hs).
Qed.

Lemma safe_with_parent {A : Type} (k : option entry -> M A) :
  (forall x, option_fits x -> safe (k x)) ->
  safe (bind get_parent_node k).
Proof.
  intro H. apply safe_from_fitting. intros s Hs.
  unfold bind, get_parent_node, gets. apply H, parent_fits, Hs.
Qed.

Lemma safe_precedence {A : Type} (x : option entry) (k : Z -> M A) :
  option_fits x ->
  (forall p, safe (k p)) ->
  safe (bind (precedence_of_node x) k).
Proof.
  intros Hx H s. rewrite (precedence_of_fitting x Hx). apply H.
Qed.

(** The side conditions of the rules of the logic, for [safe]. *)
Ltac safe_side :=
  first
    [ exact keeps_fit_refl | exact keeps_fit_trans
    | exact raises_nothing_trans | exact keeps_fit_written
    | exact keeps_fit_line_closed | exact keeps_fit_indented
    | exact raises_nothing_indented | exact keeps_fit_reset
    | exact keeps_fit_CallArgs | exact raises_nothing_CallArgs ].

Lemma safe_bind {A B : Type} (m : M A) (k : A -> M B) :
  safe m -> (forall a, safe (k a)) -> safe (bind m k).
Proof. apply sound_bind; safe_side. Qed.

Lemma safe_modify (f : Decompiler -> Decompiler) :
  (forall d, node_stack (f d) = node_stack d) -> safe (modify f).
Proof.
  intros H s Hs. unfold stack_fits. simpl. rewrite H. exact Hs.
Qed.

Section Fitting.

(** The visitor the methods call, safe on the nodes that satisfy [G]. *)
Variable visit : AST -> M unit.
Variable G : AST -> Prop.
Hypothesis safe_visit : forall n, G n -> safe (visit n).

Ltac in_callees :=
  subst;
  try match goal with
      | H : In (_, _) (combine _ _) |- _ => apply in_pairs in H; destruct H
      end;
  first
    [ assumption
    | repeat first [rewrite in_app_iff | progress simpl]; subst;
      intuition (subst; simpl; auto with datatypes) ].

(** One step of a proof that a method is safe. *)
Ltac safe_step HG :=
  match goal with
  | |- safe _ => unfold safe
  | |- sound _ _ (ret _) => apply sound_ret; safe_side
  | |- sound _ _ (gets _) => apply sound_gets; safe_side
  | |- sound _ _ (write _) => apply sound_write; safe_side
  | |- sound _ _ write_newline => apply sound_write_newline; safe_side
  | |- sound _ _ write_indentation =>
      apply sound_write_indentation; safe_side
  | |- sound _ _ get_parent_node => apply sound_get_parent_node; safe_side
  | |- sound _ _ (when _ _) => apply sound_when; [safe_side|]
  | |- sound _ _ (if_some _ _) => apply sound_if_some; [safe_side|intros ? ?]
  | |- sound _ _ (for_each _ _) =>
      apply sound_for_each; [safe_side..|intros ? ?]
  | |- sound _ _ (add_indentation _) =>
      apply sound_add_indentation; [safe_side..|]
  | |- sound _ _ (parenthesize_if _ _) =>
      apply sound_parenthesize_if; [safe_side..|]
  | |- sound _ _ (write_suite _ _) =>
      apply sound_write_suite with (G := G); [safe_side..|exact safe_visit|]
  | |- sound _ _ (write_else _ _) =>
      apply sound_write_else with (G := G); [safe_side..|exact safe_visit|]
  | |- sound _ _ (write_expression_list _ _ _ _ _ _) =>
      apply sound_write_expression_list with (G := G);
      [safe_side..|exact safe_visit|]
  | |- sound _ _ (effect push_CallArgs ;; _) =>
      apply sound_CallArgs; [safe_side..|]
  | |- sound _ _ (visit _) => apply safe_visit, HG; in_callees
  | |- sound _ _ (bind _ _) => apply safe_bind; [|intro]
  | |- sound _ _ (let (_, _) := ?p in _) => destruct p
  | |- sound _ _ (if ?b then _ else _) => destruct b
  | |- sound _ _ (match ?x with _ => _ end) =>
      is_var x; destruct x; cbn beta iota in HG |- *
  | |- Forall G _ =>
      apply Forall_forall; intros ? ?; apply HG; in_callees
  end.

(** The methods that read no precedence and no attribute of a field. *)
Lemma safe_simple_methods (node : AST) :
  (forall x, In x (callees node) -> G x) ->
  match node with
  | Suite _ | ImportFrom _ _ _ | If _ _ _ | With _ _ _ | BoolOp _ _
  | BinOp _ _ _ _ | UnaryOp _ _ | Lambda _ _ | Compare _ _ _ => True
  | _ => safe (NodeVisitor_visit visit node)
  end.
Proof.
  intro HG. destruct node; try exact I; cbn [callees] in HG;
    cbn [NodeVisitor_visit]; autounfold with methods.
  all: repeat safe_step HG.
Qed.

Lemma safe_visit_BoolOp (op : AST) (values : list AST) :
  is_boolean_operator op = true ->
  (forall x, In x (callees (BoolOp op values)) -> G x) ->
  safe (visit_BoolOp visit (BoolOp op values) op values).
Proof.
  intros Hop HG. cbn [callees] in HG. unfold visit_BoolOp.
  apply safe_precedence; [exact Hop|intro my_prec].
  apply safe_with_parent. intros parent_node Hparent.
  apply safe_precedence; [exact Hparent|intro parent_prec].
  repeat safe_step HG.
Qed.

Lemma safe_visit_UnaryOp (op operand : AST) :
  is_unary_operator op = true ->
  (forall x, In x (callees (UnaryOp op operand)) -> G x) ->
  safe (visit_UnaryOp visit (UnaryOp op operand) op operand).
Proof.
  intros Hop HG. cbn [callees] in HG. unfold visit_UnaryOp.
  apply safe_precedence; [exact Hop|intro my_prec].
  apply safe_with_parent. intros parent_node Hparent.
  apply safe_precedence; [exact Hparent|intro parent_prec].
  repeat safe_step HG.
Qed.

Lemma safe_visit_Compare (l : AST) (ops comparators : list AST) :
  (forall x, In x (callees (Compare l ops comparators)) -> G x) ->
  safe (visit_Compare visit (Compare l ops comparators) l ops comparators).
Proof.
  intros HG. cbn [callees] in HG. unfold visit_Compare.
  apply safe_precedence; [reflexivity|intro my_prec].
  apply safe_with_parent. intros parent_node Hparent.
  apply safe_precedence; [exact Hparent|intro parent_prec].
  repeat safe_step HG.
Qed.

(** [visit_BinOp] finds the attribute [left] or [right] that it reads:
    only a parent that is a [BinOp] has the precedence of the node. *)
Lemma BinOp_should_parenthesize_returns (obj : nat) (l op r : AST)
    (s : state) :
  is_binary_operator op = true ->
  stack_fits s ->
  exists b,
    BinOp_should_parenthesize (BinOp obj l op r) op s = Returns b s.
Proof.
  intros Hop Hs.
  unfold BinOp_should_parenthesize, bind at 1, get_parent_node, gets.
  pose proof (parent_fits Hs) as Hx.
  set (x := nth_error (rev (node_stack (self s))) 1) in *.
  unfold bind at 1.
  rewrite (@precedence_of_fitting (Some (ENode (BinOp obj l op r)))) by exact Hop.
  cbn [ret]. unfold bind at 1. rewrite (precedence_of_fitting x Hx). cbn [ret].
  destruct (binary_operator_precedence op Hop) as [p [Hp Hrange]].
  cbn [precedence_value]. rewrite Hp.
  destruct (p <? precedence_value x); [eexists; reflexivity|].
  destruct (p =? precedence_value x) eqn:Heq; [|eexists; reflexivity].
  apply Z.eqb_eq in Heq. rewrite Heq in Hrange.
  destruct (parent_of_equal_precedence x Hx Hrange) as [pl [pr [Hl Hr]]].
  destruct (is_Pow op); unfold bind; rewrite ?Hl, ?Hr; eexists; reflexivity.
Qed.

Lemma safe_visit_BinOp (obj : nat) (l op r : AST) :
  is_binary_operator op = true ->
  (forall x, In x (callees (BinOp obj l op r)) -> G x) ->
  safe (visit_BinOp visit (BinOp obj l op r) l op r).
Proof.
  intros Hop HG. cbn [callees] in HG.
  assert (Hcode : forall b, safe (parenthesize_if b (BinOp_code visit l op r))).
  { intro b. unfold BinOp_code. repeat safe_step HG. }
  apply safe_from_fitting. intros s Hs. unfold visit_BinOp, bind at 1.
  destruct (@BinOp_should_parenthesize_returns obj l op r s Hop Hs) as [b ->].
  apply Hcode.
Qed.

Lemma safe_visit_Lambda (args body : AST) :
  is_arguments args = true ->
  (forall x, In x (callees (Lambda args body)) -> G x) ->
  safe (visit_Lambda visit args body).
Proof.
  intros Hargs HG. cbn [callees] in HG.
  destruct args; try discriminate.
  unfold visit_Lambda, Lambda_code. cbn [Lambda_has_arguments attribute].
  repeat safe_step HG.
Qed.

Lemma requests_unicode_literals_of_aliases (module : option string)
    (names : list AST) :
  forallb is_alias names = true ->
  exists b, requests_unicode_literals module names = Some b.
Proof.
  intro H. unfold requests_unicode_literals.
  destruct (module_equals module "__future__"); [|eexists; reflexivity].
  induction names as [|a names IH]; [eexists; reflexivity|].
  simpl in H. apply andb_prop in H. destruct H as [Ha H].
  destruct a; try discriminate. simpl.
  destruct (String.eqb name "unicode_literals"); [eexists; reflexivity|].
  apply IH, H.
Qed.

Lemma safe_visit_ImportFrom (module : option string) (names : list AST)
    (level : option Z) :
  forallb is_alias names = true ->
  (forall x, In x (callees (ImportFrom module names level)) -> G x) ->
  safe (visit_ImportFrom visit module names level).
Proof.
  intros Hnames HG. cbn [callees] in HG. unfold visit_ImportFrom.
  destruct (@requests_unicode_literals_of_aliases module names Hnames) as [b ->].
  cbn [attribute].
  apply safe_bind; [apply sound_ret; safe_side|intro requested].
  apply safe_bind; [|intros _; repeat safe_step HG].
  destruct requested; cbn [when]; [|apply sound_ret; safe_side].
  apply safe_modify. reflexivity.
Qed.

(** Every method is safe on a node that fits its class. *)
Lemma safe_methods (node : AST) :
  fits_its_class node = true ->
  (forall x, In x (callees node) -> G x) ->
  safe (NodeVisitor_visit visit node).
Proof.
  intros Hfit HG.
  pose proof (safe_simple_methods node HG) as Hsimple.
  pose proof (@sound_visit_With keeps_fit raises_nothing keeps_fit_refl
                keeps_fit_trans raises_nothing_trans keeps_fit_written
                keeps_fit_line_closed keeps_fit_indented
                raises_nothing_indented visit G safe_visit node HG) as Hwith.
  destruct node; try exact Hsimple; try exact Hwith;
    cbn [NodeVisitor_visit fits_its_class] in *;
    first
      [ discriminate
      | apply safe_visit_BoolOp; assumption
      | apply safe_visit_BinOp; assumption
      | apply safe_visit_UnaryOp; assumption
      | apply safe_visit_Compare; assumption
      | apply safe_visit_Lambda; assumption
      | apply safe_visit_ImportFrom; assumption
      | idtac ].
  eapply (@sound_visit_If keeps_fit raises_nothing);
    [safe_side..|exact safe_visit|reflexivity|exact HG].
Qed.

(** One call of [Decompiler.visit] on a node that fits its class. *)
Lemma safe_visit_step (node : AST) :
  fits_its_class node = true ->
  (forall x, In x (callees node) -> G x) ->
  safe (effect (push_node node) ;;
        try_finally (NodeVisitor_visit visit node) pop_node).
Proof.
  intros Hfit HG s. unfold bind, effect, try_finally.
  assert (Hpop : forall s', node_stack (self s') = node_stack (self s)
                              ++ [ENode node] ->
                 stack_fits s -> stack_fits (pop_node s')).
  { intros s' Heq Hs. unfold stack_fits. simpl. rewrite Heq, removelast_last.
    exact Hs. }
  destruct (entry_fits (ENode node)) eqn:Hentry.
  - pose proof (@safe_methods node Hfit HG (push_node node s)) as Hm.
    destruct (NodeVisitor_visit visit node (push_node node s)); simpl in *;
      intro Hs.
    + apply Forall_removelast, Hm, stack_fits_pushed; assumption.
    + apply Hm, stack_fits_pushed; assumption.
  - destruct node; try (simpl in Hentry, Hfit; congruence).
    simpl. intro Hs. apply Hpop; [reflexivity|exact Hs].
Qed.

End Fitting.

(** Every call of [visit] on a tree that is as the parser makes it returns,
    from a state whose stack fits. *)
Lemma visit_as_parsed (fuel : nat) :
  forall node, as_parsed fuel node = true -> safe (visit fuel node).
Proof.
  induction fuel as [|fuel IH]; intros node H; [discriminate|].
  cbn [as_parsed] in H. apply andb_prop in H. destruct H as [Hfit Hc].
  cbn [visit].
  apply (@safe_visit_step (visit fuel) (fun x => as_parsed fuel x = true));
    [exact IH|exact Hfit|].
  rewrite forallb_forall in Hc. exact Hc.
Qed.

(** X7: [decompile] returns a text (it raises nothing) for every tree in
    which each node that the traversal visits has a method, each [BinOp],
    [UnaryOp] and [BoolOp] holds an operator of its own kind, each
    [Lambda] holds an [arguments] and the names of each [ImportFrom] are
    [alias]es, as in the trees that the parser makes: no table lookup in
    [precedence_of_node] and no attribute that a method reads fails. *)
Theorem decompile_as_parsed_returns (ast : AST) (indentation line_length : Z) :
  as_parsed (height ast) ast = true ->
  exists text, decompile ast indentation line_length = inl text.
Proof.
  intro H. unfold decompile, decompile_within.
  pose proof (@visit_as_parsed (height ast) ast H
                (init indentation line_length)) as Hv.
  destruct (visit (height ast) ast (init indentation line_length))
    as [[] s|e s]; simpl in Hv.
  - eexists. reflexivity.
  - exfalso. apply Hv. constructor.
Qed.

(** [ast.parse("x = (lambda a, b=1: a ** -b)(y) and not z < 2")]. *)
Definition assignment_of_operations : AST :=
  Module
    [Assign [Name "x"]
       (BoolOp (Operator BoolAnd)
          [Call (Lambda (arguments [Name "a"; Name "b"] None None
                           [Num (Py.PyInt 1)])
                   (BinOp 0 (Name "a") (Operator Pow)
                      (UnaryOp (Operator USub) (Name "b"))))
             [Name "y"] [] None None;
           UnaryOp (Operator Not)
             (Compare (Name "z") [Operator CmpLt] [Num (Py.PyInt 2)])])].

Lemma decompile_as_parsed_returns_witness :
  exists text, decompile assignment_of_operations 4 100 = inl text.
Proof.
  apply (@decompile_as_parsed_returns assignment_of_operations 4 100).
  vm_compute. reflexivity.
Defined.

Example decompile_assignment_of_operations :
  decompile assignment_of_operations 4 100
  = inl ("x = (lambda a, b=1: a ** (-b))(y) and not z < 2" ++ Py.newline)%string.
Proof. vm_compute. reflexivity. Qed.

(** X8: an operation whose [op] field holds an object whose class is not
    in the precedence table (a comparison operator, a name, ...) makes
    [visit] raise [KeyError], with nothing written and the ancestry stack
    as it was: [precedence_of_node] looks the class up without a
    default. *)
Theorem operation_without_precedence_raises_KeyError (fuel : nat)
    (op : AST) (s : state) :
  PRECEDENCE (ENode op) = None ->
  (forall values,
      exists s',
        visit (S fuel) (BoolOp op values) s = Raises KeyError s'
        /\ self s' = self s)
  /\ (forall operand,
        exists s',
          visit (S fuel) (UnaryOp op operand) s = Raises KeyError s'
          /\ self s' = self s)
  /\ (forall obj l r,
        exists s',
          visit (S fuel) (BinOp obj l op r) s = Raises KeyError s'
          /\ self s' = self s).
Proof.
  intro H.
  assert (Hself : forall n, self (pop_node (push_node n s)) = self s).
  { intro n. destruct s as [d k l]. destruct d. simpl. unfold set_node_stack.
    simpl. rewrite removelast_last. reflexivity. }
  split; [|split]; intros; eexists; (split; [|apply Hself]);
    rewrite visit_unfold; unfold visiting, bind at 1, effect, try_finally;
    cbn [NodeVisitor_visit];
    unfold visit_BoolOp, visit_UnaryOp, visit_BinOp, BinOp_should_parenthesize,
      get_parent_node, gets, bind;
    cbn [precedence_of_node]; rewrite H; reflexivity.
Qed.

Lemma operation_without_precedence_raises_KeyError_witness :
  exists s',
    visit 1 (BinOp 0 (Name "a") (Operator CmpEq) (Name "b")) (init 4 100)
    = Raises KeyError s'
    /\ self s' = self (init 4 100).
Proof.
  apply (@operation_without_precedence_raises_KeyError 0 (Operator CmpEq)
           (init 4 100)).
  reflexivity.
Defined.

(** ** Parentheses by precedence *)

(** The parent that the method of a node finds: the entry on top of the
    stack when [visit] is called. *)
Lemma parent_is_the_top (node : AST) (s : state) :
  get_parent_node (push_node node s)
  = Returns (nth_error (rev (node_stack (self s))) 0) (push_node node s).
Proof.
  unfold get_parent_node, gets. simpl. rewrite rev_app_distr. reflexivity.
Qed.

(** X9: a binary operation whose operator binds less tightly than its
    parent (the entry on top of the stack: [x], with precedence [q]) is
    written between parentheses, and one whose operator binds more
    tightly is written without; at the root and under a statement, where
    the precedence of the parent is [-1], it is never parenthesized. *)
Theorem BinOp_parentheses_by_precedence (fuel : nat) (s : state)
    (x : option entry) (obj : nat) (l op r : AST) (p q : Z) :
  nth_error (rev (node_stack (self s))) 0 = x ->
  PRECEDENCE (ENode op) = Some p ->
  precedence_of_node x = ret q ->
  (p < q ->
   visit (S fuel) (BinOp obj l op r) s
   = visiting (BinOp obj l op r)
       (parenthesized (BinOp_code (visit fuel) l op r)) s
   /\ forall s',
       visit (S fuel) (BinOp obj l op r) s = Returns tt s' ->
       exists w, emitted s' = (emitted s ++ "(" ++ w ++ ")")%string)
  /\ (q < p ->
      visit (S fuel) (BinOp obj l op r) s
      = visiting (BinOp obj l op r) (BinOp_code (visit fuel) l op r) s)
  /\ (q = -1 -> q < p).
Proof.
  intros Hx Hp Hq.
  assert (Heq : forall b, (p <? q) = b -> (b = false -> (p =? q) = false) ->
                visit (S fuel) (BinOp obj l op r) s
                = visiting (BinOp obj l op r)
                    (parenthesize_if b (BinOp_code (visit fuel) l op r)) s).
  { intros b Hb Hne. rewrite visit_unfold. unfold visiting, effect.
    unfold bind at 1. symmetry. unfold bind at 1. symmetry.
    cbn [NodeVisitor_visit].
    unfold visit_BinOp, BinOp_should_parenthesize, try_finally.
    unfold bind at 1 2. rewrite parent_is_the_top, Hx.
    unfold bind at 1. cbn [precedence_of_node]. rewrite Hp. cbn [ret].
    unfold bind at 1. rewrite Hq. cbn [ret]. rewrite Hb.
    destruct b; [reflexivity|]. rewrite Hne by reflexivity. reflexivity. }
  split; [|split].
  - intro Hlt.
    assert (H : visit (S fuel) (BinOp obj l op r) s
                = visiting (BinOp obj l op r)
                    (parenthesized (BinOp_code (visit fuel) l op r)) s).
    { apply (Heq true); [apply Z.ltb_lt, Hlt|discriminate]. }
    split; [exact H|]. intros s' Hs'. rewrite H in Hs'.
    eapply parenthesized_text; [apply steps_BinOp_code|exact Hs'].
  - intro Hlt. apply (Heq false); [apply Z.ltb_ge; lia|].
    intros _. apply Z.eqb_neq. lia.
  - intros ->. destruct op; try discriminate;
      try (injection Hp as <-; lia).
    match goal with
    | o : operator_class |- _ =>
        destruct o; try discriminate; injection Hp as <-; lia
    end.
Qed.

(** [(a + b) * c]: the sum is visited under the product. *)
Definition sum_under_product : state :=
  push_node (BinOp 1 (BinOp 0 (Name "a") (Operator Add) (Name "b"))
               (Operator Mult) (Name "c")) (init 4 100).

Lemma BinOp_parentheses_by_precedence_witness :
  visit 2 (BinOp 0 (Name "a") (Operator Add) (Name "b")) sum_under_product
  = visiting (BinOp 0 (Name "a") (Operator Add) (Name "b"))
      (parenthesized (BinOp_code (visit 1) (Name "a") (Operator Add)
                        (Name "b"))) sum_under_product
  /\ forall s',
      visit 2 (BinOp 0 (Name "a") (Operator Add) (Name "b")) sum_under_product
      = Returns tt s' ->
      exists w, emitted s' = ("(" ++ w ++ ")")%string.
Proof.
  apply (@BinOp_parentheses_by_precedence 1 sum_under_product
           (Some (ENode (BinOp 1 (BinOp 0 (Name "a") (Operator Add) (Name "b"))
                           (Operator Mult) (Name "c"))))
           0%nat (Name "a") (Operator Add) (Name "b") 8 9);
    [reflexivity|reflexivity|reflexivity|lia].
Defined.

(** ** The parameters of a function *)

(** The parameter and the default value that an item of the list written
    by [visit_arguments] stands for. *)
Definition parameter_of (item : AST) : AST :=
  match item with
  | KeywordArg name _ => name
  | _ => item
  end.

Definition default_of (item : AST) : list AST :=
  match item with
  | KeywordArg _ value => [value]
  | _ => []
  end.

Definition is_KeywordArg (n : AST) : bool :=
  match n with KeywordArg _ _ => true | _ => false end.

Lemma combine_fst {A B : Type} (a : list A) :
  forall b : list B,
    List.length a = List.length b -> map fst (combine a b) = a.
Proof.
  induction a as [|x a IH]; intros [|y b] H; try discriminate; simpl;
    [reflexivity|]. rewrite IH by (simpl in H; lia). reflexivity.
Qed.

Lemma combine_snd {A B : Type} (a : list A) :
  forall b : list B,
    List.length a = List.length b -> map snd (combine a b) = b.
Proof.
  induction a as [|x a IH]; intros [|y b] H; try discriminate; simpl;
    [reflexivity|]. rewrite IH by (simpl in H; lia). reflexivity.
Qed.

Lemma parameter_of_plain (l : list AST) :
  Forall (fun a => is_KeywordArg a = false) l ->
  map parameter_of l = l /\ flat_map default_of l = [].
Proof.
  induction 1 as [|a l Ha Hl [IH1 IH2]]; [split; reflexivity|].
  simpl. rewrite IH1, IH2. destruct a; try discriminate; split; reflexivity.
Qed.

Lemma parameter_of_pairs (pairs : list (AST * AST)) :
  map parameter_of (map (fun '(name, value) => KeywordArg name value) pairs)
  = map fst pairs
  /\ flat_map default_of
       (map (fun '(name, value) => KeywordArg name value) pairs)
     = map snd pairs.
Proof.
  induction pairs as [|[name value] pairs [IH1 IH2]]; [split; reflexivity|].
  simpl. rewrite IH1, IH2. split; reflexivity.
Qed.

(** X10: when a function has at most as many defaults as positional
    parameters, the list that [visit_arguments] writes starts with one
    item for each positional parameter, in order; the defaults go, in
    order, to the last parameters, none is dropped; and [*vararg] and
    [**kwarg] follow. *)
Theorem arguments_keep_parameters_and_defaults (args : list AST)
    (vararg kwarg : option string) (defaults : list AST) :
  (List.length defaults <= List.length args)%nat ->
  Forall (fun a => is_KeywordArg a = false) args ->
  let items := arguments_args args vararg kwarg defaults in
  map parameter_of (firstn (List.length args) items) = args
  /\ flat_map default_of (firstn (List.length args) items) = defaults
  /\ firstn (List.length args - List.length defaults) items
     = firstn (List.length args - List.length defaults) args
  /\ skipn (List.length args) items
     = (if Py.truthy_opt_str vararg
        then [StarArg (Name (match vararg with
                             | Some v => v
                             | None => EmptyString
                             end))]
        else [])
       ++ (if Py.truthy_opt_str kwarg
           then [DoubleStarArg (Name (match kwarg with
                                      | Some v => v
                                      | None => EmptyString
                                      end))]
           else []).
Proof.
  intros Hlen Hplain items. subst items. unfold arguments_args.
  set (k := (List.length args - List.length defaults)%nat).
  set (rest := (if Py.truthy_opt_str vararg then _ else _) ++ _).
  assert (Hsplit : exists pairs,
             (if nonempty defaults then firstn k args else args)
               ++ map (fun '(name, value) => KeywordArg name value)
                    (if nonempty defaults
                     then combine (skipn k args) defaults else [])
               ++ rest
             = firstn k args
                 ++ map (fun '(name, value) => KeywordArg name value) pairs
                 ++ rest
             /\ map fst pairs = skipn k args
             /\ map snd pairs = defaults).
  { destruct defaults as [|d defaults].
    - exists []. simpl in k. subst k. rewrite Nat.sub_0_r, firstn_all, skipn_all.
      simpl. repeat split; reflexivity.
    - exists (combine (skipn k args) (d :: defaults)).
      assert (Hl : List.length (skipn k args) = List.length (d :: defaults))
        by (rewrite length_skipn; subst k; lia).
      cbn [nonempty]. split; [reflexivity|].
      split; [apply combine_fst, Hl|apply combine_snd, Hl]. }
  destruct Hsplit as [pairs [-> [Hfst Hsnd]]].
  assert (Hk : List.length (firstn k args) = k)
    by (rewrite length_firstn; subst k; lia).
  assert (Hp : List.length pairs = List.length defaults)
    by (rewrite <- Hsnd, length_map; reflexivity).
  set (kw := map (fun '(name, value) => KeywordArg name value) pairs).
  assert (Hkw : List.length kw = List.length defaults)
    by (subst kw; rewrite length_map; exact Hp).
  assert (Hfirst : firstn (List.length args) (firstn k args ++ kw ++ rest)
                   = firstn k args ++ kw).
  { rewrite app_assoc.
    replace (List.length args) with (List.length (firstn k args ++ kw) + 0)%nat
      by (rewrite length_app, Hk, Hkw; subst k; lia).
    rewrite firstn_app_2. simpl. apply app_nil_r. }
  assert (Hpl : Forall (fun a => is_KeywordArg a = false) (firstn k args))
    by (apply Forall_first, Hplain).
  destruct (parameter_of_plain Hpl) as [Hp1 Hp2].
  destruct (parameter_of_pairs pairs) as [Hq1 Hq2]. fold kw in Hq1, Hq2.
  repeat split.
  - rewrite Hfirst, map_app, Hp1, Hq1, Hfst. apply firstn_skipn.
  - rewrite Hfirst, flat_map_app, Hp2, Hq2, Hsnd. reflexivity.
  - rewrite firstn_app, Hk, Nat.sub_diag. simpl.
    rewrite app_nil_r, firstn_firstn, Nat.min_id. reflexivity.
  - rewrite app_assoc.
    replace (List.length args) with (List.length (firstn k args ++ kw) + 0)%nat
      by (rewrite length_app, Hk, Hkw; subst k; lia).
    rewrite skipn_app, skipn_all2 by lia.
    replace (_ + 0 - _)%nat with 0%nat by lia. reflexivity.
Qed.

(** [def f(a, b=1, *c)]. *)
Lemma arguments_keep_parameters_and_defaults_witness :
  map parameter_of
    (firstn 2 (arguments_args [Name "a"; Name "b"] (Some "c") None
                 [Num (Py.PyInt 1)]))
  = [Name "a"; Name "b"]
  /\ flat_map default_of
       (firstn 2 (arguments_args [Name "a"; Name "b"] (Some "c") None
                    [Num (Py.PyInt 1)]))
     = [Num (Py.PyInt 1)].
Proof.
  destruct (@arguments_keep_parameters_and_defaults
              [Name "a"; Name "b"] (Some "c") None [Num (Py.PyInt 1)])
    as [H1 [H2 _]].
  - simpl. lia.
  - repeat constructor.
  - split; [exact H1|exact H2].
Defined.

Lemma combine_first {A B : Type} (a : list A) :
  forall b : list B, combine a b = combine a (firstn (List.length a) b).
Proof.
  induction a as [|x a IH]; intros [|y b]; simpl; try reflexivity.
  rewrite <- IH. reflexivity.
Qed.

(** X11: when a function has more defaults than positional parameters,
    every parameter is written with a default, the first defaults are
    used in order, and the defaults that are left are dropped without an
    error ([node.args[:-num_defaults]] is empty and [zip] stops at the
    shorter list). *)
Theorem surplus_defaults_are_dropped (args : list AST)
    (vararg kwarg : option string) (defaults : list AST) :
  (List.length args < List.length defaults)%nat ->
  firstn (List.length args) (arguments_args args vararg kwarg defaults)
  = map (fun '(name, value) => KeywordArg name value)
      (combine args (firstn (List.length args) defaults))
  /\ List.length (arguments_args args vararg kwarg defaults)
     = (List.length args
        + (if Py.truthy_opt_str vararg then 1 else 0)
        + (if Py.truthy_opt_str kwarg then 1 else 0))%nat.
Proof.
  intro Hlen. unfold arguments_args.
  destruct defaults as [|d defaults]; [simpl in Hlen; lia|].
  cbn [nonempty].
  replace (List.length args - List.length (d :: defaults))%nat with 0%nat
    by lia.
  cbn [firstn skipn app].
  rewrite (combine_first args (d :: defaults)).
  set (pairs := combine args (firstn (List.length args) (d :: defaults))).
  assert (Hp : List.length pairs = List.length args).
  { subst pairs. rewrite length_combine, length_firstn. lia. }
  split.
  - replace (List.length args)
      with (List.length (map (fun '(name, value) => KeywordArg name value)
                           pairs) + 0)%nat
      by (rewrite length_map; lia).
    rewrite firstn_app_2. simpl. apply app_nil_r.
  - rewrite !length_app, length_map, Hp.
    destruct (Py.truthy_opt_str vararg), (Py.truthy_opt_str kwarg);
      simpl; lia.
Qed.

(** [arguments(args=[a], defaults=[1, 2])] is written [a=1]. *)
Lemma surplus_defaults_are_dropped_witness :
  firstn 1 (arguments_args [Name "a"] None None
              [Num (Py.PyInt 1); Num (Py.PyInt 2)])
  = [KeywordArg (Name "a") (Num (Py.PyInt 1))]
  /\ List.length (arguments_args [Name "a"] None None
                    [Num (Py.PyInt 1); Num (Py.PyInt 2)]) = 1%nat.
Proof.
  apply (@surplus_defaults_are_dropped [Name "a"] None None
           [Num (Py.PyInt 1); Num (Py.PyInt 2)]).
  simpl. lia.
Defined.

(* ================================================================== *)
(** * Statements end their line *)
(* ================================================================== *)

(** A tree of statements: the bodies of the compound statements hold
    statements (and exception handlers); [fuel] bounds the depth. *)
Fixpoint statements_only (fuel : nat) (node : AST) : bool :=
  match fuel with
  | O => false
  | S fuel' =>
      let block := forallb (statements_only fuel') in
      match node with
      | Module body | Interactive body | FunctionDef _ _ body _
      | ClassDef _ _ body _ | With _ _ body | ExceptHandler _ _ body =>
          block body
      | For _ _ body orelse | While _ body orelse | If _ body orelse =>
          block body && block orelse
      | TryExcept body handlers orelse =>
          block body && block handlers && block orelse
      | TryFinally body finalbody => block body && block finalbody
      | Return _ | Delete _ | Assign _ _ | AugAssign _ _ _ | Print _ _ _
      | Raise _ _ _ | Assert _ _ | Import _ | ImportFrom _ _ _ | Exec _ _ _
      | Global _ | Expr _ | Pass | Break | Continue => true
      | _ => false
      end
  end.

(** The method leaves no line in progress. *)
Definition ends_line {A : Type} (m : M A) : Prop :=
  forall s a s', m s = Returns a s' -> current_line (self s') = [].

(** The method leaves no line in progress when it starts with none. *)
Definition keeps_line {A : Type} (m : M A) : Prop :=
  forall s a s',
    current_line (self s) = [] -> m s = Returns a s' ->
    current_line (self s') = [].

Lemma ends_write_newline : ends_line write_newline.
Proof. intros s a s' H. injection H as _ <-. reflexivity. Qed.

Lemma ends_bind_last {A B : Type} (m : M A) (k : A -> M B) :
  (forall a, ends_line (k a)) -> ends_line (bind m k).
Proof.
  intros Hk s b s'. unfold bind. destruct (m s) as [a s1|e s1];
    [apply Hk|discriminate].
Qed.

Lemma ends_then_keeps {A B : Type} (m : M A) (k : A -> M B) :
  ends_line m -> (forall a, keeps_line (k a)) -> ends_line (bind m k).
Proof.
  intros Hm Hk s b s'. unfold bind. destruct (m s) as [a s1|e s1] eqn:H1;
    [|discriminate].
  apply Hk. eapply Hm, H1.
Qed.

Lemma keeps_of_ends {A : Type} (m : M A) : ends_line m -> keeps_line m.
Proof. intros H s a s' _. apply H. Qed.

Lemma keeps_ret {A : Type} (a : A) : keeps_line (ret a).
Proof. intros s b s' Hs H. injection H as _ <-. exact Hs. Qed.

Lemma keeps_bind {A B : Type} (m : M A) (k : A -> M B) :
  keeps_line m -> (forall a, keeps_line (k a)) -> keeps_line (bind m k).
Proof.
  intros Hm Hk s b s' Hs. unfold bind.
  destruct (m s) as [a s1|e s1] eqn:H1; [|discriminate].
  apply Hk. eapply Hm; eassumption.
Qed.

Lemma keeps_for_each {A : Type} (f : A -> M unit) (l : list A) :
  (forall x, In x l -> keeps_line (f x)) -> keeps_line (for_each f l).
Proof.
  induction l as [|x l IH]; intro H; simpl; [apply keeps_ret|].
  apply keeps_bind; [apply H; left; reflexivity|intros _].
  apply IH. intros y Hy. apply H. right. exact Hy.
Qed.

Lemma keeps_add_indentation (body : M unit) :
  keeps_line body -> keeps_line (add_indentation body).
Proof.
  intros Hb s a s' Hs.
  unfold add_indentation, bind, modify, effect, try_finally.
  match goal with
  | |- match body ?s1 with _ => _ end = _ -> _ =>
      specialize (Hb s1); destruct (body s1) as [[] s2|e s2];
      [|discriminate]
  end.
  intro H. injection H as _ <-. simpl. eapply Hb; [exact Hs|reflexivity].
Qed.

Lemma keeps_visiting (node : AST) (m : M unit) :
  keeps_line m -> keeps_line (visiting node m).
Proof.
  intros Hm s a s' Hs. unfold visiting, bind, effect, try_finally.
  specialize (Hm (push_node node s)).
  destruct (m (push_node node s)) as [[] s2|e s2]; [|discriminate].
  intro H. injection H as _ <-. simpl. eapply Hm; [exact Hs|reflexivity].
Qed.

Lemma statements_only_more (fuel : nat) :
  forall node,
    statements_only fuel node = true -> statements_only (S fuel) node = true.
Proof.
  induction fuel as [|fuel IH]; intros node H; [discriminate|].
  assert (Hb : forall l, forallb (statements_only fuel) l = true ->
               forallb (statements_only (S fuel)) l = true).
  { intros l Hl. apply forallb_forall. intros x Hx. apply IH.
    eapply forallb_forall in Hl; eassumption. }
  cbn [statements_only] in H. cbn [statements_only].
  destruct node; try discriminate; try reflexivity;
    repeat match goal with
           | H : (_ && _)%bool = true |- _ =>
               apply andb_prop in H; destruct H
           end;
    repeat (apply andb_true_intro; split); auto.
Qed.

Lemma statements_only_le (fuel fuel' : nat) (node : AST) :
  (fuel <= fuel')%nat ->
  statements_only fuel node = true -> statements_only fuel' node = true.
Proof.
  induction 1 as [|fuel' Hle IH]; intro H; [exact H|].
  apply statements_only_more, IH, H.
Qed.

Lemma block_le (fuel fuel' : nat) (l : list AST) :
  (fuel <= fuel')%nat ->
  forallb (statements_only fuel) l = true ->
  forallb (statements_only fuel') l = true.
Proof.
  intros Hle H. apply forallb_forall. intros x Hx.
  apply (@statements_only_le fuel fuel' x Hle).
  eapply forallb_forall in H; eassumption.
Qed.

(** The block that [visit_With] writes is a block of statements. *)
Lemma With_body_statements (fuel : nat) :
  forall node,
    statements_only (S fuel) node = true ->
    forallb (statements_only fuel) (snd (With_nodes node)) = true.
Proof.
  induction fuel as [|fuel IH]; intros node H.
  - destruct node; try reflexivity. cbn [statements_only] in H.
    destruct body; [reflexivity|discriminate].
  - destruct node; try reflexivity.
    assert (Hb : forallb (statements_only (S fuel)) body = true) by exact H.
    cbn [With_nodes]. destruct body as [|n' rest]; [reflexivity|].
    destruct n', rest; try exact Hb.
    match goal with
    | |- context [With_nodes ?w] =>
        assert (Hw : statements_only (S fuel) w = true)
          by (simpl in Hb; rewrite andb_true_r in Hb; exact Hb);
        apply IH in Hw; destruct (With_nodes w) as [nodes body']
    end.
    cbn [snd] in *. apply (@block_le fuel); [lia|exact Hw].
Qed.

Section Lines.

(** The visitor the methods call, on the trees of statements of depth
    [fuel]. *)
Variable visit : AST -> M unit.
Variable fuel : nat.
Hypothesis visit_keeps :
  forall x, statements_only fuel x = true -> keeps_line (visit x).

Lemma keeps_block (l : list AST) :
  forallb (statements_only fuel) l = true ->
  forall x, In x l -> keeps_line (visit x).
Proof.
  intros H x Hx. apply visit_keeps. eapply forallb_forall in H; eassumption.
Qed.

Lemma keeps_write_suite (l : list AST) :
  forallb (statements_only fuel) l = true -> keeps_line (write_suite visit l).
Proof.
  intro H. apply keeps_add_indentation, keeps_for_each, keeps_block, H.
Qed.

Lemma keeps_write_else (l : list AST) :
  forallb (statements_only fuel) l = true -> keeps_line (write_else visit l).
Proof.
  intro H. destruct l as [|x l]; [apply keeps_ret|].
  cbn [write_else]. apply keeps_of_ends.
  do 2 (apply ends_bind_last; intro).
  apply ends_then_keeps; [apply ends_write_newline|intro].
  apply keeps_write_suite, H.
Qed.

Ltac keeps_tac :=
  first
    [ apply keeps_ret
    | apply keeps_write_suite; assumption
    | apply keeps_write_else; assumption
    | apply keeps_for_each; apply keeps_block; assumption
    | apply keeps_bind; [keeps_tac|intro; keeps_tac]
    | apply keeps_of_ends; ends_tac ]
with ends_tac :=
  first
    [ apply ends_write_newline
    | apply ends_then_keeps; [apply ends_write_newline|intro; keeps_tac]
    | apply ends_bind_last; intro; ends_tac ].

(** The [elif] chain of [visit_If]. *)
Lemma keeps_If_chain (f : nat) :
  forall node,
    (f <= S fuel)%nat ->
    statements_only f node = true ->
    keeps_line (visit_If_orelse visit node).
Proof.
  induction f as [|f IH]; intros node Hle H; [discriminate|].
  destruct node; try apply keeps_ret.
  cbn [statements_only] in H. apply andb_prop in H. destruct H as [_ Ho].
  assert (Ho' : forallb (statements_only fuel) orelse = true)
    by (apply (@block_le f fuel); [lia|exact Ho]).
  cbn [visit_If_orelse].
  destruct orelse as [|n' rest]; [apply keeps_write_else; exact Ho'|].
  destruct n', rest; try (apply keeps_write_else; exact Ho').
  match type of Ho with
  | forallb _ [?w] = true =>
      assert (Hn : statements_only f w = true)
        by (cbn [forallb] in Ho; rewrite andb_true_r in Ho; exact Ho)
  end.
  destruct f as [|f']; [discriminate|].
  pose proof Hn as Hb. cbn [statements_only] in Hb.
  apply andb_prop in Hb. destruct Hb as [Hb _].
  apply (@block_le f' fuel) in Hb; [|lia].
  apply keeps_of_ends.
  do 4 (apply ends_bind_last; intro).
  apply ends_then_keeps; [apply ends_write_newline|intro].
  apply keeps_bind; [apply keeps_write_suite, Hb|intro].
  apply IH; [lia|exact Hn].
Qed.

(** The methods of the statements. *)
Lemma keeps_methods (node : AST) :
  statements_only (S fuel) node = true ->
  keeps_line (NodeVisitor_visit visit node).
Proof.
  intro H. pose proof H as Hnode.
  pose proof (@With_body_statements fuel node H) as Hwith.
  cbn [statements_only] in H.
  destruct node; try discriminate;
    repeat match goal with
           | H : (_ && _)%bool = true |- _ =>
               apply andb_prop in H; destruct H
           end;
    cbn [NodeVisitor_visit]; autounfold with methods;
    try (keeps_tac; fail).
  - (* If *)
    unfold visit_If. apply keeps_of_ends.
    do 4 (apply ends_bind_last; intro).
    apply ends_then_keeps; [apply ends_write_newline|intro].
    apply keeps_bind; [apply keeps_write_suite; assumption|intro].
    apply (@keeps_If_chain (S fuel)); [lia|exact Hnode].
  - (* With *)
    unfold visit_With.
    match goal with
    | |- context [With_nodes ?w] => destruct (With_nodes w) as [nodes body']
    end.
    cbn [snd] in Hwith. keeps_tac.
Qed.

End Lines.

Lemma visit_keeps_line (depth : nat) :
  forall fuel node,
    statements_only depth node = true -> keeps_line (visit fuel node).
Proof.
  induction depth as [|depth IH]; intros fuel node H; [discriminate|].
  destruct fuel as [|fuel]; [intros s a s' _ Hr; discriminate|].
  rewrite visit_unfold. apply keeps_visiting.
  apply (@keeps_methods (visit fuel) depth); [apply IH|exact H].
Qed.

(** X12: a statement ends its line: in a tree of statements (a module, a
    statement, with statements in the bodies of its compound statements)
    every call of [visit] that starts with no line in progress returns
    with no line in progress, so the text that [decompile] returns for
    such a tree is all the text that was written. *)
Theorem statements_end_their_line (ast : AST) (indentation line_length : Z)
    (text : string) :
  statements_only (height ast) ast = true ->
  decompile ast indentation line_length = inl text ->
  exists s',
    visit (height ast) ast (init indentation line_length) = Returns tt s'
    /\ current_line (self s') = []
    /\ text = emitted s'.
Proof.
  intros H. unfold decompile, decompile_within.
  pose proof (@visit_keeps_line (height ast) (height ast) ast H
                (init indentation line_length)) as Hk.
  destruct (visit (height ast) ast (init indentation line_length))
    as [[] s'|e s']; [|discriminate].
  intro Heq. injection Heq as <-.
  assert (Hc : current_line (self s') = [])
    by (eapply Hk; reflexivity).
  exists s'. split; [reflexivity|]. split; [exact Hc|].
  unfold emitted. rewrite Hc. symmetry. apply append_nil_r.
Qed.

(** [ast.parse("if a:\n    pass\nelif b:\n    x = 1\nelse:\n    return")]. *)
Definition conditional_chain : AST :=
  Module
    [If (Name "a") [Pass]
       [If (Name "b") [Assign [Name "x"] (Num (Py.PyInt 1))]
          [Return None]]].

Lemma statements_end_their_line_witness :
  exists s',
    visit (height conditional_chain) conditional_chain (init 4 100)
    = Returns tt s'
    /\ current_line (self s') = []
    /\ ("if a:" ++ Py.newline ++ "    pass" ++ Py.newline
        ++ "elif b:" ++ Py.newline ++ "    x = 1" ++ Py.newline
        ++ "else:" ++ Py.newline ++ "    return" ++ Py.newline)%string
       = emitted s'.
Proof.
  apply (@statements_end_their_line conditional_chain 4 100);
    vm_compute; reflexivity.
Defined.

(* ================================================================== *)
(** * The statements of a module are written one after the other *)
(* ================================================================== *)

(** Two entries that the methods cannot tell apart: the same entry, or
    two modules (a method reads the class, the operator and the operands
    of its parent, a module has none of these). *)
Inductive same_class : entry -> entry -> Prop :=
| same_entry (x : entry) : same_class x x
| both_modules (b1 b2 : list AST) :
    same_class (ENode (Module b1)) (ENode (Module b2)).

Definition same_parent (x1 x2 : option entry) : Prop :=
  match x1, x2 with
  | Some a, Some b => same_class a b
  | None, None => True
  | _, _ => False
  end.

(** The second decompiler has the lines [p] before those of the first,
    and is otherwise as the first. *)
Record alike (p : list string) (d1 d2 : Decompiler) : Prop := mkAlike {
  alike_lines : lines d2 = p ++ lines d1;
  alike_current_line : current_line d2 = current_line d1;
  alike_current_indentation : current_indentation d2 = current_indentation d1;
  alike_node_stack : Forall2 same_class (node_stack d1) (node_stack d2);
  alike_indentation : indentation d2 = indentation d1;
  alike_max_line_length : max_line_length d2 = max_line_length d1;
  alike_has_unicode_literals : has_unicode_literals d2 = has_unicode_literals d1
}.

Definition related {A : Type} (p : list string) (r1 r2 : result A) : Prop :=
  match r1, r2 with
  | Returns a1 s1, Returns a2 s2 => a1 = a2 /\ alike p (self s1) (self s2)
  | Raises e1 s1, Raises e2 s2 => e1 = e2 /\ alike p (self s1) (self s2)
  | _, _ => False
  end.

(** From states that are alike, the two methods do the same. *)
Definition sim {A : Type} (m1 m2 : M A) : Prop :=
  forall p s1 s2,
    alike p (self s1) (self s2) -> related p (m1 s1) (m2 s2).

Lemma sim_ret {A : Type} (a : A) : sim (ret a) (ret a).
Proof. intros p s1 s2 H. split; [reflexivity|exact H]. Qed.

Lemma sim_raise {A : Type} (e : exn) : sim (@raise A e) (raise e).
Proof. intros p s1 s2 H. split; [reflexivity|exact H]. Qed.

Lemma sim_attribute {A : Type} (o : option A) :
  sim (attribute o) (attribute o).
Proof. destruct o; [apply sim_ret|apply sim_raise]. Qed.

Lemma sim_bind {A B : Type} (m1 m2 : M A) (k1 k2 : A -> M B) :
  sim m1 m2 -> (forall a, sim (k1 a) (k2 a)) -> sim (bind m1 k1) (bind m2 k2).
Proof.
  intros Hm Hk p s1 s2 H. unfold bind. specialize (Hm p s1 s2 H).
  destruct (m1 s1) as [a1 t1|e1 t1], (m2 s2) as [a2 t2|e2 t2];
    simpl in Hm; try contradiction.
  - destruct Hm as [<- Ht]. apply Hk, Ht.
  - exact Hm.
Qed.

Lemma sim_gets {A : Type} (f : Decompiler -> A) :
  (forall p d1 d2, alike p d1 d2 -> f d1 = f d2) -> sim (gets f) (gets f).
Proof.
  intros Hf p s1 s2 H. split; [apply (Hf p), H|exact H].
Qed.

Lemma sim_modify (f : Decompiler -> Decompiler) :
  (forall p d1 d2, alike p d1 d2 -> alike p (f d1) (f d2)) ->
  sim (modify f) (modify f).
Proof. intros Hf p s1 s2 H. split; [reflexivity|apply Hf, H]. Qed.

Lemma sim_try_finally {A : Type} (m1 m2 : M A) (f : state -> state) :
  sim m1 m2 ->
  (forall p s1 s2, alike p (self s1) (self s2) ->
                   alike p (self (f s1)) (self (f s2))) ->
  sim (try_finally m1 f) (try_finally m2 f).
Proof.
  intros Hm Hf p s1 s2 H. unfold try_finally. specialize (Hm p s1 s2 H).
  destruct (m1 s1) as [a1 t1|e1 t1], (m2 s2) as [a2 t2|e2 t2];
    simpl in Hm; try contradiction; destruct Hm as [<- Ht];
    (split; [reflexivity|apply Hf, Ht]).
Qed.

Lemma sim_when (b : bool) (m1 m2 : M unit) :
  sim m1 m2 -> sim (when b m1) (when b m2).
Proof. destruct b; simpl; auto using sim_ret. Qed.

Lemma sim_if_some {A : Type} (o : option A) (f1 f2 : A -> M unit) :
  (forall a, sim (f1 a) (f2 a)) -> sim (if_some o f1) (if_some o f2).
Proof. destruct o; simpl; auto using sim_ret. Qed.

Lemma sim_for_each {A : Type} (f1 f2 : A -> M unit) (l : list A) :
  (forall a, sim (f1 a) (f2 a)) -> sim (for_each f1 l) (for_each f2 l).
Proof. intro H. induction l; simpl; auto using sim_ret, sim_bind. Qed.

Lemma alike_written (code : string) (p : list string) (d1 d2 : Decompiler) :
  alike p d1 d2 -> alike p (written code d1) (written code d2).
Proof. intros []. constructor; simpl; auto. congruence. Qed.

Lemma alike_line_closed (p : list string) (d1 d2 : Decompiler) :
  alike p d1 d2 -> alike p (line_closed d1) (line_closed d2).
Proof.
  intros []. constructor; simpl; auto.
  rewrite alike_lines0, alike_current_line0. symmetry. apply app_assoc.
Qed.

Lemma alike_indented (p : list string) (d1 d2 : Decompiler) :
  alike p d1 d2 -> alike p (indented d1) (indented d2).
Proof. intros []. constructor; simpl; auto. congruence. Qed.

Lemma alike_dedented (p : list string) (d1 d2 : Decompiler) :
  alike p d1 d2 -> alike p (dedented d1) (dedented d2).
Proof. intros []. constructor; simpl; auto. congruence. Qed.

Lemma alike_set_flag (b : bool) (p : list string) (d1 d2 : Decompiler) :
  alike p d1 d2 ->
  alike p (set_has_unicode_literals b d1) (set_has_unicode_literals b d2).
Proof. intros []. constructor; simpl; auto. Qed.

Lemma alike_stack (p : list string) (d1 d2 : Decompiler)
    (stack1 stack2 : list entry) :
  alike p d1 d2 ->
  Forall2 same_class stack1 stack2 ->
  alike p (set_node_stack stack1 d1) (set_node_stack stack2 d2).
Proof. intros [] H. constructor; simpl; auto. Qed.

Lemma Forall2_removelast {A : Type} (R : A -> A -> Prop) (l1 l2 : list A) :
  Forall2 R l1 l2 -> Forall2 R (removelast l1) (removelast l2).
Proof.
  induction 1 as [|x y l1 l2 Hxy Hl IH]; simpl; [constructor|].
  destruct Hl; [constructor|]. constructor; assumption.
Qed.

Lemma Forall2_snoc {A : Type} (R : A -> A -> Prop) (l1 l2 : list A) (x y : A) :
  Forall2 R l1 l2 -> R x y -> Forall2 R (l1 ++ [x]) (l2 ++ [y]).
Proof. intros H Hxy. apply Forall2_app; [exact H|repeat constructor; exact Hxy]. Qed.

Lemma same_parent_of_stacks (l1 l2 : list entry) :
  Forall2 same_class l1 l2 ->
  same_parent (nth_error (rev l1) 1) (nth_error (rev l2) 1).
Proof.
  intro H.
  assert (Hr : Forall2 same_class (rev l1) (rev l2)).
  { induction H; simpl; [constructor|]. apply Forall2_snoc; assumption. }
  destruct Hr as [|x y t1 t2 Hxy Ht]; [exact I|].
  destruct Ht; [exact I|]. simpl. assumption.
Qed.

Lemma sim_effect (f : state -> state) :
  (forall p s1 s2, alike p (self s1) (self s2) ->
                   alike p (self (f s1)) (self (f s2))) ->
  sim (effect f) (effect f).
Proof. intros Hf p s1 s2 H. split; [reflexivity|apply Hf, H]. Qed.

Lemma alike_push_node (n : AST) (p : list string) (s1 s2 : state) :
  alike p (self s1) (self s2) ->
  alike p (self (push_node n s1)) (self (push_node n s2)).
Proof.
  intro H. apply alike_stack; [exact H|].
  apply Forall2_snoc; [apply H|constructor].
Qed.

Lemma alike_push_CallArgs (p : list string) (s1 s2 : state) :
  alike p (self s1) (self s2) ->
  alike p (self (push_CallArgs s1)) (self (push_CallArgs s2)).
Proof.
  intro H. apply alike_stack; [exact H|].
  apply Forall2_snoc; [apply H|constructor].
Qed.

Lemma alike_pop_node (p : list string) (s1 s2 : state) :
  alike p (self s1) (self s2) ->
  alike p (self (pop_node s1)) (self (pop_node s2)).
Proof.
  intro H. apply alike_stack; [exact H|]. apply Forall2_removelast, H.
Qed.

Lemma alike_pop_CallArgs (p : list string) (s1 s2 : state) :
  alike p (self s1) (self s2) ->
  alike p (self (pop_CallArgs s1)) (self (pop_CallArgs s2)).
Proof.
  intro H. apply alike_stack; [exact H|]. apply Forall2_removelast, H.
Qed.

Lemma sim_with_parent {A : Type} (k1 k2 : option entry -> M A) :
  (forall x1 x2, same_parent x1 x2 -> sim (k1 x1) (k2 x2)) ->
  sim (bind get_parent_node k1) (bind get_parent_node k2).
Proof.
  intros Hk p s1 s2 H. unfold bind, get_parent_node, gets.
  apply Hk; [|exact H]. apply same_parent_of_stacks, H.
Qed.

Lemma sim_precedence (x : option entry) :
  sim (precedence_of_node x) (precedence_of_node x).
Proof.
  assert (K : forall op, sim (match PRECEDENCE (ENode op) with
                              | Some p => ret p
                              | None => raise KeyError
                              end)
                             (match PRECEDENCE (ENode op) with
                              | Some p => ret p
                              | None => raise KeyError
                              end)).
  { intro op. destruct (PRECEDENCE (ENode op)); [apply sim_ret|apply sim_raise]. }
  destruct x as [[n|]|]; try apply sim_ret.
  destruct n; try apply sim_ret; apply K.
Qed.

Lemma sim_write (code : string) : sim (write code) (write code).
Proof. apply sim_modify. intros. apply alike_written. assumption. Qed.

Lemma sim_write_newline : sim write_newline write_newline.
Proof. apply sim_modify. intros. apply alike_line_closed. assumption. Qed.

Lemma sim_write_indentation : sim write_indentation write_indentation.
Proof.
  apply sim_bind; [|intro; apply sim_write].
  apply sim_gets. intros p d1 d2 []. congruence.
Qed.

Lemma sim_add_indentation (m1 m2 : M unit) :
  sim m1 m2 -> sim (add_indentation m1) (add_indentation m2).
Proof.
  intro H. unfold add_indentation.
  apply sim_bind; [apply sim_modify; intros; apply alike_indented; assumption|].
  intros _. apply sim_try_finally; [exact H|].
  intros. apply alike_dedented. assumption.
Qed.

Lemma sim_parenthesize_if (condition : bool) (m1 m2 : M unit) :
  sim m1 m2 -> sim (parenthesize_if condition m1) (parenthesize_if condition m2).
Proof.
  intro H. destruct condition; simpl; auto.
  repeat (apply sim_bind; [|intro]); auto using sim_write.
Qed.

Section Simulation.

Variable visit : AST -> M unit.
Hypothesis sim_visit : forall n, sim (visit n) (visit n).

Lemma sim_write_inline (nodes : list AST) (first : bool)
    (separator : string) (allow_newlines : bool) :
  sim (write_inline visit nodes first separator allow_newlines)
    (write_inline visit nodes first separator allow_newlines).
Proof.
  revert first. induction nodes as [|x l IH]; intro first; simpl.
  - apply sim_ret.
  - apply sim_bind; [destruct first; auto using sim_ret, sim_write|intros _].
    apply sim_bind; [apply sim_visit|intros _].
    apply sim_bind; [apply sim_gets; intros p d1 d2 []; congruence|intro len].
    apply sim_bind; [apply sim_gets; intros p d1 d2 []; congruence|intro limit].
    destruct (allow_newlines && (limit <? len))%bool; auto using sim_ret.
Qed.

Lemma sim_write_multiline (nodes : list AST) (separator : string)
    (need_parens final : bool) :
  sim (write_multiline visit nodes separator need_parens final)
    (write_multiline visit nodes separator need_parens final).
Proof.
  unfold write_multiline.
  apply sim_bind; [apply sim_when, sim_write|intros _].
  apply sim_bind; [apply sim_write_newline|intros _].
  apply sim_bind; [|intros _].
  - apply sim_add_indentation, sim_for_each. intros [i x].
    apply sim_bind; [apply sim_write_indentation|intros _].
    apply sim_bind; [apply sim_visit|intros _].
    apply sim_bind; [apply sim_when, sim_write|intros _].
    apply sim_write_newline.
  - apply sim_bind; [apply sim_write_indentation|intros _].
    apply sim_when, sim_write.
Qed.

(** The checkpoint of [write_expression_list] is relative to the lines
    before it. *)
Lemma sim_write_expression_list (nodes : list AST) (separator : string)
    (allow_newlines need_parens final : bool) :
  sim (write_expression_list visit nodes separator allow_newlines
         need_parens final)
    (write_expression_list visit nodes separator allow_newlines
       need_parens final).
Proof.
  intros p s1 s2 H.
  assert (K : forall last1 last2 cl1 cl2,
             last2 = (List.length p + last1)%nat ->
             cl2 = cl1 ->
             related p
               ((broke <- write_inline visit nodes true separator
                            allow_newlines ;;
                 if negb broke then ret tt
                 else
                   modify (reset_state last1 cl1) ;;
                   write_multiline visit nodes separator need_parens final)
                  s1)
               ((broke <- write_inline visit nodes true separator
                            allow_newlines ;;
                 if negb broke then ret tt
                 else
                   modify (reset_state last2 cl2) ;;
                   write_multiline visit nodes separator need_parens final)
                  s2)).
  { intros last1 last2 cl ? -> ->. unfold bind at 1 3.
    pose proof (@sim_write_inline nodes true separator allow_newlines p s1 s2 H)
      as Hi.
    destruct (write_inline visit nodes true separator allow_newlines s1)
      as [b1 t1|e1 t1],
      (write_inline visit nodes true separator allow_newlines s2)
      as [b2 t2|e2 t2]; simpl in Hi; try contradiction; [|exact Hi].
    destruct Hi as [<- Ht]. destruct b1; cbn [negb].
    - unfold bind, modify, effect. apply sim_write_multiline.
      destruct Ht. constructor; simpl; auto.
      rewrite alike_lines0, firstn_app_2. reflexivity.
    - split; [reflexivity|exact Ht]. }
  exact (K (List.length (lines (self s1))) (List.length (lines (self s2)))
           (current_line (self s1)) (current_line (self s2))
           ltac:(rewrite (alike_lines H), length_app; reflexivity)
           (alike_current_line H)).
Qed.

Ltac sim_getter := apply sim_gets; intros ? ? ? []; congruence.

(** The parents that the two runs find: the same entry, or two modules. *)
Ltac parent_cases :=
  let x1 := fresh "x1" in
  let x2 := fresh "x2" in
  let Hx := fresh "Hx" in
  intros x1 x2 Hx;
  destruct x1 as [?|], x2 as [?|]; try contradiction;
  [destruct Hx; [|simpl]|].

Ltac sim_step :=
  match goal with
  | |- sim (ret _) _ => apply sim_ret
  | |- sim (raise _) _ => apply sim_raise
  | |- sim (attribute _) _ => apply sim_attribute
  | |- sim (precedence_of_node _) _ => apply sim_precedence
  | |- sim (write _) _ => apply sim_write
  | |- sim write_newline _ => apply sim_write_newline
  | |- sim write_indentation _ => apply sim_write_indentation
  | |- sim (gets _) _ => sim_getter
  | |- sim (modify (set_has_unicode_literals _)) _ =>
      apply sim_modify; intros; apply alike_set_flag; assumption
  | |- sim (write_inline _ _ _ _ _) _ => apply sim_write_inline
  | |- sim (write_expression_list _ _ _ _ _ _) _ =>
      apply sim_write_expression_list
  | |- sim (visit _) _ => apply sim_visit
  | |- sim (effect push_CallArgs) _ =>
      apply sim_effect; intros; apply alike_push_CallArgs; assumption
  | |- sim (try_finally _ pop_CallArgs) _ =>
      apply sim_try_finally;
      [|intros; apply alike_pop_CallArgs; assumption]
  | |- sim (bind get_parent_node _) _ => apply sim_with_parent; parent_cases
  | |- sim (bind _ _) (bind _ _) => apply sim_bind; [|intro]
  | |- sim (when _ _) _ => apply sim_when
  | |- sim (if_some _ _) _ => apply sim_if_some; intro
  | |- sim (for_each _ _) _ => apply sim_for_each; intro
  | |- sim (add_indentation _) _ => apply sim_add_indentation
  | |- sim (parenthesize_if _ _) _ => apply sim_parenthesize_if
  | |- sim (let (_, _) := ?p in _) _ => destruct p
  | |- sim (if ?b then _ else _) _ => destruct b
  | |- sim (match ?x with _ => _ end) _ => is_var x; destruct x
  | |- sim (match ?x with _ => _ end) _ => destruct x
  end.

Ltac sim_all :=
  repeat first [progress unfold write_else, write_suite | sim_step].

Lemma sim_visit_If_orelse (h : nat) :
  forall node,
    (height node <= h)%nat ->
    sim (visit_If_orelse visit node) (visit_If_orelse visit node).
Proof.
  induction h as [|h IH]; intros node Hh.
  - pose proof (height_pos node). lia.
  - destruct node; try apply sim_ret.
    cbn [visit_If_orelse].
    destruct orelse as [|n' tl]; [apply sim_ret|].
    pose proof (@height_If_orelse node body (n' :: tl) n' (or_introl eq_refl)).
    destruct n', tl; sim_all.
    apply IH. lia.
Qed.

Lemma sim_With_items (nodes : list AST) (is_first : bool) :
  sim (With_items visit nodes is_first) (With_items visit nodes is_first).
Proof.
  revert is_first. induction nodes as [|context_node rest IH];
    intro is_first; cbn [With_items]; [apply sim_ret|].
  apply sim_bind; [destruct is_first; auto using sim_ret, sim_write|intros _].
  apply sim_bind; [|intros _; apply IH].
  destruct context_node; sim_all.
Qed.

Lemma sim_NodeVisitor_visit (node : AST) :
  sim (NodeVisitor_visit visit node) (NodeVisitor_visit visit node).
Proof.
  destruct node; cbn [NodeVisitor_visit]; autounfold with methods;
    unfold visit_ImportFrom, visit_If, visit_With, generic_visit;
    try (sim_all; fail).
  - (* If *)
    sim_all.
    apply (@sim_visit_If_orelse (height (If node body orelse))). lia.
  - (* With *)
    sim_all. apply sim_With_items.
Qed.

End Simulation.

(** From states that are alike, a call of [visit] does the same in both,
    and leaves states that are alike: what it writes does not depend on
    the lines completed before. *)
Lemma sim_visit_all (fuel : nat) :
  forall node, sim (visit fuel node) (visit fuel node).
Proof.
  induction fuel as [|fuel IH]; intro node; [apply sim_raise|].
  cbn [visit].
  apply sim_bind;
    [apply sim_effect; intros; apply alike_push_node; assumption|intros _].
  apply sim_try_finally.
  - apply sim_NodeVisitor_visit, IH.
  - intros. apply alike_pop_node. assumption.
Qed.

Lemma for_each_app {A : Type} (f : A -> M unit) (a b : list A) (s : state) :
  for_each f (a ++ b) s = (for_each f a ;; for_each f b) s.
Proof.
  revert s. induction a as [|x a IH]; intro s; [reflexivity|].
  cbn [app for_each]. unfold bind at 1 2 3.
  destruct (f x s) as [[] s1|e s1]; [|reflexivity].
  rewrite IH. reflexivity.
Qed.

(** The run of [visit] on a module, from a new decompiler: the run of the
    loop over the statements, between the push and the pop. *)
Lemma module_run (fuel : nat) (body : list AST) (indentation line_length : Z)
    (s : state) :
  visit (S fuel) (Module body) (init indentation line_length) = Returns tt s ->
  exists s1,
    for_each (visit fuel) body
      (push_node (Module body) (init indentation line_length))
    = Returns tt s1
    /\ s = pop_node s1.
Proof.
  rewrite visit_unfold. unfold visiting, bind, effect, try_finally.
  cbn [NodeVisitor_visit]. unfold visit_Module.
  destruct (for_each (visit fuel) body
              (push_node (Module body) (init indentation line_length)))
    as [[] s1|e s1]; [|discriminate].
  intro H. injection H as <-. exists s1. split; reflexivity.
Qed.

(** The statements [rest] after the statements [first], when [first]
    leaves no line in progress and does not set the flag. *)
Lemma module_run_splits (fuel : nat) (first rest : list AST)
    (indentation line_length : Z) (sA sB : state) :
  visit (S fuel) (Module first) (init indentation line_length)
  = Returns tt sA ->
  visit (S fuel) (Module rest) (init indentation line_length)
  = Returns tt sB ->
  current_line (self sA) = [] ->
  has_unicode_literals (self sA) = false ->
  exists sAB,
    visit (S fuel) (Module (first ++ rest)) (init indentation line_length)
    = Returns tt sAB
    /\ lines (self sAB) = lines (self sA) ++ lines (self sB).
Proof.
  intros HA HB Hline Hflag.
  apply module_run in HA. destruct HA as [sA1 [HA ->]].
  apply module_run in HB. destruct HB as [sB1 [HB ->]].
  set (s0 := init indentation line_length) in *.
  pose proof (@steps_for_each _ (visit fuel) first (visit_steps fuel)
                (push_node (Module first) s0)) as [FA _].
  rewrite HA in FA. cbn [state_of] in FA.
  assert (SA : sim (for_each (visit fuel) first) (for_each (visit fuel) first))
    by (apply sim_for_each, sim_visit_all).
  assert (SB : sim (for_each (visit fuel) rest) (for_each (visit fuel) rest))
    by (apply sim_for_each, sim_visit_all).
  specialize (SA [] (push_node (Module first) s0)
                (push_node (Module (first ++ rest)) s0)).
  rewrite HA in SA.
  destruct (for_each (visit fuel) first (push_node (Module (first ++ rest)) s0))
    as [[] sAB1|e sAB1] eqn:HAB1.
  2:{ exfalso. apply SA. constructor; simpl; auto. repeat constructor. }
  destruct SA as [_ SA]; [constructor; simpl; auto; repeat constructor|].
  specialize (SB (lines (self sA1)) (push_node (Module rest) s0) sAB1).
  rewrite HB in SB.
  assert (Hrel : alike (lines (self sA1))
                   (self (push_node (Module rest) s0)) (self sAB1)).
  { destruct SA, FA. simpl in *. constructor; simpl.
    - rewrite alike_lines0, app_nil_r. reflexivity.
    - rewrite alike_current_line0. exact Hline.
    - rewrite alike_current_indentation0. assumption.
    - rewrite frame_node_stack0 in alike_node_stack0.
      inversion alike_node_stack0 as [|x y l1 l2 Hxy Hl]; subst.
      inversion Hl; subst.
      constructor; [|constructor]. inversion Hxy; constructor.
    - rewrite alike_indentation0. assumption.
    - rewrite alike_max_line_length0. assumption.
    - rewrite alike_has_unicode_literals0. exact Hflag. }
  specialize (SB Hrel).
  destruct (for_each (visit fuel) rest sAB1) as [[] sAB2|e sAB2] eqn:HAB2;
    [|contradiction].
  destruct SB as [_ SB].
  exists (pop_node sAB2). split.
  - rewrite visit_unfold. unfold visiting, bind, effect, try_finally.
    cbn [NodeVisitor_visit]. unfold visit_Module.
    rewrite for_each_app. unfold bind. rewrite HAB1, HAB2. reflexivity.
  - simpl. apply SB.
Qed.

Lemma max_list_app (a b : list nat) :
  max_list (a ++ b) = Nat.max (max_list a) (max_list b).
Proof.
  induction a as [|x a IH]; simpl; [reflexivity|]. rewrite IH. lia.
Qed.

(** The first statements of a module ask for [unicode_literals]. *)
Definition sets_the_flag (ast : AST) (indentation line_length : Z) : bool :=
  has_unicode_literals
    (self (state_of (visit (height ast) ast (init indentation line_length)))).

(** A run of [decompile] that returns, with any larger budget. *)
Lemma decompile_run (fuel : nat) (ast : AST) (indentation line_length : Z)
    (text : string) :
  (height ast <= fuel)%nat ->
  decompile ast indentation line_length = inl text ->
  exists s,
    visit fuel ast (init indentation line_length) = Returns tt s
    /\ visit (height ast) ast (init indentation line_length) = Returns tt s
    /\ text = Py.join (lines (self s)).
Proof.
  intros Hh. unfold decompile, decompile_within.
  destruct (visit (height ast) ast (init indentation line_length))
    as [[] s|e s] eqn:Hv; [|discriminate].
  intro H. injection H as <-. exists s. split; [|split; reflexivity].
  replace fuel with (height ast + (fuel - height ast))%nat by lia.
  rewrite visit_more_fuel; [exact Hv|]. rewrite Hv. exact I.
Qed.

(** X13: the statements of a module are written one after the other: when
    the statements [first] are statements (so that they leave no line in
    progress) and do not ask for [unicode_literals], the text of the
    module [first ++ rest] is the text of the module [first] followed by
    the text of the module [rest]; what is written for a statement does
    not depend on the lines completed before it. *)
Theorem module_text_is_concatenation (first rest : list AST)
    (indentation line_length : Z) (text_first text_rest : string) :
  statements_only (height (Module first)) (Module first) = true ->
  sets_the_flag (Module first) indentation line_length = false ->
  decompile (Module first) indentation line_length = inl text_first ->
  decompile (Module rest) indentation line_length = inl text_rest ->
  decompile (Module (first ++ rest)) indentation line_length
  = inl (text_first ++ text_rest)%string.
Proof.
  intros Hstmts Hflag HA HB.
  set (fuel := max_list (map height (first ++ rest))).
  assert (Hfuel : height (Module (first ++ rest)) = S fuel) by reflexivity.
  assert (Hmax : fuel = Nat.max (max_list (map height first))
                          (max_list (map height rest)))
    by (subst fuel; rewrite map_app; apply max_list_app).
  apply (@decompile_run (S fuel)) in HA; [|simpl; lia].
  apply (@decompile_run (S fuel)) in HB; [|simpl; lia].
  destruct HA as [sA [HA [HA' ->]]]. destruct HB as [sB [HB [_ ->]]].
  unfold sets_the_flag in Hflag. rewrite HA' in Hflag. cbn [state_of] in Hflag.
  assert (Hline : current_line (self sA) = []).
  { eapply (@visit_keeps_line (height (Module first)) (S fuel)
              (Module first) Hstmts); [|exact HA]. reflexivity. }
  destruct (@module_run_splits fuel first rest _ _ sA sB HA HB Hline Hflag)
    as [sAB [HAB Hlines]].
  unfold decompile, decompile_within. rewrite Hfuel, HAB, Hlines.
  rewrite join_app. reflexivity.
Qed.

(** [ast.parse("import os\nx = 1")] and [ast.parse("def f():\n    pass")]. *)
Lemma module_text_is_concatenation_witness :
  decompile
    (Module ([Import [alias "os" None]; Assign [Name "x"] (Num (Py.PyInt 1))]
             ++ [FunctionDef "f" (arguments [] None None []) [Pass] []]))
    4 100
  = inl (("import os" ++ Py.newline ++ "x = 1" ++ Py.newline)
         ++ (Py.newline ++ "def f():" ++ Py.newline
             ++ "    pass" ++ Py.newline))%string.
Proof.
  apply (@module_text_is_concatenation
           [Import [alias "os" None]; Assign [Name "x"] (Num (Py.PyInt 1))]
           [FunctionDef "f" (arguments [] None None []) [Pass] []] 4 100);
    vm_compute; reflexivity.
Defined.

(** ** Tuples *)

(** The parents under which [visit_Tuple] writes no parentheses. *)
Definition bare_tuple_parent (x : option entry) : bool :=
  isinstance x [is_Expr; is_Assign; is_AugAssign; is_Return; is_Yield].

(** The state in which [visit_Tuple] visits the only element of a tuple:
    the tuple is on the stack, and the opening parenthesis is written
    where the tuple gets parentheses. *)
Definition element_state (elt : AST) (s : state) : state :=
  if bare_tuple_parent (nth_error (rev (node_stack (self s))) 0)
  then push_node (Tuple [elt]) s
  else update (written "(") (push_node (Tuple [elt]) s).

(** X14: an empty tuple is written [()] whatever its parent, and a tuple
    of one element keeps the comma that makes it a tuple: the element is
    visited, with the tuple as its parent, and what that visit writes, [w],
    is followed by the comma: the tuple is written [w,] under an expression
    statement, an assignment, a [return] or a [yield], and [(w,)]
    elsewhere. If the visit of the element raises an exception, so does the
    visit of the tuple. *)
Theorem tuple_of_none_or_one (fuel : nat) (s : state) :
  (exists s',
      visit (S fuel) (Tuple []) s = Returns tt s'
      /\ emitted s' = (emitted s ++ "()")%string)
  /\ (forall elt s',
        visit (S fuel) (Tuple [elt]) s = Returns tt s' ->
        exists s1 w,
          visit fuel elt (element_state elt s) = Returns tt s1
          /\ emitted s1 = (emitted (element_state elt s) ++ w)%string
          /\ emitted s'
             = (emitted s
                ++ (if bare_tuple_parent (nth_error (rev (node_stack (self s))) 0)
                    then w ++ "," else "(" ++ w ++ ",)"))%string)
  /\ (forall elt e s1,
        visit fuel elt (element_state elt s) = Raises e s1 ->
        visit (S fuel) (Tuple [elt]) s = Raises e (pop_node s1)).
Proof.
  split; [|split].
  - eexists. split; [reflexivity|].
    change (emitted (update (written "()") s) = (emitted s ++ "()")%string).
    apply emitted_written.
  - intros elt s'. rewrite visit_unfold.
    unfold visiting, effect, try_finally. unfold bind at 1.
    cbn [NodeVisitor_visit]. unfold visit_Tuple.
    unfold bind at 1. rewrite parent_is_the_top.
    unfold element_state.
    fold (bare_tuple_parent (nth_error (rev (node_stack (self s))) 0)).
    set (s0 := push_node (Tuple [elt]) s).
    assert (Hs0 : emitted s0 = emitted s) by reflexivity.
    destruct (bare_tuple_parent (nth_error (rev (node_stack (self s))) 0));
      cbn [negb parenthesize_if].
    + unfold bind at 1.
      pose proof (visit_steps fuel elt s0) as [_ [w Hw]].
      destruct (visit fuel elt s0) as [[] s1|e s1]; [|discriminate].
      cbn [state_of] in Hw. rewrite write_eq.
      intro H. injection H as <-. exists s1, w.
      split; [reflexivity|]. split; [exact Hw|].
      change (emitted (update (written ",") s1)
              = (emitted s ++ w ++ ",")%string).
      rewrite emitted_written, Hw, Hs0, append_assoc. reflexivity.
    + unfold bind at 1. rewrite write_eq. unfold bind at 1 2.
      pose proof (visit_steps fuel elt (update (written "(") s0)) as [_ [w Hw]].
      destruct (visit fuel elt (update (written "(") s0)) as [[] s1|e s1];
        [|discriminate].
      cbn [state_of] in Hw. rewrite !write_eq.
      intro H. injection H as <-. exists s1, w.
      split; [reflexivity|]. split; [exact Hw|].
      change (emitted (update (written ")") (update (written ",") s1))
              = (emitted s ++ "(" ++ w ++ ",)")%string).
      rewrite !emitted_written, Hw, emitted_written, Hs0, !append_assoc.
      reflexivity.
  - intros elt e s1. rewrite visit_unfold.
    unfold visiting, effect, try_finally. unfold bind at 1.
    cbn [NodeVisitor_visit]. unfold visit_Tuple.
    unfold bind at 1. rewrite parent_is_the_top.
    unfold element_state.
    fold (bare_tuple_parent (nth_error (rev (node_stack (self s))) 0)).
    destruct (bare_tuple_parent (nth_error (rev (node_stack (self s))) 0));
      cbn [negb parenthesize_if]; intro H.
    + unfold bind at 1. rewrite H. reflexivity.
    + unfold bind at 1. rewrite write_eq. unfold bind at 1 2.
      rewrite H. reflexivity.
Qed.

(** [ast.parse("f((a,))")] and [ast.parse("a,")]: the tuple as the argument
    of a call, where it is written [(a,)], and as an expression statement,
    where it is written [a,]. *)
Definition argument_of_a_call : state :=
  push_CallArgs
    (push_node (Call (Name "f") [Tuple [Name "a"]] [] None None)
       (update (written "f(") (init 4 100))).

Definition expression_statement : state :=
  push_node (Expr (Tuple [Name "a"])) (init 4 100).

Lemma tuple_of_none_or_one_witness :
  (exists s1 w,
      visit 1 (Name "a") (element_state (Name "a") argument_of_a_call)
      = Returns tt s1
      /\ emitted s1
         = (emitted (element_state (Name "a") argument_of_a_call) ++ w)%string
      /\ emitted (state_of (visit 2 (Tuple [Name "a"]) argument_of_a_call))
         = (emitted argument_of_a_call ++ "(" ++ w ++ ",)")%string)
  /\ (exists s1 w,
        visit 1 (Name "a") (element_state (Name "a") expression_statement)
        = Returns tt s1
        /\ emitted s1
           = (emitted (element_state (Name "a") expression_statement) ++ w)%string
        /\ emitted (state_of (visit 2 (Tuple [Name "a"]) expression_statement))
           = (emitted expression_statement ++ w ++ ",")%string)
  /\ emitted (state_of (visit 2 (Tuple [Name "a"]) argument_of_a_call))
     = "f((a,)"
  /\ decompile (Module [Expr (Tuple [Name "a"])]) 4 100
     = inl ("a," ++ Py.newline)%string
  /\ decompile
       (Module [Expr (Call (Name "f") [Tuple [Name "a"]] [] None None)]) 4 100
     = inl ("f((a,))" ++ Py.newline)%string.
Proof.
  split; [|split; [|split; [|split]]].
  - apply (proj1 (proj2 (@tuple_of_none_or_one 1 argument_of_a_call))
             (Name "a")).
    vm_compute. reflexivity.
  - apply (proj1 (proj2 (@tuple_of_none_or_one 1 expression_statement))
             (Name "a")).
    vm_compute. reflexivity.
  - vm_compute. reflexivity.
  - vm_compute. reflexivity.
  - vm_compute. reflexivity.
Defined.

(** ** Where a lambda or a conditional expression gets no parentheses *)

(** [ast.parse("(a if b else c) and d")] and
    [ast.parse("a if b else (c and d)")]. *)
Definition conditional_and_name : AST :=
  Module [Expr (BoolOp (Operator BoolAnd)
                  [IfExp 0 (Name "b") (Name "a") (Name "c"); Name "d"])].

Definition conditional_of_and : AST :=
  Module [Expr (IfExp 0 (Name "b") (Name "a")
                  (BoolOp (Operator BoolAnd) [Name "c"; Name "d"]))].

(** X15: under a parent that is none of the operations, calls, attribute
    accesses and subscripts, and that is no conditional expression (a
    Boolean operation, a statement, a list, the arguments of a call, ...),
    a lambda and a conditional expression are written without
    parentheses; so the operand [a if b else c] of [and] is written as the
    conditional expression [a if b else c and d] is. *)
Theorem no_parentheses_under_other_parents (fuel : nat) (s : state)
    (stack : list entry) (parent : entry) (node : AST) :
  node_stack (self s) = stack ++ [parent] ->
  (is_Lambda node || is_IfExp node)%bool = true ->
  isinstance (Some parent)
    [is_BinOp; is_UnaryOp; is_Compare; is_IfExp; is_Attribute; is_Subscript;
     is_Call] = false ->
  visit (S fuel) node s = visiting node (bare_code fuel node) s
  /\ decompile conditional_and_name 4 100
     = decompile conditional_of_and 4 100.
Proof.
  intros Hstack Hnode Hparent. split; [|vm_compute; reflexivity].
  rewrite visit_unfold. unfold visiting, effect.
  unfold bind at 1. symmetry. unfold bind at 1. symmetry.
  destruct node; try discriminate; cbn [NodeVisitor_visit bare_code].
  - unfold visit_Lambda, try_finally, bind at 1.
    rewrite (@parent_of_pushed _ _ _ _ Hstack).
    unfold Lambda_should_parenthesize. rewrite Hparent. reflexivity.
  - unfold visit_IfExp, try_finally, bind at 1.
    rewrite (@parent_of_pushed _ _ _ _ Hstack).
    replace (IfExp_should_parenthesize (IfExp obj node1 node2 node3)
               (Some parent)) with false; [reflexivity|].
    unfold IfExp_should_parenthesize.
    destruct parent as [n|]; [|reflexivity].
    destruct n; try discriminate; reflexivity.
Qed.

Lemma no_parentheses_under_other_parents_witness :
  visit 2 (IfExp 0 (Name "b") (Name "a") (Name "c"))
    (push_node (BoolOp (Operator BoolAnd)
                  [IfExp 0 (Name "b") (Name "a") (Name "c"); Name "d"])
       (init 4 100))
  = visiting (IfExp 0 (Name "b") (Name "a") (Name "c"))
      (bare_code 1 (IfExp 0 (Name "b") (Name "a") (Name "c")))
      (push_node (BoolOp (Operator BoolAnd)
                    [IfExp 0 (Name "b") (Name "a") (Name "c"); Name "d"])
         (init 4 100))
  /\ decompile conditional_and_name 4 100
     = decompile conditional_of_and 4 100.
Proof.
  apply (@no_parentheses_under_other_parents 1
           (push_node (BoolOp (Operator BoolAnd)
                         [IfExp 0 (Name "b") (Name "a") (Name "c"); Name "d"])
              (init 4 100))
           []
           (ENode (BoolOp (Operator BoolAnd)
                     [IfExp 0 (Name "b") (Name "a") (Name "c"); Name "d"])));
    reflexivity.
Defined.

Example decompile_conditional_and_name :
  decompile conditional_and_name 4 100
  = inl ("a if b else c and d" ++ Py.newline)%string.
Proof. vm_compute. reflexivity. Qed.

(** ** What the inline layout guarantees *)

(** X16: when newlines are allowed and the first loop of
    [write_expression_list] runs to its end on a list that is not empty,
    the line in progress is not longer than the configured width: the
    inline layout is kept only if the line fits after the last element. *)
Theorem inline_list_fits_the_line (visit : AST -> M unit) (nodes : list AST)
    (first : bool) (separator : string) (s s1 : state) :
  nodes <> [] ->
  write_inline visit nodes first separator true s = Returns false s1 ->
  overflows s1 = false.
Proof.
  revert first s. induction nodes as [|x rest IH]; intros first s Hne;
    [contradiction|].
  cbn [write_inline]. unfold bind at 1.
  destruct ((if first then ret tt else write separator) s) as [[] sa|e sa];
    [|discriminate].
  unfold bind at 1. destruct (visit x sa) as [[] sb|e sb]; [|discriminate].
  unfold bind, current_line_length, gets. cbn [andb].
  destruct (max_line_length (self sb) <? Py.total_len (current_line (self sb)))
    eqn:Hover; [discriminate|].
  destruct rest as [|y rest].
  - cbn [write_inline]. intro H. injection H as <-. exact Hover.
  - apply IH. discriminate.
Qed.

Lemma inline_list_fits_the_line_witness :
  overflows
    (state_of (write_inline (visit 1) two_long_names true ", " true
                 (init 4 100))) = false.
Proof.
  apply (@inline_list_fits_the_line (visit 1) two_long_names true ", "
           (init 4 100)).
  - discriminate.
  - vm_compute. reflexivity.
Defined.
